(** * youtube-ai-summarizer: the summary parser and the bounded summary cache

    A shallow embedding of
    - [parseSummary] (server/index.ts), the line scanner that turns generated
      text into timestamped points;
    - the SQLite cache (server/db/sqlite.ts) and the JSON-file cache that
      keeps [summaries.json]: [checkSummaryExists], [getCachedSummary],
      [saveSummary], [getRecentSummaries];
    and the properties of them that the specification states. *)

From Stdlib Require Import ZArith NArith Ascii String.
From stdpp Require Import base decidable option numbers list sorting.

Open Scope N_scope.

(** ** JavaScript strings

    A JavaScript string is a sequence of UTF-16 code units; [===] on strings
    is equality of these sequences. *)

Abbreviation jsstring := (list N).

(** An ASCII literal as a JavaScript string. *)
Definition js (s : string) : jsstring :=
  map N_of_ascii (list_ascii_of_string s).

Definition LF : N := 10.
Definition COLON : N := 58.
Definition HYPHEN : N := 45.
Definition HASH : N := 35.
Definition BACKTICK : N := 96.

(** [WhiteSpace] and [LineTerminator] of ECMAScript: what [trim] strips and
    what [\s] matches. *)
Definition is_space (c : N) : bool :=
  (c =? 9) || (c =? 10) || (c =? 11) || (c =? 12) || (c =? 13) || (c =? 32)
  || (c =? 160) || (c =? 5760) || ((8192 <=? c) && (c <=? 8202))
  || (c =? 8232) || (c =? 8233) || (c =? 8239) || (c =? 8287)
  || (c =? 12288) || (c =? 65279).

(** [\d] *)
Definition is_digit (c : N) : bool := (48 <=? c) && (c <=? 57).

Fixpoint take_while (p : N → bool) (s : jsstring) : jsstring :=
  match s with
  | c :: s' => if p c then c :: take_while p s' else []
  | [] => []
  end.

Fixpoint drop_while (p : N → bool) (s : jsstring) : jsstring :=
  match s with
  | c :: s' => if p c then drop_while p s' else s
  | [] => []
  end.

(** [String.prototype.trim] *)
Definition trim (s : jsstring) : jsstring :=
  rev (drop_while is_space (rev (drop_while is_space s))).

(** [s.startsWith(p)] *)
Fixpoint startsWith (p s : jsstring) : bool :=
  match p, s with
  | [], _ => true
  | a :: p', b :: s' => (a =? b) && startsWith p' s'
  | _ :: _, [] => false
  end.

(** [s.split("\n")] *)
Fixpoint split_lines (s : jsstring) : list jsstring :=
  match s with
  | [] => [[]]
  | c :: s' =>
      if c =? LF then [] :: split_lines s'
      else match split_lines s' with
           | l :: ls => (c :: l) :: ls
           | [] => [[c]]
           end
  end.

(** [s.indexOf(m)]: the first index at which [m] occurs, [-1] when none. *)
Fixpoint indexOf_from (i : Z) (m s : jsstring) : Z :=
  if startsWith m s then i
  else match s with
       | [] => (-1)%Z
       | _ :: s' => indexOf_from (i + 1)%Z m s'
       end.

Definition indexOf (m s : jsstring) : Z := indexOf_from 0%Z m s.

(** [s.substring(start)]: a negative start counts as 0, one past the end
    gives the empty string. *)
Definition substring (start : Z) (s : jsstring) : jsstring :=
  drop (Z.to_nat (Z.max 0 start)) s.

Module Parser.

(** *** The regular expressions of [parseSummary] *)

(** [/(\d+:\d+(?::\d+)?)/] anchored at the head of [s]: the text of the
    match. Each [\d+] is greedy and takes the whole run of digits; giving
    digits back never helps, since the character after a shorter run is a
    digit, not a colon, and the optional group may match nothing. *)
Definition timestamp_here (s : jsstring) : option jsstring :=
  let d1 := take_while is_digit s in
  match d1, drop_while is_digit s with
  | _ :: _, c :: r1 =>
      if c =? COLON then
        let d2 := take_while is_digit r1 in
        match d2, drop_while is_digit r1 with
        | [], _ => None
        | _ :: _, c' :: r2 =>
            if c' =? COLON then
              match take_while is_digit r2 with
              | [] => Some (d1 ++ COLON :: d2)
              | d3 => Some (d1 ++ COLON :: d2 ++ COLON :: d3)
              end
            else Some (d1 ++ COLON :: d2)
        | _ :: _, [] => Some (d1 ++ COLON :: d2)
        end
      else None
  | _, _ => None
  end.

(** [line.match(/(\d+:\d+(?::\d+)?)/)]: the leftmost match, [None] for
    [null]. Group 0 and group 1 are the same text. *)
Fixpoint timestampMatch (s : jsstring) : option jsstring :=
  match timestamp_here s with
  | Some m => Some m
  | None => match s with
            | [] => None
            | _ :: s' => timestampMatch s'
            end
  end.

(** [t.match(/^#{1,6}\s/)] is not null: one to six [#], then a whitespace
    character. *)
Definition heading_match (t : jsstring) : bool :=
  let n := length (take_while (N.eqb HASH) t) in
  (1 <=? n)%nat && (n <=? 6)%nat
  && match drop_while (N.eqb HASH) t with
     | c :: _ => is_space c
     | [] => false
     end.

(** [s.replace(/^[:\s-]+/, "")] *)
Definition strip_separators (s : jsstring) : jsstring :=
  drop_while (λ c, (c =? COLON) || is_space c || (c =? HYPHEN)) s.

(** *** The scan *)

Record SummaryPoint := mkPoint { timestamp : jsstring; point : jsstring }.

(** The loop-local variables of [parseSummary]. *)
Record Scan := mkScan {
  summaryPoints : list SummaryPoint;
  currentTimestamp : jsstring;
  currentPoint : jsstring;
  inCodeBlock : bool;
  emptyLineCount : nat
}.

Definition initial : Scan := mkScan [] [] [] false 0.

Definition set_point (st : Scan) (p : jsstring) : Scan :=
  mkScan (summaryPoints st) (currentTimestamp st) p
         (inCodeBlock st) (emptyLineCount st).

(** [summaryPoints.push({timestamp: currentTimestamp,
    point: currentPoint.trim()})] *)
Definition push_current (st : Scan) : Scan :=
  mkScan (summaryPoints st
            ++ [mkPoint (currentTimestamp st) (trim (currentPoint st))])
         (currentTimestamp st) (currentPoint st)
         (inCodeBlock st) (emptyLineCount st).

(** [if (currentPoint.trim().length > 0) summaryPoints.push(...)] *)
Definition push_if_content (st : Scan) : Scan :=
  match trim (currentPoint st) with
  | [] => st
  | _ :: _ => push_current st
  end.

(** One iteration of the [for] loop on [line = lines[i]], where [next] is
    [lines[i + 1]] when [i + 1 < lines.length]. The boolean tells whether
    the iteration ran the extra [i++]. *)
Definition iteration (st : Scan) (line : jsstring) (next : option jsstring)
  : Scan * bool :=
  if startsWith (js "```") (trim line) then
    (mkScan (summaryPoints st) (currentTimestamp st)
            (currentPoint st ++ line ++ [LF])
            (negb (inCodeBlock st)) (emptyLineCount st), false)
  else if inCodeBlock st then
    (set_point st (currentPoint st ++ line ++ [LF]), false)
  else match trim line with
  | [] =>
      let st1 := mkScan (summaryPoints st) (currentTimestamp st)
                        (currentPoint st ++ [LF])
                        false (S (emptyLineCount st)) in
      if (1 <? emptyLineCount st1)%nat then
        match trim (currentPoint st1) with
        | [] => (st1, false)
        | _ :: _ => (set_point (push_current st1) [], false)
        end
      else (st1, false)
  | _ :: _ =>
      let st0 := mkScan (summaryPoints st) (currentTimestamp st)
                        (currentPoint st) false 0 in
      match timestampMatch line with
      | Some m =>
          let st1 := push_if_content st0 in
          let contentAfterTimestamp :=
            substring (indexOf m line + Z.of_nat (length m))%Z line in
          let '(pointContent, skip) :=
            match trim contentAfterTimestamp with
            | _ :: _ => (trim (strip_separators contentAfterTimestamp), false)
            | [] =>
                match next with
                | Some l' =>
                    match trim l' with
                    | _ :: _ => (trim l', true)
                    | [] => ([], false)
                    end
                | None => ([], false)
                end
            end in
          (mkScan (summaryPoints st1) m (pointContent ++ [LF]) false 0, skip)
      | None =>
          if heading_match (trim line) then
            (set_point (push_if_content st0) (line ++ [LF]), false)
          else
            (set_point st0 (currentPoint st0 ++ line ++ [LF]), false)
      end
  end.

(** The [for] loop over the remaining lines. *)
Fixpoint scan (st : Scan) (lines : list jsstring) : Scan :=
  match lines with
  | [] => st
  | line :: rest =>
      match rest with
      | [] => fst (iteration st line None)
      | next :: rest' =>
          let r := iteration st line (Some next) in
          if snd r then scan (fst r) rest' else scan (fst r) rest
      end
  end.

(** [parseSummary]. The body of its [try] raises nothing on a string, so the
    [catch] branch is unreachable and is left out. *)
Definition parseSummary (summary : jsstring) : list SummaryPoint :=
  match trim summary with
  | [] => []
  | _ :: _ =>
      let st := push_if_content (scan initial (split_lines summary)) in
      match summaryPoints st with
      | [] => [mkPoint [] (trim summary)]
      | pts => pts
      end
  end.

End Parser.

(** ** The cache: shared data

    [created_at] and [accessed_at] hold [new Date().toISOString()]. For the
    years 0000 to 9999 this is a fixed-width text whose order as text (what
    SQLite's [ORDER BY] compares) and whose order after
    [new Date(..).getTime()] (what the JSON store compares) are both the
    order of the clock reading in milliseconds, so a stamp is modelled by
    that reading. *)

Module SummaryData.
Record t := mk {
  videoId : jsstring;
  videoUrl : jsstring;
  title : jsstring;
  summary : jsstring;
  style : jsstring
}.
End SummaryData.

Record SummaryRecord := mkRecord {
  video_id : jsstring;
  video_url : jsstring;
  title : jsstring;
  summary : jsstring;
  style : jsstring;
  created_at : Z;
  accessed_at : Z
}.

Global Instance SummaryRecord_eq_dec : EqDecision SummaryRecord.
Proof. solve_decision. Defined.

Definition MAX_SUMMARIES : nat := 100.

(** The cache key of a record. *)
Definition key_of (r : SummaryRecord) : jsstring * jsstring :=
  (video_id r, style r).

(** [record.video_id === videoId && record.style === style], and the
    [WHERE video_id = ? AND style = ?] of the SQL statements. *)
Definition has_key (videoId style' : jsstring) (r : SummaryRecord) : Prop :=
  video_id r = videoId ∧ style r = style'.

Global Instance has_key_dec v s r : Decision (has_key v s r).
Proof. unfold has_key. apply _. Defined.

Definition set_accessed_at (now : Z) (r : SummaryRecord) : SummaryRecord :=
  mkRecord (video_id r) (video_url r) (title r) (summary r) (style r)
           (created_at r) now.

(** The record that [saveSummary] builds from its argument. *)
Definition new_record (data : SummaryData.t) (created now : Z) : SummaryRecord :=
  mkRecord (SummaryData.videoId data) (SummaryData.videoUrl data)
           (SummaryData.title data) (SummaryData.summary data)
           (SummaryData.style data) created now.

(** A stable sort: [x] goes before the first element it is not greater than,
    so equal elements keep their order. This is [Array.prototype.sort] with
    a consistent comparator, and the order in which SQLite's sorter returns
    the rows of a table scan. *)
Section StableSort.
Context {A : Type} (le : A → A → bool).

Fixpoint insert_sorted (x : A) (l : list A) : list A :=
  match l with
  | [] => [x]
  | y :: l' => if le x y then x :: l else y :: insert_sorted x l'
  end.

Fixpoint stable_sort (l : list A) : list A :=
  match l with
  | [] => []
  | x :: l' => insert_sorted x (stable_sort l')
  end.
End StableSort.

(** ** Storage calls that can fail

    A storage call (an SQL statement, a file read or write) either completes
    or throws and changes nothing. Which calls of an operation fail is given
    from outside: [f k] says that the [k]-th storage call of the operation
    fails. *)

Inductive result (A : Type) : Type :=
| Ok (a : A)
| Throw.
Arguments Ok {A} a.
Arguments Throw {A}.

Definition faults := nat → bool.
Definition no_faults : faults := λ _, false.

Section Effects.
Context {S : Type}.

Definition M (A : Type) : Type := S → S * result A.

Definition ret {A} (a : A) : M A := λ s, (s, Ok a).

Definition bind {A B} (m : M A) (k : A → M B) : M B :=
  λ s, match m s with
       | (s', Ok a) => k a s'
       | (s', Throw) => (s', Throw)
       end.

(** [try { body } catch (error) { handler }] *)
Definition try_catch {A} (body handler : M A) : M A :=
  λ s, match body s with
       | (s', Throw) => handler s'
       | r => r
       end.

(** A storage call [q] that fails when [fail] is set. *)
Definition call {A} (fail : bool) (q : S → S * A) : M A :=
  λ s, if fail then (s, Throw) else let '(s', a) := q s in (s', Ok a).
End Effects.
Arguments M : clear implicits.

Notation "'do' x <- m ; k" := (bind m (λ x, k))
  (at level 10, x name, m at level 100, k at level 200).
Notation "m ;; k" := (bind m (λ _, k))
  (at level 100, k at level 200, right associativity).

(** ** The SQLite cache (server/db/sqlite.ts) *)

Module Sqlite.

(** A row of the table [summaries]: the key [id] and the seven columns of
    [SummaryRecord]. *)
Record Row := mkRow { id : Z; cols : SummaryRecord }.

(** The database file and the error console. [summaries] is the table in
    rowid order; [sqlite_sequence] is the largest rowid the table ever had,
    which [AUTOINCREMENT] keeps. *)
Record Db := mkDb {
  summaries : list Row;
  sqlite_sequence : Z;
  console : list jsstring
}.

Definition with_rows (rows : list Row) (db : Db) : Db :=
  mkDb rows (sqlite_sequence db) (console db).

(** [console.error(msg, error)] *)
Definition console_error (msg : jsstring) : M Db unit :=
  λ db, (mkDb (summaries db) (sqlite_sequence db) (console db ++ [msg]), Ok tt).

(** [WHERE video_id = ? AND style = ?] *)
Definition matching (v s : jsstring) (rows : list Row) : list Row :=
  filter (λ r, has_key v s (cols r)) rows.

(** [ORDER BY accessed_at ASC] *)
Definition order_by_accessed_at_asc (rows : list Row) : list Row :=
  stable_sort (λ a b, (accessed_at (cols a) <=? accessed_at (cols b))%Z) rows.

(** [ORDER BY accessed_at DESC] *)
Definition order_by_accessed_at_desc (rows : list Row) : list Row :=
  stable_sort (λ a b, (accessed_at (cols b) <=? accessed_at (cols a))%Z) rows.

(** [LIMIT ?]: a negative bound means no bound. *)
Definition limit {A} (n : Z) (l : list A) : list A :=
  if (n <? 0)%Z then l else take (Z.to_nat n) l.

(** [SELECT COUNT( * ) as count FROM summaries WHERE video_id = ? AND style = ?] *)
Definition select_count_where (v s : jsstring) (db : Db) : Db * nat :=
  (db, length (matching v s (summaries db))).

(** [SELECT * FROM summaries WHERE video_id = ? AND style = ?], first row *)
Definition select_where (v s : jsstring) (db : Db) : Db * option Row :=
  (db, head (matching v s (summaries db))).

(** [UPDATE summaries SET accessed_at = ? WHERE video_id = ? AND style = ?] *)
Definition update_accessed_at (now : Z) (v s : jsstring) (db : Db) : Db * unit :=
  (with_rows
     ((λ r, if decide (has_key v s (cols r))
            then mkRow (id r) (set_accessed_at now (cols r)) else r)
        <$> summaries db) db, tt).

(** [INSERT OR REPLACE INTO summaries (...) VALUES (?, ?, ?, ?, ?,
    COALESCE((SELECT created_at FROM summaries WHERE video_id = ? AND
    style = ?), ?), ?)]: the rows in conflict on [UNIQUE(video_id, style)]
    are deleted and the new row gets the next rowid. *)
Definition insert_or_replace (now : Z) (data : SummaryData.t) (db : Db)
  : Db * unit :=
  let v := SummaryData.videoId data in
  let s := SummaryData.style data in
  let created :=
    match head (matching v s (summaries db)) with
    | Some r => created_at (cols r)
    | None => now
    end in
  let rowid := (sqlite_sequence db + 1)%Z in
  (mkDb (filter (λ r, ¬ has_key v s (cols r)) (summaries db)
           ++ [mkRow rowid (new_record data created now)])
        rowid (console db), tt).

(** [SELECT COUNT( * ) as count FROM summaries] *)
Definition select_count (db : Db) : Db * nat :=
  (db, length (summaries db)).

(** [DELETE FROM summaries WHERE id IN (SELECT id FROM summaries
    ORDER BY accessed_at ASC LIMIT ?)] *)
Definition delete_oldest (n : Z) (db : Db) : Db * unit :=
  let ids := id <$> limit n (order_by_accessed_at_asc (summaries db)) in
  (with_rows (filter (λ r, id r ∉ ids) (summaries db)) db, tt).

(** [SELECT * FROM summaries ORDER BY accessed_at DESC LIMIT ?] *)
Definition select_recent (n : Z) (db : Db) : Db * list Row :=
  (db, limit n (order_by_accessed_at_desc (summaries db))).

Definition checkSummaryExists (f : faults) (videoId style : jsstring)
  : M Db bool :=
  do count <- call (f 0%nat) (select_count_where videoId style);
  ret (0 <? count)%nat.

Definition getCachedSummary (f : faults) (now : Z) (videoId style : jsstring)
  : M Db (option Row) :=
  do record <- call (f 0%nat) (select_where videoId style);
  match record with
  | Some _ => call (f 1%nat) (update_accessed_at now videoId style)
  | None => ret tt
  end;;
  ret record.

Definition save_error : jsstring := js "Error saving summary to SQLite database:".

Definition saveSummary (f : faults) (now : Z) (data : SummaryData.t)
  : M Db unit :=
  try_catch
    (call (f 0%nat) (insert_or_replace now data);;
     do count <- call (f 1%nat) select_count;
     if (MAX_SUMMARIES <? count)%nat
     then call (f 2%nat)
            (delete_oldest (Z.of_nat count - Z.of_nat MAX_SUMMARIES))
     else ret tt)
    (console_error save_error).

Definition getRecentSummaries (f : faults) (limit' : Z) : M Db (list Row) :=
  call (f 0%nat) (select_recent limit').

(** The database after [initializeDatabase] on a new file. *)
Definition empty : Db := mkDb [] 0 [].

End Sqlite.

(** ** The JSON-file cache (the module that keeps [summaries.json]) *)

Module JsonFile.

(** The file [summaries.json] ([None] while it does not exist; its text is
    modelled by the [Database] it parses to) and the error console. *)
Record Fs := mkFs {
  file : option (list SummaryRecord);
  console : list jsstring
}.

Definition console_error (msg : jsstring) : M Fs unit :=
  λ fs, (mkFs (file fs) (console fs ++ [msg]), Ok tt).

Definition read_error : jsstring := js "Error reading database file:".
Definition write_error : jsstring := js "Error writing to database file:".

(** [fs.existsSync(dbPath)] *)
Definition existsSync : M Fs bool :=
  λ fs, (fs, Ok (bool_decide (is_Some (file fs)))).

(** [JSON.parse(fs.readFileSync(dbPath, "utf8")) as Database] *)
Definition readFileSync (fail : bool) : M Fs (list SummaryRecord) :=
  call fail (λ fs, (fs, default [] (file fs))).

(** [fs.writeFileSync(dbPath, JSON.stringify(data, null, 2), "utf8")] *)
Definition writeFileSync (fail : bool) (data : list SummaryRecord) : M Fs unit :=
  call fail (λ fs, (mkFs (Some data) (console fs), tt)).

Definition readDatabase (fail : bool) : M Fs (list SummaryRecord) :=
  do present <- existsSync;
  if negb present then ret []
  else try_catch (readFileSync fail) (console_error read_error;; ret []).

Definition writeDatabase (fail : bool) (data : list SummaryRecord) : M Fs unit :=
  try_catch (writeFileSync fail data) (console_error write_error).

(** [a.sort((a, b) => new Date(a.accessed_at).getTime() -
    new Date(b.accessed_at).getTime())]: the comparator is at most 0 when
    [a] is not later than [b]. *)
Definition sort_oldest_first (l : list SummaryRecord) : list SummaryRecord :=
  stable_sort (λ a b, (accessed_at a - accessed_at b <=? 0)%Z) l.

(** [a.sort((a, b) => new Date(b.accessed_at).getTime() -
    new Date(a.accessed_at).getTime())] *)
Definition sort_newest_first (l : list SummaryRecord) : list SummaryRecord :=
  stable_sort (λ a b, (accessed_at b - accessed_at a <=? 0)%Z) l.

(** [a.slice(0, end)]: a negative [end] counts from the end of the array. *)
Definition slice_to {A} (end' : Z) (l : list A) : list A :=
  if (end' <? 0)%Z then take (Z.to_nat (Z.max 0 (Z.of_nat (length l) + end'))) l
  else take (Z.to_nat end') l.

Definition checkSummaryExists (f : faults) (videoId style : jsstring)
  : M Fs bool :=
  do db <- readDatabase (f 0%nat);
  ret (bool_decide (Exists (has_key videoId style) db)).

(** [record] is an element of [db.summaries], so the assignment to
    [record.accessed_at] changes the array that is written back and the
    object that is returned. *)
Definition getCachedSummary (f : faults) (now : Z) (videoId style : jsstring)
  : M Fs (option SummaryRecord) :=
  do db <- readDatabase (f 0%nat);
  match list_find (has_key videoId style) db with
  | Some (i, record) =>
      let record' := set_accessed_at now record in
      writeDatabase (f 1%nat) (<[i := record']> db);;
      ret (Some record')
  | None => ret None
  end.

(** The array [db.summaries] of [saveSummary] just after the new record is
    stored in it or pushed onto it. *)
Definition store_record (now : Z) (data : SummaryData.t)
    (db : list SummaryRecord) : list SummaryRecord :=
  match list_find (has_key (SummaryData.videoId data)
                            (SummaryData.style data)) db with
  | Some (existingIndex, existing) =>
      <[existingIndex := new_record data (created_at existing) now]> db
  | None => db ++ [new_record data now now]
  end.

(** The trimming of [saveSummary], which runs in the branch that pushed. *)
Definition enforce_limit (db : list SummaryRecord) : list SummaryRecord :=
  if (MAX_SUMMARIES <? length db)%nat
  then drop (length db - MAX_SUMMARIES) (sort_oldest_first db)
  else db.

Definition saveSummary (f : faults) (now : Z) (data : SummaryData.t)
  : M Fs unit :=
  do db <- readDatabase (f 0%nat);
  let stored := store_record now data db in
  writeDatabase (f 1%nat)
    (match list_find
             (has_key (SummaryData.videoId data) (SummaryData.style data)) db
     with
     | Some _ => stored
     | None => enforce_limit stored
     end).

Definition getRecentSummaries (f : faults) (limit : Z)
  : M Fs (list SummaryRecord) :=
  do db <- readDatabase (f 0%nat);
  ret (slice_to limit (sort_newest_first db)).

(** The store after [initializeDatabase] with no file yet. *)
Definition empty : Fs := mkFs (Some []) [].

End JsonFile.

(** ** The cache as one interface with two implementations *)

Inductive op :=
| CheckSummaryExists (videoId style : jsstring)
| GetCachedSummary (videoId style : jsstring)
| SaveSummary (data : SummaryData.t)
| GetRecentSummaries (limit : Z).

Inductive reply :=
| RBool (b : bool)
| RRecord (r : option SummaryRecord)
| RUnit
| RList (l : list SummaryRecord)
| Raised.

Definition reply_of {S A} (f : A → reply) (r : S * result A) : S * reply :=
  match r with
  | (s, Ok a) => (s, f a)
  | (s, Throw) => (s, Raised)
  end.

(** A backend: its store after initialisation, the records it holds, and
    one call of the cache at clock reading [now]. *)
Class Backend (S : Type) := {
  empty_store : S;
  live : S → list SummaryRecord;
  exec : faults → Z → op → S → S * reply
}.

Global Instance sqlite_backend : Backend Sqlite.Db := {
  empty_store := Sqlite.empty;
  live db := Sqlite.cols <$> Sqlite.summaries db;
  exec f now o db :=
    match o with
    | CheckSummaryExists v s => reply_of RBool (Sqlite.checkSummaryExists f v s db)
    | GetCachedSummary v s =>
        reply_of (λ r, RRecord (Sqlite.cols <$> r))
                 (Sqlite.getCachedSummary f now v s db)
    | SaveSummary data => reply_of (λ _, RUnit) (Sqlite.saveSummary f now data db)
    | GetRecentSummaries n =>
        reply_of (λ l, RList (Sqlite.cols <$> l))
                 (Sqlite.getRecentSummaries f n db)
    end
}.

Global Instance json_backend : Backend JsonFile.Fs := {
  empty_store := JsonFile.empty;
  live fs := default [] (JsonFile.file fs);
  exec f now o fs :=
    match o with
    | CheckSummaryExists v s => reply_of RBool (JsonFile.checkSummaryExists f v s fs)
    | GetCachedSummary v s => reply_of RRecord (JsonFile.getCachedSummary f now v s fs)
    | SaveSummary data => reply_of (λ _, RUnit) (JsonFile.saveSummary f now data fs)
    | GetRecentSummaries n => reply_of RList (JsonFile.getRecentSummaries f n fs)
    end
}.

(** A run of calls, each with the clock reading it sees; no storage call
    fails. *)
Fixpoint run {S} `{Backend S} (trace : list (Z * op)) (s : S) : S * list reply :=
  match trace with
  | [] => (s, [])
  | (now, o) :: trace' =>
      let '(s1, r) := exec no_faults now o s in
      let '(s2, rs) := run trace' s1 in
      (s2, r :: rs)
  end.

(** What a call of the SQLite cache returns to its caller. The rows of
    [SELECT *] have the column [id] besides the seven fields of a record;
    [sqlite_backend] above leaves it out, [sqlite_exec] keeps it. *)
Inductive sqlite_result :=
| SBool (b : bool)
| SRow (row : option Sqlite.Row)
| SUnit
| SRows (rows : list Sqlite.Row)
| SRaised.

Definition sqlite_result_of {A} (f : A → sqlite_result)
    (r : Sqlite.Db * result A) : Sqlite.Db * sqlite_result :=
  match r with
  | (db, Ok a) => (db, f a)
  | (db, Throw) => (db, SRaised)
  end.

Definition sqlite_exec (f : faults) (now : Z) (o : op) (db : Sqlite.Db)
  : Sqlite.Db * sqlite_result :=
  match o with
  | CheckSummaryExists v s =>
      sqlite_result_of SBool (Sqlite.checkSummaryExists f v s db)
  | GetCachedSummary v s =>
      sqlite_result_of SRow (Sqlite.getCachedSummary f now v s db)
  | SaveSummary data =>
      sqlite_result_of (λ _, SUnit) (Sqlite.saveSummary f now data db)
  | GetRecentSummaries n =>
      sqlite_result_of SRows (Sqlite.getRecentSummaries f n db)
  end.

(** ** More of the JSON-file cache *)

Module JsonSetup.
Import JsonFile.

(** [initializeDatabase]: the file is written only when it does not exist.
    ([console.log] writes to the standard output, which is not modelled.) *)
Definition initializeDatabase (fail : bool) : M Fs unit :=
  do present <- existsSync;
  if negb present then writeDatabase fail [] else ret tt.

End JsonSetup.

(** ** The server (server/index.ts)

    The server uses the SQLite cache. What it gets from outside (the title
    of the video, the transcript and the text the language model
    generates) is given to the handlers as arguments. *)

Module Server.
Import Parser.

(** [a.join(sep)] *)
Fixpoint join (sep : jsstring) (a : list jsstring) : jsstring :=
  match a with
  | [] => []
  | [x] => x
  | x :: a' => x ++ sep ++ join sep a'
  end.

(** Line terminators of ECMAScript, which [.] does not match. *)
Definition is_line_terminator (c : N) : bool :=
  (c =? 10) || (c =? 13) || (c =? 8232) || (c =? 8233).

(** [\w] *)
Definition is_word (c : N) : bool :=
  ((48 <=? c) && (c <=? 57)) || ((65 <=? c) && (c <=? 90))
  || ((97 <=? c) && (c <=? 122)) || (c =? 95).

(** What is left of [s] after the literal [p], when [s] starts with it. *)
Fixpoint after_literal (p s : jsstring) : option jsstring :=
  match p, s with
  | [], _ => Some s
  | a :: p', b :: s' => if a =? b then after_literal p' s' else None
  | _ :: _, [] => None
  end.

(** [youtu.be\/], where [.] is any code unit but a line terminator *)
Definition after_youtu_be (s : jsstring) : option jsstring :=
  match after_literal (js "youtu") s with
  | Some (c :: r) =>
      if is_line_terminator c then None else after_literal (js "be/") r
  | _ => None
  end.

(** [u\/\w+\/]: the run of word characters is followed by the slash, since a
    shorter run is followed by a word character. *)
Definition after_u_word (s : jsstring) : option jsstring :=
  match after_literal (js "u/") s with
  | Some r =>
      match take_while is_word r, drop_while is_word r with
      | _ :: _, c :: r' => if c =? 47 then Some r' else None
      | _, _ => None
      end
  | None => None
  end.

(** The first of two results that is there. *)
Definition or_else {A} (a b : option A) : option A :=
  match a with
  | Some _ => a
  | None => b
  end.

(** [(youtu.be\/|v\/|e\/|u\/\w+\/|embed\/|v=)] at the head of [s]: what is
    left after the first alternative that matches. *)
Definition marker_here (s : jsstring) : option jsstring :=
  or_else (after_youtu_be s)
    (or_else (after_literal (js "v/") s)
       (or_else (after_literal (js "e/") s)
          (or_else (after_u_word s)
             (or_else (after_literal (js "embed/") s)
                (after_literal (js "v=") s))))).

(** [^.*(youtu.be\/|...|v=)]: the greedy [.*] gives the match that starts
    latest, among the positions that no line terminator comes before. What
    follows the group always matches, so this first match stands. *)
Fixpoint marker_last (s : jsstring) : option jsstring :=
  match s with
  | [] => None
  | c :: s' =>
      or_else (if is_line_terminator c then None else marker_last s')
              (marker_here s)
  end.

(** [extractVideoId]: group 2 is the longest run without [#], [&], [?]. *)
Definition extractVideoId (url : jsstring) : option jsstring :=
  match marker_last url with
  | Some r =>
      let id := take_while (λ c, negb ((c =? 35) || (c =? 38) || (c =? 63))) r in
      if (length id =? 11)%nat then Some id else None
  | None => None
  end.

(** [createSummaryText] *)
Definition createSummaryText (summaryPoints : list SummaryPoint) : jsstring :=
  join [LF; LF]
    ((λ p, match timestamp p with
           | [] => point p
           | _ :: _ => js "[" ++ timestamp p ++ js "] " ++ point p
           end) <$> summaryPoints).

(** The body of a request to [/api/summarize]; [format] only shapes the
    prompt. *)
Module Body.
Record t := mk {
  videoUrl : jsstring;
  style : option jsstring
}.
End Body.

(** An element of the reply of [/api/summaries/recent]. *)
Module RecentItem.
Record t := mk {
  videoId : jsstring;
  videoUrl : jsstring;
  title : jsstring;
  summary : list SummaryPoint;
  style : jsstring;
  createdAt : Z
}.
End RecentItem.

(** What a handler sends: [res.json(...)] of a summary ([cached] is set on a
    summary from the cache) or of the recent summaries, or an error status
    (the message of the error is not modelled). *)
Inductive Response :=
| SummaryReply (title : jsstring) (summary : list SummaryPoint)
               (style : jsstring) (cached : bool)
| RecentReply (summaries : list RecentItem.t)
| Failure (status : nat).

(** What happens outside when a summary is generated: no transcript, a
    failure ([fetchTranscript] or the model throws), or the generated text. *)
Inductive generation :=
| NoTranscript
| GenerationFails
| Generated (summary : jsstring).

Definition throw {A} : M Sqlite.Db A := λ db, (db, Throw).

Definition recent_error : jsstring := js "Error fetching recent summaries:".
Definition summarize_error : jsstring := js "Error:".

(** [app.get("/api/summaries/recent", ...)] *)
Definition recent (f : faults) : M Sqlite.Db Response :=
  try_catch
    (do recentSummaries <- Sqlite.getRecentSummaries f 100;
     ret (RecentReply
            ((λ row, let record := Sqlite.cols row in
                     RecentItem.mk (video_id record) (video_url record)
                                   (title record)
                                   (parseSummary (summary record))
                                   (style record) (created_at record))
               <$> recentSummaries)))
    (Sqlite.console_error recent_error;; ret (Failure 500)).

(** [app.post("/api/summarize", ...)] at clock reading [now]: the calls of
    [checkSummaryExists], [getCachedSummary] and [saveSummary] take their
    failures from [f] at 0, at 1 and 2, and from 3 on. *)
Definition summarize (f : faults) (now : Z) (videoTitle : jsstring)
    (outside : generation) (body : Body.t) : M Sqlite.Db Response :=
  try_catch
    (let style := default (js "detailed") (Body.style body) in
     match Body.videoUrl body with
     | [] => ret (Failure 400)
     | _ :: _ =>
         match extractVideoId (Body.videoUrl body) with
         | None => ret (Failure 400)
         | Some videoId =>
             do cachedSummary <-
               (do found <- Sqlite.checkSummaryExists f videoId style;
                if found
                then Sqlite.getCachedSummary (λ k, f (1 + k)%nat) now
                                             videoId style
                else ret None);
             match cachedSummary with
             | Some row =>
                 ret (SummaryReply
                        (title (Sqlite.cols row))
                        (parseSummary (summary (Sqlite.cols row)))
                        style true)
             | None =>
                 match outside with
                 | NoTranscript => ret (Failure 404)
                 | GenerationFails => throw
                 | Generated summary =>
                     Sqlite.saveSummary (λ k, f (3 + k)%nat) now
                       (SummaryData.mk videoId (Body.videoUrl body)
                                       videoTitle summary style);;
                     ret (SummaryReply videoTitle (parseSummary summary)
                                       style false)
                 end
             end
         end
     end)
    (Sqlite.console_error summarize_error;; ret (Failure 500)).

End Server.

(** ** The migration (server/migrateToSQLite.ts) *)

Module Migrate.

(** The JSON file, its backup copy and the SQLite database. *)
Record World := mkWorld {
  json_file : option (list SummaryRecord);
  backup_file : option (list SummaryRecord);
  db : Sqlite.Db
}.

(** How the script ends: it returns, or [process.exit(code)]. *)
Inductive outcome :=
| Completed
| Exited (code : nat).

(** A call of the SQLite cache, in the world of the script. *)
Definition on_db {A} (m : M Sqlite.Db A) : M World A :=
  λ w, let '(db', r) := m (db w) in
       (mkWorld (json_file w) (backup_file w) db', r).

(** [JSON.parse(fs.readFileSync(jsonDbPath, 'utf8'))] *)
Definition readFileSync (fail : bool) : M World (list SummaryRecord) :=
  call fail (λ w, (w, default [] (json_file w))).

(** [fs.copyFileSync(jsonDbPath, backupPath)] *)
Definition copyFileSync (fail : bool) : M World unit :=
  call fail (λ w, (mkWorld (json_file w) (json_file w) (db w), tt)).

Definition migration_error : jsstring := js "Error during migration:".

(** [for (const record of database.summaries) await saveSummary({...})]:
    the [i]-th call reads the clock at [clock i] and takes its failures from
    [fsave i]. *)
Fixpoint migrate_records (fsave : nat → faults) (clock : nat → Z) (i : nat)
    (records : list SummaryRecord) : M Sqlite.Db unit :=
  match records with
  | [] => ret tt
  | record :: rest =>
      Sqlite.saveSummary (fsave i) (clock i)
        (SummaryData.mk (video_id record) (video_url record) (title record)
                        (summary record) (style record));;
      migrate_records fsave clock (S i) rest
  end.

(** [migrateData]: [f 0] fails the read of the JSON file, [f 1] the copy to
    the backup. ([initializeDatabase] creates the table, which the model of
    the database always has.) *)
Definition migrateData (f : faults) (fsave : nat → faults) (clock : nat → Z)
  : M World outcome :=
  λ w,
    match json_file w with
    | None => (w, Ok Completed)
    | Some _ =>
        try_catch
          (do summaries <- readFileSync (f 0%nat);
           match summaries with
           | [] => ret Completed
           | _ :: _ =>
               on_db (migrate_records fsave clock 0 summaries);;
               copyFileSync (f 1%nat);;
               ret Completed
           end)
          (on_db (Sqlite.console_error migration_error);; ret (Exited 1))
          w
    end.

End Migrate.

(** * Notions used in the statements *)

Definition nl : jsstring := [LF].

Module ParserSpec.
Import Parser.

(** Empty or made of whitespace only. *)
Definition blank (s : jsstring) : Prop := Forall (λ c, is_space c = true) s.

(** A heading line scanned outside a fenced block closes the accumulated
    point, starts a point with the line and keeps the timestamp. *)
Definition heading_starts_point (st : Scan) (line : jsstring) : Prop :=
  scan st [line] =
  mkScan (summaryPoints (push_if_content st)) (currentTimestamp st)
         (line ++ [LF]) false 0.

End ParserSpec.

Module SqliteSpec.
Import Sqlite.

(** What the table's constraints and a clock that does not run backwards
    give: distinct rowids below the sequence, distinct keys, no stamp later
    than the clock reading [t]. *)
Record wf (t : Z) (db : Db) : Prop := mkWf {
  ids_nodup : NoDup (id <$> summaries db);
  ids_bound : Forall (λ r, (id r ≤ sqlite_sequence db)%Z) (summaries db);
  keys_nodup : NoDup (key_of ∘ cols <$> summaries db);
  stamps_bound : Forall (λ r, (accessed_at (cols r) ≤ t)%Z) (summaries db)
}.

(** ... and at most [MAX_SUMMARIES] rows. *)
Definition consistent (t : Z) (db : Db) : Prop :=
  wf t db ∧ (length (summaries db) ≤ MAX_SUMMARIES)%nat.

(** The table right after the [INSERT OR REPLACE] of [saveSummary]. *)
Definition written (now : Z) (data : SummaryData.t) (db : Db) : Db :=
  fst (insert_or_replace now data db).

(** The database after [saveSummary] when no statement fails. *)
Definition saved (now : Z) (data : SummaryData.t) (db : Db) : Db :=
  fst (saveSummary no_faults now data db).

End SqliteSpec.

Module JsonSpec.
Import JsonFile.

(** The records of the store. *)
Definition records (fs : Fs) : list SummaryRecord := default [] (file fs).

(** Distinct keys and no stamp later than the clock reading [t]. *)
Definition wf (t : Z) (l : list SummaryRecord) : Prop :=
  NoDup (key_of <$> l) ∧ Forall (λ r, (accessed_at r ≤ t)%Z) l.

(** ... and at most [MAX_SUMMARIES] records. *)
Definition consistent (t : Z) (fs : Fs) : Prop :=
  wf t (records fs) ∧ (length (records fs) ≤ MAX_SUMMARIES)%nat.

(** The array that [saveSummary] writes back. *)
Definition saved_records (now : Z) (data : SummaryData.t)
    (l : list SummaryRecord) : list SummaryRecord :=
  match list_find (has_key (SummaryData.videoId data)
                           (SummaryData.style data)) l with
  | Some _ => store_record now data l
  | None => enforce_limit (store_record now data l)
  end.

End JsonSpec.

(** [kept] is [written] without its least recently accessed records. *)
Definition oldest_evicted (written kept : list SummaryRecord) : Prop :=
  ∃ evicted,
    written ≡ₚ evicted ++ kept
    ∧ ∀ e r, e ∈ evicted → r ∈ kept → (accessed_at e ≤ accessed_at r)%Z.

(** What [saveSummary] at clock reading [now] leaves of the records
    [written] that its write produced. *)
Definition keeps_most_recent (now : Z) (data : SummaryData.t)
    (written kept : list SummaryRecord) : Prop :=
  (length kept ≤ MAX_SUMMARIES)%nat
  ∧ length kept = (length written `min` MAX_SUMMARIES)%nat
  ∧ oldest_evicted written kept
  ∧ ∃ created,
      new_record data created now ∈ written
      ∧ new_record data created now ∈ kept.

(** The created stamp that [saveSummary] gives the record it writes. *)
Definition created_for (data : SummaryData.t) (now : Z)
    (l : list SummaryRecord) : Z :=
  match head (filter (has_key (SummaryData.videoId data)
                              (SummaryData.style data)) l) with
  | Some e => created_at e
  | None => now
  end.

(** After two calls of [saveSummary] with the same key there is one record
    under the key; it was created when the record of the first call was and
    holds the text, the title and the stamp of the second call. *)
Definition upsert_result {S} `{Backend S} (trace : list (Z * op))
    (t1 t2 : Z) (d1 d2 : SummaryData.t) : Prop :=
  let s0 := fst (run trace empty_store) in
  let s1 := fst (exec no_faults t1 (SaveSummary d1) s0) in
  let s2 := fst (exec no_faults t2 (SaveSummary d2) s1) in
  let k := has_key (SummaryData.videoId d1) (SummaryData.style d1) in
  ∃ r1 r2,
    filter k (live s1) = [r1] ∧ filter k (live s2) = [r2]
    ∧ created_at r2 = created_at r1
    ∧ summary r2 = SummaryData.summary d2
    ∧ title r2 = SummaryData.title d2
    ∧ accessed_at r2 = t2.

(** What [getCachedSummary] at clock reading [now] does to a store: no
    record is added or removed; a record either stays as it is or has the
    key asked for and gets the stamp [now], its other fields kept; on a hit
    the record found is stamped in the store and returned (the copy
    returned agrees with it in every field but [accessed_at]); on a miss
    the store stays as it is. [t0] is a clock reading before the call. *)
Definition get_effect {S} `{Backend S} (t0 now : Z) (v s : jsstring) (st : S)
  : Prop :=
  let st' := fst (exec no_faults now (GetCachedSummary v s) st) in
  let rep := snd (exec no_faults now (GetCachedSummary v s) st) in
  length (live st') = length (live st)
  ∧ (∀ i r, live st !! i = Some r →
       live st' !! i = Some r
       ∨ (has_key v s r ∧ live st' !! i = Some (set_accessed_at now r)))
  ∧ (Exists (has_key v s) (live st) →
       ∃ i r ret,
         live st !! i = Some r ∧ has_key v s r
         ∧ rep = RRecord (Some ret)
         ∧ set_accessed_at now ret = set_accessed_at now r
         ∧ live st' !! i = Some (set_accessed_at now r)
         ∧ (t0 ≤ accessed_at (set_accessed_at now r))%Z)
  ∧ (¬ Exists (has_key v s) (live st) → rep = RRecord None ∧ st' = st).

(** [checkSummaryExists] answers whether a record has the key and leaves the
    store as it is; when its storage call fails the records still stay. *)
Definition exists_reads_only {S} `{Backend S} (now : Z) (v s : jsstring)
    (st : S) : Prop :=
  exec no_faults now (CheckSummaryExists v s) st
  = (st, RBool (bool_decide (Exists (has_key v s) (live st))))
  ∧ ∀ f, live (fst (exec f now (CheckSummaryExists v s) st)) = live st.

(** The call is one of [checkSummaryExists]. *)
Definition is_exists (o : op) : bool :=
  match o with
  | CheckSummaryExists _ _ => true
  | _ => false
  end.

(** A run without its calls of [checkSummaryExists]. *)
Definition others (trace : list (Z * op)) : list (Z * op) :=
  filter (λ c, is_exists (snd c) = false) trace.

(** The replies of a run to the calls that are not [checkSummaryExists]. *)
Fixpoint replies_to_others (trace : list (Z * op)) (rs : list reply)
  : list reply :=
  match trace, rs with
  | (_, o) :: trace', r :: rs' =>
      if is_exists o then replies_to_others trace' rs'
      else r :: replies_to_others trace' rs'
  | _, _ => []
  end.

(** Leaving the calls of [checkSummaryExists] out of a run changes neither
    the store it ends in nor any other reply. *)
Definition exists_never_matters {S} `{Backend S} (trace : list (Z * op))
    (st : S) : Prop :=
  fst (run (others trace) st) = fst (run trace st)
  ∧ snd (run (others trace) st) = replies_to_others trace (snd (run trace st)).

(** The database [db] with one more line on the error console. *)
Definition logged (msg : jsstring) (db : Sqlite.Db) : Sqlite.Db :=
  Sqlite.mkDb (Sqlite.summaries db) (Sqlite.sqlite_sequence db)
              (Sqlite.console db ++ [msg]).

(** The third statement of [saveSummary] fails: the [DELETE]. *)
Definition delete_fails : faults := λ k, Nat.eqb k 2.

(** The result of the SQLite store and the reply of the JSON store to the
    call [o] at clock reading [now] agree, where [before] are the records
    that the SQLite store held before the call. The booleans are equal. A
    row of the SQLite store has the column [id], which a record of the JSON
    store has not; its other columns are those of the JSON record, except
    on a hit of [getCachedSummary]: there the row of the SQLite store is
    the one stored under the key before the call, with the stamp it had,
    which is earlier than [now], and the record of the JSON store is this
    one with the stamp [now]. *)
Definition results_agree (now : Z) (o : op) (before : list SummaryRecord)
    (r_sqlite : sqlite_result) (r_json : reply) : Prop :=
  match r_sqlite, r_json with
  | SBool a, RBool b => a = b
  | SRow None, RRecord None => True
  | SRow (Some row), RRecord (Some r) =>
      match o with
      | GetCachedSummary v s =>
          Sqlite.cols row ∈ before ∧ has_key v s (Sqlite.cols row)
          ∧ (accessed_at (Sqlite.cols row) < now)%Z
          ∧ r = set_accessed_at now (Sqlite.cols row)
      | _ => False
      end
  | SUnit, RUnit => True
  | SRows rows, RList l => Sqlite.cols <$> rows = l
  | _, _ => False
  end.

(** Along the run of [trace] from the stores [db] and [fs], the results of
    every call agree and after every call the two stores hold the same
    records. *)
Fixpoint agree_along (trace : list (Z * op)) (db : Sqlite.Db)
    (fs : JsonFile.Fs) : Prop :=
  match trace with
  | [] => True
  | (now, o) :: trace' =>
      let db' := fst (sqlite_exec no_faults now o db) in
      let fs' := fst (exec no_faults now o fs) in
      results_agree now o (live db) (snd (sqlite_exec no_faults now o db))
                    (snd (exec no_faults now o fs))
      ∧ live db' ≡ₚ live fs'
      ∧ agree_along trace' db' fs'
  end.

(** The code units of surrogates. *)
Definition is_high_surrogate (c : N) : bool := (55296 <=? c) && (c <=? 56319).
Definition is_low_surrogate (c : N) : bool := (56320 <=? c) && (c <=? 57343).

(** A string in which no surrogate stands alone: every high surrogate is
    followed by a low one and every low one follows a high one. These are
    the strings that SQLite, which keeps text as UTF-8, gives back as they
    were stored. *)
Fixpoint well_formed_utf16 (s : jsstring) : bool :=
  match s with
  | [] => true
  | c :: s' =>
      if is_high_surrogate c then
        match s' with
        | d :: s'' => is_low_surrogate d && well_formed_utf16 s''
        | [] => false
        end
      else negb (is_low_surrogate c) && well_formed_utf16 s'
  end.

(** Every string given to the call is well formed. *)
Definition well_formed_call (o : op) : Prop :=
  match o with
  | CheckSummaryExists v s | GetCachedSummary v s =>
      well_formed_utf16 v = true ∧ well_formed_utf16 s = true
  | SaveSummary data =>
      well_formed_utf16 (SummaryData.videoId data) = true
      ∧ well_formed_utf16 (SummaryData.videoUrl data) = true
      ∧ well_formed_utf16 (SummaryData.title data) = true
      ∧ well_formed_utf16 (SummaryData.summary data) = true
      ∧ well_formed_utf16 (SummaryData.style data) = true
  | GetRecentSummaries _ => True
  end.

Global Instance well_formed_call_dec o : Decision (well_formed_call o).
Proof. destruct o; simpl; apply _. Defined.

(** The limit of a call of [getRecentSummaries] is not negative. *)
Definition limit_nonneg (o : op) : Prop :=
  match o with
  | GetRecentSummaries n => (0 ≤ n)%Z
  | _ => True
  end.

Global Instance limit_nonneg_dec o : Decision (limit_nonneg o).
Proof. destruct o; simpl; apply _. Defined.

(** The stamping of [getCachedSummary], on records. *)
Definition stamp_key (now : Z) (v s : jsstring) (r : SummaryRecord)
  : SummaryRecord :=
  if decide (has_key v s r) then set_accessed_at now r else r.

(** What relates the two stores along a run: each is consistent, they hold
    the same records, and no two records have the same stamp. *)
Definition related (t : Z) (db : Sqlite.Db) (fs : JsonFile.Fs) : Prop :=
  SqliteSpec.consistent t db ∧ JsonSpec.consistent t fs
  ∧ live db ≡ₚ live fs ∧ NoDup (accessed_at <$> live fs).

(** Sample arguments of [saveSummary]: the [n]-th video, and the same video
    summarised again. *)
Definition sample (n : nat) : SummaryData.t :=
  SummaryData.mk (js "video" ++ [N.of_nat n]) (js "https://youtu.be/x")
                 (js "Title") (js "0:01 text") (js "detailed").

Definition revised (n : nat) : SummaryData.t :=
  SummaryData.mk (js "video" ++ [N.of_nat n]) (js "https://youtu.be/x")
                 (js "New title") (js "0:02 other text") (js "detailed").

(** [n] calls of [saveSummary] on distinct videos, one per millisecond. *)
Definition fill (n : nat) : list (Z * op) :=
  (λ i, (Z.of_nat i, SaveSummary (sample i))) <$> seq 0 n.

(** A run that fills the store past its limit and then reads, lists and
    overwrites. *)
Definition mixed_run : list (Z * op) :=
  fill 101
  ++ [(200%Z, GetCachedSummary (SummaryData.videoId (sample 5)) (js "detailed"));
      (201%Z, GetRecentSummaries 2);
      (202%Z, CheckSummaryExists (SummaryData.videoId (sample 0)) (js "detailed"));
      (203%Z, SaveSummary (revised 7));
      (204%Z, SaveSummary (sample 300));
      (205%Z, GetRecentSummaries 100)].

(** ** Notions for the further properties *)

(** [listed] is the [k] most recently accessed records of [stored] (all of
    them when there are fewer), newest first. *)
Definition most_recent_first (k : nat) (stored listed : list SummaryRecord)
  : Prop :=
  length listed = (k `min` length stored)%nat
  ∧ StronglySorted (λ a b, (accessed_at b ≤ accessed_at a)%Z) listed
  ∧ ∃ rest,
      stored ≡ₚ listed ++ rest
      ∧ ∀ x y, x ∈ listed → y ∈ rest → (accessed_at y ≤ accessed_at x)%Z.

(** [getRecentSummaries(n)] leaves the store as it is and lists its
    [n] most recently accessed records, newest first. *)
Definition recent_lists {S} `{Backend S} (now n : Z) (st : S) : Prop :=
  ∃ listed,
    exec no_faults now (GetRecentSummaries n) st = (st, RList listed)
    ∧ most_recent_first (Z.to_nat n) (live st) listed.

(** No two records of the store have the same key, and there are at most
    [MAX_SUMMARIES] of them. *)
Definition keys_unique_within_limit {S} `{Backend S} (st : S) : Prop :=
  NoDup (key_of <$> live st) ∧ (length (live st) ≤ MAX_SUMMARIES)%nat.

(** The rowids of the table are distinct and not above the sequence, and
    the keys are distinct. *)
Definition keyed (db : Sqlite.Db) : Prop :=
  NoDup (Sqlite.id <$> Sqlite.summaries db)
  ∧ Forall (λ r, (Sqlite.id r ≤ Sqlite.sqlite_sequence db)%Z)
           (Sqlite.summaries db)
  ∧ NoDup (key_of ∘ Sqlite.cols <$> Sqlite.summaries db).

(** The store [fs] with one more line on the error console. *)
Definition json_logged (msg : jsstring) (fs : JsonFile.Fs) : JsonFile.Fs :=
  JsonFile.mkFs (JsonFile.file fs) (JsonFile.console fs ++ [msg]).

(** The first storage call of an operation fails. *)
Definition first_fails : faults := λ k, Nat.eqb k 0.

(** The second storage call of an operation fails. *)
Definition second_fails : faults := λ k, Nat.eqb k 1.

(** A non-empty run of decimal digits. *)
Definition digits (d : jsstring) : Prop :=
  d ≠ [] ∧ Forall (λ c, is_digit c = true) d.

(** Digits, a colon, digits, and possibly a colon and digits again. *)
Definition clock_text (m : jsstring) : Prop :=
  ∃ d1 d2, digits d1 ∧ digits d2
    ∧ (m = d1 ++ COLON :: d2
       ∨ ∃ d3, digits d3 ∧ m = d1 ++ COLON :: d2 ++ COLON :: d3).

(** A point with some text that has no whitespace at either end, and whose
    timestamp is empty or reads as a clock. *)
Definition well_formed_point (p : Parser.SummaryPoint) : Prop :=
  Parser.point p ≠ []
  ∧ trim (Parser.point p) = Parser.point p
  ∧ (Parser.timestamp p = [] ∨ clock_text (Parser.timestamp p)).

(** The points pushed so far are well formed and the tracked timestamp is
    empty or a clock. *)
Definition scan_well_formed (st : Parser.Scan) : Prop :=
  Forall well_formed_point (Parser.summaryPoints st)
  ∧ (Parser.currentTimestamp st = []
     ∨ clock_text (Parser.currentTimestamp st)).

(** The points pushed so far, and one more when the accumulated text is not
    blank. *)
Definition points_in_progress (st : Parser.Scan) : nat :=
  length (Parser.summaryPoints st)
  + match trim (Parser.currentPoint st) with [] => 0 | _ :: _ => 1 end.

(** The database [db] with one more line on the error console. *)
Definition sqlite_logged (msg : jsstring) (db : Sqlite.Db) : Sqlite.Db :=
  Sqlite.mkDb (Sqlite.summaries db) (Sqlite.sqlite_sequence db)
              (Sqlite.console db ++ [msg]).

(** An item of the recent list shows the record [r], with its summary
    parsed. *)
Definition shows (item : Server.RecentItem.t) (r : SummaryRecord) : Prop :=
  Server.RecentItem.videoId item = video_id r
  ∧ Server.RecentItem.videoUrl item = video_url r
  ∧ Server.RecentItem.title item = title r
  ∧ Server.RecentItem.summary item = Parser.parseSummary (summary r)
  ∧ Server.RecentItem.style item = style r
  ∧ Server.RecentItem.createdAt item = created_at r.

(** The style of a request: ["detailed"] when the body has none. *)
Definition requested_style (body : Server.Body.t) : jsstring :=
  default (js "detailed") (Server.Body.style body).

(** No record of the store has the key. *)
Definition not_cached (v st : jsstring) (db : Sqlite.Db) : Prop :=
  Forall (λ r, ¬ has_key v st r) (live db).

(** What [/api/summarize] does with the database and replies when the
    summary is not in the cache: [save text] is the call of [saveSummary]
    with the generated text. *)
Definition miss_outcome (save : jsstring → M Sqlite.Db unit)
    (videoTitle st : jsstring)
    (outside : Server.generation) (db : Sqlite.Db)
  : Sqlite.Db * result Server.Response :=
  match outside with
  | Server.NoTranscript => (db, Ok (Server.Failure 404))
  | Server.GenerationFails =>
      (sqlite_logged Server.summarize_error db, Ok (Server.Failure 500))
  | Server.Generated text =>
      (fst (save text db),
       Ok (Server.SummaryReply videoTitle (Parser.parseSummary text) st false))
  end.

(** The record [r] with both stamps set to [t]. *)
Definition restamped (t : Z) (r : SummaryRecord) : SummaryRecord :=
  mkRecord (video_id r) (video_url r) (title r) (summary r) (style r) t t.

(** The world of the migration with another database. *)
Definition with_db (db : Sqlite.Db) (w : Migrate.World) : Migrate.World :=
  Migrate.mkWorld (Migrate.json_file w) (Migrate.backup_file w) db.

(** Every [INSERT OR REPLACE] of the migration fails. *)
Definition every_insert_fails (fsave : nat → faults) : Prop :=
  ∀ i, fsave i 0%nat = true.

(** A code unit that group 2 of the URL pattern takes: none of [#], [&]
    and [?]. *)
Definition id_unit (c : N) : Prop := c ≠ 35 ∧ c ≠ 38 ∧ c ≠ 63.

(** [s] has no slash and does not contain [v=]: no alternative of the URL
    pattern matches in it. *)
Definition marker_free (s : jsstring) : Prop :=
  Forall (λ c, c ≠ 47) s ∧ ∀ a b, s ≠ a ++ js "v=" ++ b.

(** * Properties of the parser *)

Module ParserFacts.
Import Parser ParserSpec.

Lemma drop_while_nil_iff p s :
  drop_while p s = [] ↔ Forall (λ c, p c = true) s.
Proof.
  induction s as [|c s IH]; simpl.
  - split; [constructor | done].
  - destruct (p c) eqn:Hc.
    + rewrite IH. split; [by constructor | by inversion 1].
    + split; [done | inversion 1; congruence].
Qed.

Lemma drop_while_head p s c r : drop_while p s = c :: r → p c = false.
Proof.
  induction s as [|x s IH]; simpl; [done|].
  destruct (p x) eqn:Hx; [done|]. congruence.
Qed.

Lemma drop_while_snoc_keep p s c : p c = false → drop_while p (s ++ [c]) ≠ [].
Proof.
  intros Hc. induction s as [|x s IH]; simpl.
  - by rewrite Hc.
  - by destruct (p x).
Qed.

Lemma trim_nil_iff s : trim s = [] ↔ blank s.
Proof.
  unfold trim, blank. rewrite <- drop_while_nil_iff.
  destruct (drop_while is_space s) as [|c r] eqn:Hd; [done|].
  split; [|done]. intros Hnil. exfalso.
  apply (f_equal (@rev N)) in Hnil. rewrite rev_involutive in Hnil.
  simpl in Hnil. revert Hnil. simpl.
  destruct (rev r) as [|y r'] eqn:Hr; simpl.
  - rewrite (drop_while_head _ _ _ _ Hd). done.
  - pose proof (drop_while_head _ _ _ _ Hd) as Hc.
    destruct (is_space y); [|done].
    by apply drop_while_snoc_keep.
Qed.

Lemma trim_snoc_space s c : is_space c = true → trim (s ++ [c]) = trim s.
Proof.
  intros Hc. unfold trim.
  destruct (drop_while is_space s) as [|x r] eqn:Hd.
  - assert (drop_while is_space (s ++ [c]) = []) as ->; [|done].
    apply drop_while_nil_iff, Forall_app. split.
    + by apply drop_while_nil_iff.
    + by repeat constructor.
  - assert (drop_while is_space (s ++ [c]) = (x :: r) ++ [c]) as ->.
    { clear -Hd. induction s as [|y s IH]; simpl in *; [done|].
      destruct (is_space y); [by apply IH|]. by inversion Hd. }
    rewrite rev_app_distr. simpl. by rewrite Hc.
Qed.

Lemma not_blank_trim s : ¬ blank s → ∃ c r, trim s = c :: r.
Proof.
  intros Hs. destruct (trim s) as [|c r] eqn:Ht; [|by eauto].
  by apply trim_nil_iff in Ht.
Qed.

(** An iteration that does not consume the following line. *)
Lemma scan_step st st' line rest :
  iteration st line (head rest) = (st', false) →
  scan st (line :: rest) = scan st' rest.
Proof.
  destruct rest as [|next rest']; simpl; intros ->; done.
Qed.

(** A fence line is not blank, and neither is a heading. *)
Lemma fence_of_blank line :
  blank line → startsWith (js "```") (trim line) = false.
Proof. intros Hb. apply trim_nil_iff in Hb. by rewrite Hb. Qed.

Lemma heading_not_fence t :
  heading_match t = true → startsWith (js "```") t = false ∧ t ≠ [].
Proof.
  unfold heading_match. destruct t as [|c t]; [done|].
  cbn [take_while drop_while]. destruct (HASH =? c) eqn:Hc.
  - apply N.eqb_eq in Hc. subst c. intros _. split; [reflexivity | done].
  - done.
Qed.

(** ** C2 *)

(** C2. [parseSummary] returns the empty sequence exactly on the inputs that
    are empty or whitespace only, so every other input gives at least one
    point; on such an input whose scan produced no point it returns the one
    point with an empty timestamp and the trimmed input as text. *)
Theorem parse_empty_iff_blank (summary : jsstring) :
  (parseSummary summary = [] ↔ blank summary)
  ∧ (¬ blank summary → parseSummary summary ≠ [])
  ∧ (¬ blank summary →
     summaryPoints (push_if_content (scan initial (split_lines summary))) = [] →
     parseSummary summary = [mkPoint [] (trim summary)]).
Proof.
  assert (parseSummary summary = [] ↔ blank summary) as Hiff.
  { unfold parseSummary. rewrite <- trim_nil_iff.
    destruct (trim summary) as [|c r] eqn:Ht; [done|].
    split; [|done].
    by destruct (summaryPoints _). }
  split; [exact Hiff|]. split.
  - intros Hnb Hnil. by apply Hnb, Hiff.
  - unfold parseSummary.
    intros [c [r Ht]]%not_blank_trim Hpts. by rewrite Ht, Hpts.
Qed.

(** The fallback is taken, for instance, on a lone timestamp. *)
Example parse_lone_timestamp :
  parseSummary (js "1:23") = [mkPoint [] (js "1:23")].
Proof. reflexivity. Qed.

Lemma parse_empty_iff_blank_witness :
  ¬ blank (js "1:23")
  ∧ summaryPoints (push_if_content (scan initial (split_lines (js "1:23")))) = []
  ∧ parseSummary (js "1:23") = [mkPoint [] (trim (js "1:23"))].
Proof.
  assert (¬ blank (js "1:23")) as Hnb by (by inversion 1).
  split; [exact Hnb|]. split; [reflexivity|].
  exact (proj2 (proj2 (parse_empty_iff_blank (js "1:23"))) Hnb eq_refl).
Defined.

(** ** C4 *)

(** C4. Inside a fenced block every line is appended to the current point as
    it is, followed by a newline; the points, the timestamp and the
    blank-line counter stay as they are, no following line is consumed, and
    only a fence line leaves the block. The fenced input of the
    specification gives one point with an empty timestamp; its text is the
    three lines as they are, each followed by a newline, trimmed at both
    ends, so it holds both fence markers. *)
Theorem fenced_block_opaque :
  (∀ st line rest, inCodeBlock st = true →
     scan st (line :: rest) =
     scan (mkScan (summaryPoints st) (currentTimestamp st)
                  (currentPoint st ++ line ++ [LF])
                  (negb (startsWith (js "```") (trim line)))
                  (emptyLineCount st)) rest)
  ∧ (let input := js "```" ++ nl ++ js "1:23 not a timestamp" ++ nl ++ js "``` " in
     parseSummary input = [mkPoint [] (trim (input ++ nl))]
     ∧ parseSummary input
       = [mkPoint [] (js "```" ++ nl ++ js "1:23 not a timestamp" ++ nl
                      ++ js "```")]).
Proof.
  split; [|split; reflexivity].
  intros st line rest Hin. apply scan_step. unfold iteration.
  rewrite Hin. destruct (startsWith _ (trim line)); simpl.
  - done.
  - unfold set_point. by rewrite Hin.
Qed.

Lemma fenced_block_opaque_witness :
  let st := mkScan [] (js "0:05") (js "```" ++ nl) true 0 in
  scan st [js "## 1:23 x"; js "```"] =
  scan (mkScan [] (js "0:05") (js "```" ++ nl ++ js "## 1:23 x" ++ nl) true 0)
       [js "```"].
Proof.
  exact (proj1 fenced_block_opaque
           (mkScan [] (js "0:05") (js "```" ++ nl) true 0)
           (js "## 1:23 x") [js "```"] eq_refl).
Defined.

(** ** C5 *)

(** C5. When two blank lines in a row are scanned outside a fenced block and
    the point accumulated when the second one is reached has content that
    is not whitespace, the second one pushes that point, trimmed, with the
    tracked timestamp, and accumulation restarts empty under the same
    timestamp. The input of the specification gives its two points. *)
Theorem double_blank_line_segments :
  (∀ st b1 b2 rest,
     inCodeBlock st = false → blank b1 → blank b2 →
     let st1 := fst (iteration st b1 (Some b2)) in
     ¬ blank (currentPoint st1) →
     scan st (b1 :: b2 :: rest) =
     scan (mkScan (summaryPoints st1
                     ++ [mkPoint (currentTimestamp st) (trim (currentPoint st1))])
                  (currentTimestamp st) [] false
                  (S (S (emptyLineCount st)))) rest)
  ∧ parseSummary (js "0:01 first" ++ nl ++ nl ++ nl ++ js "second")
    = [mkPoint (js "0:01") (js "first"); mkPoint (js "0:01") (js "second")].
Proof.
  split; [|reflexivity].
  intros st b1 b2 rest Hn Hb1 Hb2 st1 Hcp.
  assert (iteration st b1 (Some b2) = (st1, false)
          ∧ inCodeBlock st1 = false
          ∧ currentTimestamp st1 = currentTimestamp st
          ∧ emptyLineCount st1 = S (emptyLineCount st)) as (Hit & Hn1 & Hts & Hc).
  { subst st1. unfold iteration.
    rewrite (fence_of_blank _ Hb1), Hn.
    apply trim_nil_iff in Hb1. rewrite Hb1. simpl.
    destruct (1 <? S (emptyLineCount st))%nat; [|done].
    by destruct (trim (currentPoint st ++ [LF])). }
  rewrite (scan_step st st1 b1 (b2 :: rest) Hit).
  apply scan_step. unfold iteration.
  rewrite (fence_of_blank _ Hb2), Hn1.
  apply trim_nil_iff in Hb2. rewrite Hb2. cbn [emptyLineCount currentPoint].
  rewrite Hc. cbn [Nat.ltb Nat.leb].
  rewrite (trim_snoc_space _ LF eq_refl).
  apply not_blank_trim in Hcp as [c [r Hcp]]. rewrite Hcp.
  unfold set_point, push_current. cbn -[trim].
  by rewrite (trim_snoc_space _ LF eq_refl), Hcp, Hts.
Qed.

Lemma double_blank_line_segments_witness :
  let st := mkScan [] (js "0:01") (js "first" ++ nl) false 0 in
  inCodeBlock st = false ∧ blank [] ∧ blank (js " ")
  ∧ ¬ blank (currentPoint (fst (iteration st [] (Some (js " ")))))
  ∧ scan st [[]; js " "; js "second"] =
    scan (mkScan [mkPoint (js "0:01") (js "first")] (js "0:01") [] false 2)
         [js "second"].
Proof.
  assert (¬ blank (js "first" ++ nl ++ nl)) as Hnb by (by inversion 1).
  split; [reflexivity|]. split; [constructor|].
  split; [by repeat constructor|]. split; [exact Hnb|].
  exact (proj1 double_blank_line_segments
           (mkScan [] (js "0:01") (js "first" ++ nl) false 0) [] (js " ")
           [js "second"] eq_refl (Forall_nil_2 _)
           (Forall_cons_2 _ (32:N) [] eq_refl (Forall_nil_2 _)) Hnb).
Defined.

(** ** C6 *)

(** C6, as stated, fails on a heading that holds a timestamp: the timestamp
    branch comes first, so the tracked timestamp changes and the new point
    starts with the text after the timestamp, not with the heading line. *)
Lemma heading_with_timestamp_counterexample :
  heading_match (trim (js "## 1:23 Two")) = true
  ∧ ¬ heading_starts_point (mkScan [] (js "0:01") (js "intro" ++ nl) false 0)
                           (js "## 1:23 Two")
  ∧ parseSummary (js "0:01 intro" ++ nl ++ js "## 1:23 Two")
    = [mkPoint (js "0:01") (js "intro"); mkPoint (js "1:23") (js "Two")].
Proof.
  split; [reflexivity|]. split; [|reflexivity].
  unfold heading_starts_point. vm_compute. discriminate.
Qed.

Lemma summaryPoints_push_if_content pts ts cp b n :
  summaryPoints (push_if_content (mkScan pts ts cp b n)) =
  summaryPoints (push_if_content (mkScan pts ts cp false 0)).
Proof. unfold push_if_content. simpl. by destruct (trim cp). Qed.

(** C6, amended. Outside a fenced block a heading line in which no timestamp
    is found closes the accumulated point (pushing it when it has content),
    starts a new point with the heading line, and keeps the tracked
    timestamp; a line that is not blank, not a fence, holds no timestamp and
    is not a heading is appended to the current point. The input of the
    specification gives its two points. *)
Theorem heading_segments_without_timestamp :
  (∀ st line rest,
     inCodeBlock st = false → heading_match (trim line) = true →
     timestampMatch line = None →
     scan st (line :: rest) =
     scan (mkScan (summaryPoints (push_if_content st)) (currentTimestamp st)
                  (line ++ [LF]) false 0) rest)
  ∧ (∀ st line rest,
       inCodeBlock st = false → ¬ blank line →
       startsWith (js "```") (trim line) = false →
       timestampMatch line = None → heading_match (trim line) = false →
       scan st (line :: rest) =
       scan (mkScan (summaryPoints st) (currentTimestamp st)
                    (currentPoint st ++ line ++ [LF]) false 0) rest)
  ∧ parseSummary (js "0:01 intro" ++ nl ++ js "## Section Two" ++ nl
                  ++ js "more text")
    = [mkPoint (js "0:01") (js "intro");
       mkPoint (js "0:01") (js "## Section Two" ++ nl ++ js "more text")].
Proof.
  split; [|split; [|reflexivity]].
  - intros st line rest Hn Hh Hts. apply scan_step. unfold iteration.
    destruct (heading_not_fence _ Hh) as [-> Hne]. rewrite Hn.
    destruct (trim line) as [|c r] eqn:Ht; [done|].
    rewrite Hts, Hh. unfold set_point. f_equal.
    destruct st as [pts ts cp b n]. simpl in *. subst b.
    rewrite (summaryPoints_push_if_content pts ts cp false n).
    unfold push_if_content. simpl. by destruct (trim cp).
  - intros st line rest Hn Hb Hf Hts Hh. apply scan_step. unfold iteration.
    rewrite Hf, Hn. apply not_blank_trim in Hb as [c [r Ht]].
    rewrite Ht in *. by rewrite Hts, Hh.
Qed.

Lemma heading_segments_without_timestamp_witness :
  let st := mkScan [] (js "0:01") (js "intro" ++ nl) false 0 in
  inCodeBlock st = false ∧ heading_match (trim (js "## Section Two")) = true
  ∧ timestampMatch (js "## Section Two") = None
  ∧ scan st [js "## Section Two"; js "more text"] =
    scan (mkScan [mkPoint (js "0:01") (js "intro")] (js "0:01")
                 (js "## Section Two" ++ nl) false 0) [js "more text"].
Proof.
  split; [reflexivity|]. split; [reflexivity|]. split; [reflexivity|].
  exact (proj1 heading_segments_without_timestamp
           (mkScan [] (js "0:01") (js "intro" ++ nl) false 0)
           (js "## Section Two") [js "more text"] eq_refl eq_refl eq_refl).
Defined.

End ParserFacts.

(** * Properties of the cache *)

(** ** The stable sort *)

Section SortFacts.
Context {A : Type} (le : A → A → bool) (k : A → Z).
Hypothesis le_key : ∀ a b, le a b = true ↔ (k a ≤ k b)%Z.

Lemma insert_sorted_perm x l : insert_sorted le x l ≡ₚ x :: l.
Proof.
  induction l as [|y l IH]; simpl; [done|].
  destruct (le x y); [done|]. rewrite IH. apply Permutation_swap.
Qed.

Lemma stable_sort_perm l : stable_sort le l ≡ₚ l.
Proof.
  induction l as [|x l IH]; simpl; [done|].
  by rewrite insert_sorted_perm, IH.
Qed.

Lemma stable_sort_length l : length (stable_sort le l) = length l.
Proof. by rewrite stable_sort_perm. Qed.

Lemma insert_sorted_sorted x l :
  StronglySorted (λ a b, (k a ≤ k b)%Z) l →
  StronglySorted (λ a b, (k a ≤ k b)%Z) (insert_sorted le x l).
Proof.
  induction 1 as [|y l Hl IH Hy]; simpl.
  - repeat constructor.
  - destruct (le x y) eqn:Hxy.
    + apply le_key in Hxy. constructor; [by constructor|].
      constructor; [done|]. eapply Forall_impl; [exact Hy|].
      simpl. intros. lia.
    + constructor; [done|].
      assert (¬ (k x ≤ k y)%Z) by (rewrite <- le_key; congruence).
      rewrite insert_sorted_perm. constructor; [lia | done].
Qed.

Lemma stable_sort_sorted l :
  StronglySorted (λ a b, (k a ≤ k b)%Z) (stable_sort le l).
Proof.
  induction l as [|x l IH]; simpl; [constructor|].
  by apply insert_sorted_sorted.
Qed.

Lemma insert_sorted_snoc a m x :
  (k a ≤ k x)%Z → insert_sorted le a (m ++ [x]) = insert_sorted le a m ++ [x].
Proof.
  intros Hax. induction m as [|y m IH]; simpl.
  - by apply le_key in Hax as ->.
  - destruct (le a y); [done|]. by rewrite IH.
Qed.

(** An element that is not older than any other and comes last stays
    last. *)
Lemma stable_sort_snoc_max l x :
  Forall (λ y, (k y ≤ k x)%Z) l →
  stable_sort le (l ++ [x]) = stable_sort le l ++ [x].
Proof.
  induction 1 as [|y l Hy Hl IH]; simpl; [done|].
  by rewrite IH, insert_sorted_snoc.
Qed.

(** The oldest [n] and the rest. *)
Lemma stable_sort_split n l e r :
  e ∈ take n (stable_sort le l) → r ∈ drop n (stable_sort le l) →
  (k e ≤ k r)%Z.
Proof.
  intros He Hr. pose proof (stable_sort_sorted l) as Hs.
  rewrite <- (take_drop n (stable_sort le l)) in Hs.
  by eapply (StronglySorted_app_1_elem_of _ _ _ e r) in Hs.
Qed.

Lemma key_inj_on l x y :
  NoDup (k <$> l) → x ∈ l → y ∈ l → k x = k y → x = y.
Proof.
  induction l as [|z l IH]; simpl; [by inversion 2|].
  rewrite NoDup_cons, !elem_of_cons, list_elem_of_fmap.
  intros [Hz Hl] [->|Hx] [->|Hy] Hk; [done| | |by apply IH].
  - exfalso. apply Hz. eauto.
  - exfalso. apply Hz. eauto.
Qed.

(** With distinct keys the sorted list depends on the elements only. *)
Lemma stable_sort_unique l1 l2 :
  NoDup (k <$> l1) → l1 ≡ₚ l2 → stable_sort le l1 = stable_sort le l2.
Proof.
  intros Hnd Hp.
  apply (StronglySorted_unique_strong (λ a b, (k a ≤ k b)%Z)).
  - intros x1 x2 Hx1 Hx2 H12 H21.
    rewrite stable_sort_perm in Hx1. rewrite stable_sort_perm, <- Hp in Hx2.
    apply (key_inj_on l1); [done..|lia].
  - apply stable_sort_sorted.
  - apply stable_sort_sorted.
  - by rewrite !stable_sort_perm.
Qed.
End SortFacts.

Lemma stable_sort_fmap {A B} (f : B → A) (le : A → A → bool) l :
  stable_sort le (f <$> l) = f <$> stable_sort (λ a b, le (f a) (f b)) l.
Proof.
  induction l as [|x l IH]; csimpl; [done|]. rewrite IH.
  generalize (stable_sort (λ a b, le (f a) (f b)) l). intros m.
  induction m as [|y m IHm]; csimpl; [done|].
  destruct (le (f x) (f y)); [done|]. by rewrite IHm.
Qed.

Section ListFacts.
Context {A : Type} (P : A → Prop) `{!∀ x, Decision (P x)}.

Lemma filter_all l : Forall P l → filter P l = l.
Proof.
  induction 1 as [|x l Hx Hl IH]; [done|].
  by rewrite filter_cons_True, IH.
Qed.

Lemma filter_none l : Forall (λ x, ¬ P x) l → filter P l = [].
Proof.
  induction 1 as [|x l Hx Hl IH]; [done|].
  by rewrite filter_cons_False.
Qed.

Lemma head_filter_list_find l :
  head (filter P l) = snd <$> list_find P l.
Proof.
  induction l as [|x l IH]; [done|]. rewrite filter_cons. simpl.
  destruct (decide (P x)); [done|]. rewrite IH.
  by destruct (list_find P l) as [[??]|].
Qed.
End ListFacts.

(** ** Runs under a clock that does not run backwards *)

Section RunInvariant.
Context {S : Type} `{Backend S} (I : Z → S → Prop).
Hypothesis I_mono : ∀ t t' s, I t s → (t ≤ t')%Z → I t' s.
Hypothesis I_step :
  ∀ t now o s, I t s → (t ≤ now)%Z → I now (fst (exec no_faults now o s)).

Lemma run_cons now o trace (s : S) :
  run ((now, o) :: trace) s
  = (fst (run trace (fst (exec no_faults now o s))),
     snd (exec no_faults now o s)
       :: snd (run trace (fst (exec no_faults now o s)))).
Proof.
  simpl. destruct (exec no_faults now o s) as [s1 r]. simpl.
  by destruct (run trace s1).
Qed.

Lemma run_invariant trace : ∀ s t now,
  I t s → StronglySorted Z.le (t :: (fst <$> trace) ++ [now]) →
  I now (fst (run trace s)).
Proof.
  induction trace as [|[t' o] trace IH]; intros s t now Hs Hsorted.
  - simpl in *. apply (I_mono t); [done|].
    apply StronglySorted_cons in Hsorted as [Hle _].
    by apply Forall_cons_1 in Hle as [? _].
  - rewrite run_cons. simpl fst. csimpl in Hsorted.
    apply StronglySorted_cons in Hsorted as [Hle Hsorted].
    apply Forall_cons_1 in Hle as [Hle _].
    apply (IH _ t'); [|done]. by apply (I_step t).
Qed.

(** From a store that satisfies the invariant at every time. *)
Lemma run_invariant_init trace s now :
  (∀ t, I t s) → Sorted Z.le ((fst <$> trace) ++ [now]) →
  I now (fst (run trace s)).
Proof.
  intros Hs Hsorted%(Sorted_StronglySorted Z.le).
  destruct trace as [|[t' o] trace]; [by apply Hs|].
  apply (run_invariant _ _ t'); [by apply Hs|].
  csimpl in *. constructor; [done|].
  apply StronglySorted_cons in Hsorted as [Hle _].
  by constructor.
Qed.
End RunInvariant.

(** ** The SQLite cache *)

Module SqliteFacts.
Import Sqlite SqliteSpec.

Lemma asc_key a b :
  (accessed_at (cols a) <=? accessed_at (cols b))%Z = true
  ↔ (accessed_at (cols a) ≤ accessed_at (cols b))%Z.
Proof. apply Z.leb_le. Qed.

Lemma desc_key a b :
  (accessed_at (cols b) <=? accessed_at (cols a))%Z = true
  ↔ (- accessed_at (cols a) ≤ - accessed_at (cols b))%Z.
Proof. rewrite Z.leb_le. lia. Qed.

Lemma sqlite_exists_no_faults v s db :
  checkSummaryExists no_faults v s db
  = (db, Ok (0 <? length (matching v s (summaries db)))%nat).
Proof. reflexivity. Qed.

Lemma sqlite_get_no_faults now v s db :
  getCachedSummary no_faults now v s db
  = match head (matching v s (summaries db)) with
    | Some r => (fst (update_accessed_at now v s db), Ok (Some r))
    | None => (db, Ok None)
    end.
Proof.
  unfold getCachedSummary, bind, call, ret, no_faults, select_where. simpl.
  by destruct (head _).
Qed.

Lemma sqlite_save_no_faults now data db :
  saveSummary no_faults now data db
  = (let w := written now data db in
     if (MAX_SUMMARIES <? length (summaries w))%nat
     then fst (delete_oldest
                 (Z.of_nat (length (summaries w)) - Z.of_nat MAX_SUMMARIES) w)
     else w, Ok tt).
Proof.
  unfold saveSummary, try_catch, bind, call, ret, no_faults, written. simpl.
  by destruct (MAX_SUMMARIES <? _)%nat.
Qed.

Lemma sqlite_recent_no_faults n db :
  getRecentSummaries no_faults n db
  = (db, Ok (limit n (order_by_accessed_at_desc (summaries db)))).
Proof. reflexivity. Qed.

(** Deleting the ids of the [n] oldest rows leaves the rest of the sorted
    table. *)
Lemma delete_oldest_perm (n : nat) rows :
  NoDup (id <$> rows) →
  filter (λ r, id r ∉ id <$> take n (order_by_accessed_at_asc rows)) rows
  ≡ₚ drop n (order_by_accessed_at_asc rows).
Proof.
  intros Hnd. set (sorted := order_by_accessed_at_asc rows).
  assert (sorted ≡ₚ rows) as Hp by apply stable_sort_perm.
  rewrite <- Hp. rewrite <- Hp in Hnd.
  rewrite <- (take_drop n sorted), fmap_app in Hnd.
  apply NoDup_app in Hnd as (_ & Hdisj & _).
  transitivity (filter (λ r, id r ∉ id <$> take n sorted)
                       (take n sorted ++ drop n sorted)).
  { by rewrite take_drop. }
  rewrite filter_app, filter_none, filter_all; [done| |].
  - apply Forall_forall. intros r Hr Hin. apply (Hdisj (id r)); [done|].
    by apply list_elem_of_fmap_2.
  - apply Forall_forall. intros r Hr Hnot. apply Hnot.
    by apply list_elem_of_fmap_2.
Qed.

Lemma limit_take {A} (z : Z) (l : list A) :
  (0 ≤ z)%Z → limit z l = take (Z.to_nat z) l.
Proof. unfold limit. intros. by rewrite (proj2 (Z.ltb_ge z 0)). Qed.

Lemma saved_rows now data db :
  summaries (saved now data db)
  = let rows := summaries (written now data db) in
    if (MAX_SUMMARIES <? length rows)%nat
    then filter (λ r, id r ∉ id <$> take (length rows - MAX_SUMMARIES)
                                        (order_by_accessed_at_asc rows)) rows
    else rows.
Proof.
  unfold saved. rewrite sqlite_save_no_faults. cbn [fst].
  destruct (MAX_SUMMARIES <? _)%nat eqn:Hlt; [|done].
  apply Nat.ltb_lt in Hlt. unfold delete_oldest. cbn [fst with_rows summaries].
  rewrite limit_take by lia.
  by rewrite <- Nat2Z.inj_sub, Nat2Z.id by lia.
Qed.

Lemma sqlite_wf_mono t t' db : wf t db → (t ≤ t')%Z → wf t' db.
Proof.
  intros [] Ht. split; [done..|].
  eapply Forall_impl; [done|]. simpl. intros. lia.
Qed.

Lemma wf_written t now data db :
  wf t db → (t ≤ now)%Z → wf now (written now data db).
Proof.
  intros [Hid Hb Hk Hs] Ht. unfold written. simpl.
  set (P := λ r : Row, ¬ has_key (SummaryData.videoId data)
                                   (SummaryData.style data) (cols r)).
  assert (filter P (summaries db) `sublist_of` summaries db) as Hsub
    by apply sublist_filter.
  split; simpl.
  - rewrite fmap_app. apply NoDup_app. split; [|split].
    + eapply sublist_NoDup; [exact Hid|]. by apply fmap_sublist.
    + intros i [r [-> [_ Hr]%list_elem_of_filter]]%list_elem_of_fmap.
      rewrite Forall_forall in Hb. apply Hb in Hr.
      intros Heq%list_elem_of_singleton. simpl in *. lia.
    + apply NoDup_singleton.
  - apply Forall_app. split; [|by repeat constructor].
    apply Forall_forall. intros r [_ Hr]%list_elem_of_filter.
    rewrite Forall_forall in Hb. apply Hb in Hr. lia.
  - rewrite fmap_app. apply NoDup_app. split; [|split].
    + eapply sublist_NoDup; [exact Hk|]. by apply fmap_sublist.
    + intros kk [r [-> [HP _]%list_elem_of_filter]]%list_elem_of_fmap.
      intros Hin%list_elem_of_singleton. apply HP.
      unfold has_key. simpl in Hin. unfold key_of in Hin. simpl in Hin.
      by inversion Hin.
    + apply NoDup_singleton.
  - apply Forall_app. split; [|by repeat constructor].
    apply Forall_forall. intros r [_ Hr]%list_elem_of_filter.
    rewrite Forall_forall in Hs. apply Hs in Hr. lia.
Qed.

Lemma wf_filter t db (P : Row → Prop) `{!∀ r, Decision (P r)} :
  wf t db → wf t (with_rows (filter P (summaries db)) db).
Proof.
  intros [Hid Hb Hk Hs].
  assert (filter P (summaries db) `sublist_of` summaries db) as Hsub
    by apply sublist_filter.
  split; simpl.
  - eapply sublist_NoDup; [exact Hid|]. by apply fmap_sublist.
  - apply Forall_forall. intros r [_ Hr]%list_elem_of_filter.
    rewrite Forall_forall in Hb. by apply Hb.
  - eapply sublist_NoDup; [exact Hk|]. by apply fmap_sublist.
  - apply Forall_forall. intros r [_ Hr]%list_elem_of_filter.
    rewrite Forall_forall in Hs. by apply Hs.
Qed.

Lemma wf_saved t now data db :
  wf t db → (t ≤ now)%Z → wf now (saved now data db).
Proof.
  intros Hwf Ht. pose proof (wf_written _ _ data _ Hwf Ht) as Hw.
  unfold saved. rewrite sqlite_save_no_faults. cbn [fst].
  destruct (MAX_SUMMARIES <? _)%nat; [|done].
  unfold delete_oldest. cbn [fst]. by apply wf_filter.
Qed.

(** The rows that [saveSummary] keeps are the most recently accessed ones of
    the table it wrote to. *)
Lemma sqlite_saved_perm t now data db :
  wf t db → (t ≤ now)%Z →
  let rows := summaries (written now data db) in
  summaries (saved now data db)
  ≡ₚ drop (length rows - MAX_SUMMARIES) (order_by_accessed_at_asc rows).
Proof.
  intros Hwf Ht rows. rewrite saved_rows. cbv zeta. fold rows.
  destruct (MAX_SUMMARIES <? length rows)%nat eqn:Hlt.
  - apply delete_oldest_perm. by destruct (wf_written _ _ data _ Hwf Ht).
  - apply Nat.ltb_ge in Hlt.
    replace (length rows - MAX_SUMMARIES)%nat with 0%nat by lia.
    simpl. symmetry. apply stable_sort_perm.
Qed.

Lemma sqlite_saved_length t now data db :
  wf t db → (t ≤ now)%Z →
  length (summaries (saved now data db))
  = (length (summaries (written now data db)) `min` MAX_SUMMARIES)%nat.
Proof.
  intros Hwf Ht. rewrite (sqlite_saved_perm t) by done.
  rewrite length_drop. unfold order_by_accessed_at_asc.
  rewrite stable_sort_length. lia.
Qed.

Lemma written_rows now data db :
  ∃ created,
    summaries (written now data db)
    = filter (λ r, ¬ has_key (SummaryData.videoId data)
                             (SummaryData.style data) (cols r)) (summaries db)
      ++ [mkRow (sqlite_sequence db + 1) (new_record data created now)]
    ∧ created = match head (matching (SummaryData.videoId data)
                                    (SummaryData.style data) (summaries db)) with
                | Some r => created_at (cols r)
                | None => now
                end.
Proof. eexists. split; reflexivity. Qed.

(** The row just written is kept. *)
Lemma saved_new_row t now data db :
  wf t db → (t ≤ now)%Z →
  ∃ created,
    mkRow (sqlite_sequence db + 1) (new_record data created now)
      ∈ summaries (saved now data db)
    ∧ created = match head (matching (SummaryData.videoId data)
                                    (SummaryData.style data) (summaries db)) with
                | Some r => created_at (cols r)
                | None => now
                end.
Proof.
  intros Hwf Ht. destruct (written_rows now data db) as (created & Hrows & Hc).
  exists created. split; [|done]. rewrite (sqlite_saved_perm t) by done. cbv zeta.
  rewrite Hrows. set (old := filter _ (summaries db)).
  unfold order_by_accessed_at_asc.
  rewrite (stable_sort_snoc_max _ (λ r, accessed_at (cols r)) asc_key).
  - rewrite drop_app_le.
    + apply elem_of_app. right. by apply list_elem_of_singleton.
    + rewrite length_app, stable_sort_length. simpl.
      unfold MAX_SUMMARIES. lia.
  - apply Forall_forall. intros r [_ Hr]%list_elem_of_filter. simpl.
    destruct Hwf as [_ _ _ Hs]. rewrite Forall_forall in Hs.
    apply Hs in Hr. lia.
Qed.

Lemma wf_update t now v s db :
  wf t db → (t ≤ now)%Z → wf now (fst (update_accessed_at now v s db)).
Proof.
  intros [Hid Hb Hk Hs] Ht. simpl.
  set (upd := λ r, if decide (has_key v s (cols r))
                   then mkRow (id r) (set_accessed_at now (cols r)) else r).
  assert (∀ r, id (upd r) = id r) as Hupd_id
    by (intros r; unfold upd; by destruct (decide _)).
  assert (∀ r, key_of (cols (upd r)) = key_of (cols r)) as Hupd_key
    by (intros r; unfold upd; by destruct (decide _)).
  split; simpl.
  - rewrite <- list_fmap_compose.
    assert (id ∘ upd <$> summaries db = id <$> summaries db) as ->; [|done].
    apply list_fmap_ext. intros. apply Hupd_id.
  - apply Forall_fmap. eapply Forall_impl; [exact Hb|].
    intros r. simpl. by rewrite Hupd_id.
  - rewrite <- list_fmap_compose.
    assert (key_of ∘ cols ∘ upd <$> summaries db
            = key_of ∘ cols <$> summaries db) as ->; [|done].
    apply list_fmap_ext. intros. apply Hupd_key.
  - apply Forall_fmap. eapply Forall_impl; [exact Hs|].
    intros r Hr. unfold compose, upd. simpl in *.
    destruct (decide _); simpl; lia.
Qed.

Lemma sqlite_consistent_mono t t' db : consistent t db → (t ≤ t')%Z → consistent t' db.
Proof. intros [Hwf Hlen] Ht. split; [by eapply sqlite_wf_mono | done]. Qed.

(** The database after one call of the cache. *)
Lemma exec_db now o db :
  fst (exec no_faults now o db)
  = match o with
    | GetCachedSummary v s =>
        match head (matching v s (summaries db)) with
        | Some _ => fst (update_accessed_at now v s db)
        | None => db
        end
    | SaveSummary data => saved now data db
    | _ => db
    end.
Proof.
  destruct o as [v s|v s|data|n]; unfold exec, sqlite_backend.
  - by rewrite sqlite_exists_no_faults.
  - rewrite sqlite_get_no_faults. by destruct (head _).
  - unfold saved. by rewrite sqlite_save_no_faults.
  - by rewrite sqlite_recent_no_faults.
Qed.

Lemma sqlite_consistent_exec t now o db :
  consistent t db → (t ≤ now)%Z →
  consistent now (fst (exec no_faults now o db)).
Proof.
  intros [Hwf Hlen] Ht. rewrite exec_db.
  destruct o as [v s|v s|data|n].
  - split; [by eapply sqlite_wf_mono | done].
  - destruct (head _).
    + split; [by apply (wf_update t)|].
      unfold update_accessed_at, with_rows. cbn [fst summaries].
      by rewrite length_fmap.
    + split; [by eapply sqlite_wf_mono | done].
  - split; [by apply (wf_saved t)|].
    rewrite (sqlite_saved_length t) by done. lia.
  - split; [by eapply sqlite_wf_mono | done].
Qed.

Lemma sqlite_consistent_empty t : consistent t empty.
Proof. split; [split|]; simpl; [constructor..|lia]. Qed.

(** Every database reached from the empty one is consistent. *)
Lemma sqlite_consistent_run trace now :
  Sorted Z.le ((fst <$> trace) ++ [now]) →
  consistent now (fst (run trace empty)).
Proof.
  apply (run_invariant_init consistent).
  - apply sqlite_consistent_mono.
  - apply sqlite_consistent_exec.
  - apply sqlite_consistent_empty.
Qed.

End SqliteFacts.

(** ** The JSON-file cache *)

Module JsonFacts.
Import JsonFile JsonSpec.

Lemma oldest_key a b :
  (accessed_at a - accessed_at b <=? 0)%Z = true
  ↔ (accessed_at a ≤ accessed_at b)%Z.
Proof. rewrite Z.leb_le. lia. Qed.

Lemma newest_key a b :
  (accessed_at b - accessed_at a <=? 0)%Z = true
  ↔ (- accessed_at a ≤ - accessed_at b)%Z.
Proof. rewrite Z.leb_le. lia. Qed.

Lemma read_no_faults fs : readDatabase false fs = (fs, Ok (records fs)).
Proof.
  unfold readDatabase, bind, existsSync, records.
  destruct (file fs) eqn:Hf; simpl; [|done].
  unfold try_catch, readFileSync, call. by rewrite Hf.
Qed.

Lemma write_no_faults data fs :
  writeDatabase false data fs = (mkFs (Some data) (console fs), Ok tt).
Proof. reflexivity. Qed.

Lemma json_exists_no_faults v s fs :
  checkSummaryExists no_faults v s fs
  = (fs, Ok (bool_decide (Exists (has_key v s) (records fs)))).
Proof.
  unfold checkSummaryExists, bind, no_faults. by rewrite read_no_faults.
Qed.

Lemma json_get_no_faults now v s fs :
  getCachedSummary no_faults now v s fs
  = match list_find (has_key v s) (records fs) with
    | Some (i, r) =>
        (mkFs (Some (<[i := set_accessed_at now r]> (records fs))) (console fs),
         Ok (Some (set_accessed_at now r)))
    | None => (fs, Ok None)
    end.
Proof.
  unfold getCachedSummary, bind, no_faults. rewrite read_no_faults.
  by destruct (list_find _ _) as [[i r]|].
Qed.

Lemma json_save_no_faults now data fs :
  saveSummary no_faults now data fs
  = (mkFs (Some (saved_records now data (records fs))) (console fs), Ok tt).
Proof.
  unfold saveSummary, bind, no_faults. by rewrite read_no_faults.
Qed.

Lemma json_recent_no_faults n fs :
  getRecentSummaries no_faults n fs
  = (fs, Ok (slice_to n (sort_newest_first (records fs)))).
Proof.
  unfold getRecentSummaries, bind, no_faults. by rewrite read_no_faults.
Qed.

(** The records after one call of the cache. *)
Lemma exec_records now o fs :
  records (fst (exec no_faults now o fs))
  = match o with
    | GetCachedSummary v s =>
        match list_find (has_key v s) (records fs) with
        | Some (i, r) => <[i := set_accessed_at now r]> (records fs)
        | None => records fs
        end
    | SaveSummary data => saved_records now data (records fs)
    | _ => records fs
    end.
Proof.
  destruct o as [v s|v s|data|n]; unfold exec, json_backend.
  - by rewrite json_exists_no_faults.
  - rewrite json_get_no_faults. by destruct (list_find _ _) as [[i r]|].
  - by rewrite json_save_no_faults.
  - by rewrite json_recent_no_faults.
Qed.

Lemma json_wf_mono t t' l : wf t l → (t ≤ t')%Z → wf t' l.
Proof.
  intros [Hk Hs] Ht. split; [done|].
  eapply Forall_impl; [done|]. simpl. intros. lia.
Qed.

Lemma key_of_has_key v s r : has_key v s r ↔ key_of r = (v, s).
Proof. unfold has_key, key_of. split; [by intros [-> ->] | by inversion 1]. Qed.

(** Storing over the record found at [i] keeps the keys as they are. *)
Lemma keys_insert_found (l : list SummaryRecord) i e r :
  l !! i = Some e → key_of r = key_of e →
  key_of <$> <[i := r]> l = key_of <$> l.
Proof.
  intros Hi Hk. rewrite list_fmap_insert. apply list_insert_id.
  by rewrite list_lookup_fmap, Hi, Hk.
Qed.

Lemma wf_store_record t now data l :
  wf t l → (t ≤ now)%Z → wf now (store_record now data l).
Proof.
  intros [Hk Hs] Ht. unfold store_record.
  destruct (list_find _ l) as [[i e]|] eqn:Hfind.
  - apply list_find_Some in Hfind as (Hi & He & _). split.
    + rewrite (keys_insert_found l i e); [done..|].
      by apply key_of_has_key in He as ->.
    + apply Forall_insert; [|simpl; lia].
      eapply Forall_impl; [exact Hs|]. simpl. intros. lia.
  - apply list_find_None in Hfind. split.
    + rewrite fmap_app. apply NoDup_app. split; [done|]. split.
      * intros kk [r [-> Hr]]%list_elem_of_fmap Hin%list_elem_of_singleton.
        rewrite Forall_forall in Hfind. apply (Hfind r Hr).
        by apply key_of_has_key.
      * apply NoDup_singleton.
    + apply Forall_app. split; [|by repeat constructor].
      eapply Forall_impl; [exact Hs|]. simpl. intros. lia.
Qed.

Lemma enforce_limit_perm l :
  enforce_limit l ≡ₚ drop (length l - MAX_SUMMARIES) (sort_oldest_first l).
Proof.
  unfold enforce_limit. destruct (MAX_SUMMARIES <? length l)%nat eqn:Hlt.
  - done.
  - apply Nat.ltb_ge in Hlt.
    replace (length l - MAX_SUMMARIES)%nat with 0%nat by lia.
    simpl. symmetry. apply stable_sort_perm.
Qed.

Lemma wf_drop_sorted t n l : wf t l → wf t (drop n (sort_oldest_first l)).
Proof.
  intros [Hk Hs].
  assert (sort_oldest_first l ≡ₚ l) as Hp by apply stable_sort_perm.
  split.
  - eapply sublist_NoDup; [|apply fmap_sublist, sublist_drop].
    by rewrite Hp.
  - apply Forall_drop. by rewrite Hp.
Qed.

Lemma wf_saved_records t now data l :
  wf t l → (t ≤ now)%Z → wf now (saved_records now data l).
Proof.
  intros Hwf Ht. pose proof (wf_store_record t now data l Hwf Ht) as Hw.
  unfold saved_records. destruct (list_find _ l); [done|].
  destruct Hw as [Hk Hs]. split.
  - rewrite enforce_limit_perm. by apply (wf_drop_sorted now).
  - rewrite enforce_limit_perm. by apply (wf_drop_sorted now).
Qed.

Lemma store_record_length now data l :
  length (store_record now data l)
  = match list_find (has_key (SummaryData.videoId data)
                             (SummaryData.style data)) l with
    | Some _ => length l
    | None => S (length l)
    end.
Proof.
  unfold store_record. destruct (list_find _ l) as [[i e]|].
  - apply length_insert.
  - rewrite length_app. simpl. lia.
Qed.

(** The records that [saveSummary] keeps are the most recently accessed ones
    of the array it stored into. *)
Lemma json_saved_perm now data l :
  (length l ≤ MAX_SUMMARIES)%nat →
  saved_records now data l
  ≡ₚ drop (length (store_record now data l) - MAX_SUMMARIES)
          (sort_oldest_first (store_record now data l)).
Proof.
  intros Hlen. unfold saved_records.
  pose proof (store_record_length now data l) as Hl.
  destruct (list_find _ l).
  - replace (length (store_record now data l) - MAX_SUMMARIES)%nat
      with 0%nat by lia.
    simpl. symmetry. apply stable_sort_perm.
  - apply enforce_limit_perm.
Qed.

Lemma json_saved_length now data l :
  (length l ≤ MAX_SUMMARIES)%nat →
  length (saved_records now data l)
  = (length (store_record now data l) `min` MAX_SUMMARIES)%nat.
Proof.
  intros Hlen. rewrite json_saved_perm by done.
  rewrite length_drop. unfold sort_oldest_first.
  rewrite stable_sort_length. lia.
Qed.

(** The record just stored is kept. *)
Lemma saved_new_record t now data l :
  wf t l → (t ≤ now)%Z →
  ∃ created,
    new_record data created now ∈ saved_records now data l
    ∧ created = match list_find (has_key (SummaryData.videoId data)
                                         (SummaryData.style data)) l with
                | Some (_, e) => created_at e
                | None => now
                end.
Proof.
  intros [Hk Hs] Ht. unfold saved_records, store_record.
  destruct (list_find _ l) as [[i e]|] eqn:Hfind.
  - exists (created_at e). split; [|done].
    apply list_find_Some in Hfind as (Hi & _).
    apply list_elem_of_insert. by eapply lookup_lt_Some.
  - exists now. split; [|done]. rewrite enforce_limit_perm.
    unfold sort_oldest_first.
    rewrite (stable_sort_snoc_max _ accessed_at oldest_key).
    + rewrite drop_app_le.
      * apply elem_of_app. right. by apply list_elem_of_singleton.
      * rewrite length_app, stable_sort_length. simpl.
        unfold MAX_SUMMARIES. lia.
    + eapply Forall_impl; [done|]. simpl. intros. lia.
Qed.

Lemma json_consistent_mono t t' fs : consistent t fs → (t ≤ t')%Z → consistent t' fs.
Proof. intros [Hwf Hlen] Ht. split; [by eapply json_wf_mono | done]. Qed.

Lemma json_consistent_exec t now o fs :
  consistent t fs → (t ≤ now)%Z →
  consistent now (fst (exec no_faults now o fs)).
Proof.
  intros [Hwf Hlen] Ht. unfold consistent. rewrite exec_records.
  destruct o as [v s|v s|data|n].
  - split; [by eapply json_wf_mono | done].
  - destruct (list_find _ _) as [[i r]|] eqn:Hfind.
    + apply list_find_Some in Hfind as (Hi & Hr & _).
      destruct Hwf as [Hk Hs]. split; [split|].
      * by rewrite (keys_insert_found _ i r).
      * apply Forall_insert; [|simpl; lia].
        eapply Forall_impl; [done|]. simpl. intros. lia.
      * by rewrite length_insert.
    + split; [by eapply json_wf_mono | done].
  - split; [by apply (wf_saved_records t)|].
    rewrite json_saved_length by done. lia.
  - split; [by eapply json_wf_mono | done].
Qed.

Lemma json_consistent_empty t : consistent t empty.
Proof. split; [split|]; simpl; [constructor..|lia]. Qed.

(** Every store reached from the empty one is consistent. *)
Lemma json_consistent_run trace now :
  Sorted Z.le ((fst <$> trace) ++ [now]) →
  consistent now (fst (run trace empty)).
Proof.
  apply (run_invariant_init consistent).
  - apply json_consistent_mono.
  - apply json_consistent_exec.
  - apply json_consistent_empty.
Qed.

End JsonFacts.

(** ** C1 *)

Lemma stable_sort_ext {A} (le1 le2 : A → A → bool) l :
  (∀ a b, le1 a b = le2 a b) → stable_sort le1 l = stable_sort le2 l.
Proof.
  intros Hext. induction l as [|x l IH]; simpl; [done|]. rewrite IH.
  generalize (stable_sort le2 l). intros m.
  induction m as [|y m IHm]; simpl; [done|].
  rewrite Hext. destruct (le2 x y); [done|]. by rewrite IHm.
Qed.

(** The rows of SQLite's [ORDER BY accessed_at ASC] are the records that the
    JSON store's sort gives. *)
Lemma cols_order_asc rows :
  Sqlite.cols <$> Sqlite.order_by_accessed_at_asc rows
  = JsonFile.sort_oldest_first (Sqlite.cols <$> rows).
Proof.
  unfold JsonFile.sort_oldest_first, Sqlite.order_by_accessed_at_asc.
  rewrite stable_sort_fmap. f_equal. apply stable_sort_ext.
  intros a b. apply eq_true_iff_eq.
  rewrite SqliteFacts.asc_key, JsonFacts.oldest_key. done.
Qed.

Lemma cols_order_desc rows :
  Sqlite.cols <$> Sqlite.order_by_accessed_at_desc rows
  = JsonFile.sort_newest_first (Sqlite.cols <$> rows).
Proof.
  unfold JsonFile.sort_newest_first, Sqlite.order_by_accessed_at_desc.
  rewrite stable_sort_fmap. f_equal. apply stable_sort_ext.
  intros a b. apply eq_true_iff_eq.
  rewrite SqliteFacts.desc_key, JsonFacts.newest_key. done.
Qed.

(** Keeping all but the first [n] of the sorted records evicts the oldest. *)
Lemma oldest_evicted_drop n written kept :
  kept ≡ₚ drop n (JsonFile.sort_oldest_first written) →
  oldest_evicted written kept.
Proof.
  intros Hk. exists (take n (JsonFile.sort_oldest_first written)). split.
  - rewrite Hk, take_drop. symmetry. apply stable_sort_perm.
  - intros e r He Hr. rewrite Hk in Hr.
    by apply (stable_sort_split _ accessed_at JsonFacts.oldest_key n written).
Qed.

Lemma sqlite_keeps_most_recent t now data db :
  SqliteSpec.consistent t db → (t ≤ now)%Z →
  keeps_most_recent now data
    (Sqlite.cols <$> Sqlite.summaries (SqliteSpec.written now data db))
    (live (fst (exec no_faults now (SaveSummary data) db))).
Proof.
  intros [Hwf Hlen] Ht. rewrite SqliteFacts.exec_db.
  unfold live, sqlite_backend.
  pose proof (SqliteFacts.sqlite_saved_length t now data db Hwf Ht) as Hl.
  pose proof (SqliteFacts.sqlite_saved_perm t now data db Hwf Ht) as Hp.
  cbv zeta in Hp.
  destruct (SqliteFacts.saved_new_row t now data db Hwf Ht) as (c & Hin & Hc).
  destruct (SqliteFacts.written_rows now data db) as (c' & Hrows & Hc').
  unfold keeps_most_recent.
  rewrite !length_fmap. split; [lia|]. split; [done|]. split.
  - eapply (oldest_evicted_drop _). rewrite Hp, <- cols_order_asc.
    by rewrite fmap_drop.
  - exists c. split.
    + rewrite Hrows, fmap_app. apply elem_of_app. right.
      subst c c'. by apply list_elem_of_singleton.
    + by apply (list_elem_of_fmap_2 Sqlite.cols) in Hin.
Qed.

Lemma json_keeps_most_recent t now data fs :
  JsonSpec.consistent t fs → (t ≤ now)%Z →
  keeps_most_recent now data
    (JsonFile.store_record now data (live fs))
    (live (fst (exec no_faults now (SaveSummary data) fs))).
Proof.
  intros [Hwf Hlen] Ht.
  change (live (fst (exec no_faults now (SaveSummary data) fs)))
    with (JsonSpec.records (fst (exec no_faults now (SaveSummary data) fs))).
  rewrite JsonFacts.exec_records.
  change (live fs) with (JsonSpec.records fs).
  pose proof (JsonFacts.json_saved_length now data _ Hlen) as Hl.
  pose proof (JsonFacts.json_saved_perm now data _ Hlen) as Hp.
  destruct (JsonFacts.saved_new_record t now data _ Hwf Ht) as (c & Hin & Hc).
  unfold keeps_most_recent.
  split; [lia|]. split; [done|]. split.
  - by eapply oldest_evicted_drop.
  - exists c. split; [|done]. unfold JsonFile.store_record. subst c.
    destruct (list_find _ _) as [[i e]|] eqn:Hfind.
    + apply list_find_Some in Hfind as (Hi & _).
      apply list_elem_of_insert. by eapply lookup_lt_Some.
    + apply elem_of_app. right. by apply list_elem_of_singleton.
Qed.

(** C1. Starting from the empty store, under a clock that does not run
    backwards, every [saveSummary] leaves at most [MAX_SUMMARIES] records;
    it leaves exactly that many when its write made more; the records it
    removed were accessed no later than any record it kept; and the record
    it wrote is among those kept. This holds for the SQLite store and for
    the JSON store. *)
Theorem capacity_recency_eviction
    (trace : list (Z * op)) (now : Z) (data : SummaryData.t) :
  Sorted Z.le ((fst <$> trace) ++ [now]) →
  (let db := fst (run trace Sqlite.empty) in
   keeps_most_recent now data
     (Sqlite.cols <$> Sqlite.summaries (SqliteSpec.written now data db))
     (live (fst (exec no_faults now (SaveSummary data) db))))
  ∧ (let fs := fst (run trace JsonFile.empty) in
     keeps_most_recent now data
       (JsonFile.store_record now data (live fs))
       (live (fst (exec no_faults now (SaveSummary data) fs)))).
Proof.
  intros Hsorted. split.
  - apply (sqlite_keeps_most_recent now); [|lia].
    by apply SqliteFacts.sqlite_consistent_run.
  - apply (json_keeps_most_recent now); [|lia].
    by apply JsonFacts.json_consistent_run.
Qed.

Lemma capacity_recency_eviction_witness :
  Sorted Z.le ((fst <$> fill 101) ++ [200%Z])
  ∧ length (live (fst (exec no_faults 200 (SaveSummary (sample 101))
                         (fst (run (fill 101) Sqlite.empty))))) = 100%nat
  ∧ length (live (fst (exec no_faults 200 (SaveSummary (sample 101))
                         (fst (run (fill 101) JsonFile.empty))))) = 100%nat.
Proof.
  assert (Sorted Z.le ((fst <$> fill 101) ++ [200%Z])) as Hs
    by (refine (bool_decide_unpack _ _); vm_compute; exact I).
  split; [exact Hs|].
  destruct (capacity_recency_eviction (fill 101) 200 (sample 101) Hs)
    as [(_ & H1 & _) (_ & H2 & _)].
  split.
  - rewrite H1. vm_compute. reflexivity.
  - rewrite H2. vm_compute. reflexivity.
Defined.

(** ** C3 *)

Lemma filter_unique_key (l : list SummaryRecord) v s r :
  NoDup (key_of <$> l) → r ∈ l → has_key v s r →
  filter (has_key v s) l = [r].
Proof.
  intros Hnd Hin Hr. induction l as [|x l IH]; [by inversion Hin|].
  csimpl in Hnd. apply NoDup_cons in Hnd as [Hx Hnd].
  apply elem_of_cons in Hin as [<-|Hin].
  - rewrite filter_cons_True by done. f_equal. apply filter_none.
    apply Forall_forall. intros y Hy Hky. apply Hx.
    apply JsonFacts.key_of_has_key in Hr, Hky. rewrite Hr, <- Hky.
    by apply list_elem_of_fmap_2.
  - rewrite filter_cons_False; [by apply IH|].
    intros Hkx. apply Hx.
    apply JsonFacts.key_of_has_key in Hr, Hkx. rewrite Hkx, <- Hr.
    by apply list_elem_of_fmap_2.
Qed.

Lemma filter_fmap_cols (P : SummaryRecord → Prop) `{!∀ r, Decision (P r)}
    (rows : list Sqlite.Row) :
  filter P (Sqlite.cols <$> rows)
  = Sqlite.cols <$> filter (λ r, P (Sqlite.cols r)) rows.
Proof.
  induction rows as [|x rows IH]; [done|]. csimpl.
  rewrite !filter_cons. destruct (decide (P (Sqlite.cols x))); csimpl;
    by rewrite IH.
Qed.

Lemma new_record_has_key data created now :
  has_key (SummaryData.videoId data) (SummaryData.style data)
          (new_record data created now).
Proof. done. Qed.

Lemma sqlite_put_result t now data db :
  SqliteSpec.consistent t db → (t ≤ now)%Z →
  filter (has_key (SummaryData.videoId data) (SummaryData.style data))
         (live (fst (exec no_faults now (SaveSummary data) db)))
  = [new_record data (created_for data now (live db)) now].
Proof.
  intros [Hwf Hlen] Ht. rewrite SqliteFacts.exec_db.
  destruct (SqliteFacts.saved_new_row t now data db Hwf Ht) as (c & Hin & Hc).
  destruct (SqliteFacts.wf_saved t now data db Hwf Ht) as [_ _ Hk _].
  assert (c = created_for data now (live db)) as <-.
  { rewrite Hc. unfold created_for, live, sqlite_backend, Sqlite.matching.
    rewrite filter_fmap_cols. by destruct (filter _ (Sqlite.summaries db)). }
  apply filter_unique_key.
  - unfold live, sqlite_backend. by rewrite <- list_fmap_compose.
  - by apply (list_elem_of_fmap_2 Sqlite.cols) in Hin.
  - apply new_record_has_key.
Qed.

Lemma json_put_result t now data fs :
  JsonSpec.consistent t fs → (t ≤ now)%Z →
  filter (has_key (SummaryData.videoId data) (SummaryData.style data))
         (live (fst (exec no_faults now (SaveSummary data) fs)))
  = [new_record data (created_for data now (live fs)) now].
Proof.
  intros [Hwf Hlen] Ht.
  change (live (fst (exec no_faults now (SaveSummary data) fs)))
    with (JsonSpec.records (fst (exec no_faults now (SaveSummary data) fs))).
  rewrite JsonFacts.exec_records.
  change (live fs) with (JsonSpec.records fs).
  destruct (JsonFacts.saved_new_record t now data _ Hwf Ht) as (c & Hin & Hc).
  destruct (JsonFacts.wf_saved_records t now data _ Hwf Ht) as [Hk _].
  assert (c = created_for data now (JsonSpec.records fs)) as <-.
  { rewrite Hc. unfold created_for. rewrite head_filter_list_find.
    by destruct (list_find _ _) as [[i e]|]. }
  apply filter_unique_key; [done..|]. apply new_record_has_key.
Qed.

Lemma sorted_snoc2 (l : list Z) t1 t2 :
  Sorted Z.le (l ++ [t1; t2]) → Sorted Z.le (l ++ [t1]) ∧ (t1 ≤ t2)%Z.
Proof.
  intros Hs%(Sorted_StronglySorted Z.le).
  replace (l ++ [t1; t2]) with ((l ++ [t1]) ++ [t2]) in Hs
    by (by rewrite <- app_assoc).
  apply StronglySorted_app in Hs as (Hle & Hs & _). split.
  - by apply StronglySorted_Sorted.
  - apply Hle; [|by apply list_elem_of_singleton].
    apply elem_of_app. right. by apply list_elem_of_singleton.
Qed.

Section Upsert.
Context {S : Type} `{Backend S} (I : Z → S → Prop).
Hypothesis I_init : ∀ trace now,
  Sorted Z.le ((fst <$> trace) ++ [now]) → I now (fst (run trace empty_store)).
Hypothesis I_step : ∀ t now o s,
  I t s → (t ≤ now)%Z → I now (fst (exec no_faults now o s)).
Hypothesis put_result : ∀ t now data s,
  I t s → (t ≤ now)%Z →
  filter (has_key (SummaryData.videoId data) (SummaryData.style data))
         (live (fst (exec no_faults now (SaveSummary data) s)))
  = [new_record data (created_for data now (live s)) now].

Lemma upsert_generic trace t1 t2 d1 d2 :
  Sorted Z.le ((fst <$> trace) ++ [t1; t2]) →
  SummaryData.videoId d1 = SummaryData.videoId d2 →
  SummaryData.style d1 = SummaryData.style d2 →
  upsert_result trace t1 t2 d1 d2.
Proof.
  intros [Hs Ht]%sorted_snoc2 Hv Hst. unfold upsert_result.
  set (s0 := fst (run trace empty_store)).
  set (s1 := fst (exec no_faults t1 (SaveSummary d1) s0)).
  assert (I t1 s0) as H0 by by apply I_init.
  assert (I t1 s1) as H1 by (apply (I_step t1); [done | lia]).
  pose proof (put_result t1 t1 d1 s0 H0 (Z.le_refl _)) as Hr1.
  pose proof (put_result t1 t2 d2 s1 H1 Ht) as Hr2.
  fold s1 in Hr1. rewrite <- Hv, <- Hst in Hr2.
  eexists _, _. split; [exact Hr1|]. split; [exact Hr2|].
  split; [|done]. simpl. unfold created_for.
  by rewrite <- Hv, <- Hst, Hr1.
Qed.
End Upsert.

(** C3. In every store reached from the empty one under a clock that does
    not run backwards, two calls of [saveSummary] with the same video id and
    style leave one record under that key; its [created_at] is that of the
    record after the first call, and its [summary], [title] and
    [accessed_at] are those of the second call. This holds for the SQLite
    store and for the JSON store. *)
Theorem upsert_keeps_created
    (trace : list (Z * op)) (t1 t2 : Z) (d1 d2 : SummaryData.t) :
  Sorted Z.le ((fst <$> trace) ++ [t1; t2]) →
  SummaryData.videoId d1 = SummaryData.videoId d2 →
  SummaryData.style d1 = SummaryData.style d2 →
  upsert_result (S := Sqlite.Db) trace t1 t2 d1 d2
  ∧ upsert_result (S := JsonFile.Fs) trace t1 t2 d1 d2.
Proof.
  intros Hs Hv Hst. split.
  - apply (upsert_generic SqliteSpec.consistent); try done.
    + apply SqliteFacts.sqlite_consistent_run.
    + apply SqliteFacts.sqlite_consistent_exec.
    + apply sqlite_put_result.
  - apply (upsert_generic JsonSpec.consistent); try done.
    + apply JsonFacts.json_consistent_run.
    + apply JsonFacts.json_consistent_exec.
    + apply json_put_result.
Qed.

Lemma upsert_keeps_created_witness :
  Sorted Z.le ((fst <$> fill 3) ++ [5; 9]%Z)
  ∧ SummaryData.videoId (sample 1) = SummaryData.videoId (revised 1)
  ∧ SummaryData.style (sample 1) = SummaryData.style (revised 1)
  ∧ upsert_result (S := Sqlite.Db) (fill 3) 5 9 (sample 1) (revised 1)
  ∧ upsert_result (S := JsonFile.Fs) (fill 3) 5 9 (sample 1) (revised 1).
Proof.
  assert (Sorted Z.le ((fst <$> fill 3) ++ [5; 9]%Z)) as Hs
    by (refine (bool_decide_unpack _ _); vm_compute; exact I).
  split; [exact Hs|]. split; [reflexivity|]. split; [reflexivity|].
  exact (upsert_keeps_created (fill 3) 5 9 (sample 1) (revised 1)
           Hs eq_refl eq_refl).
Defined.

(** ** C7 *)

Lemma sqlite_get_effect t0 now v s (db : Sqlite.Db) :
  (t0 ≤ now)%Z → get_effect t0 now v s db.
Proof.
  intros Ht. unfold get_effect, exec, live, sqlite_backend.
  rewrite SqliteFacts.sqlite_get_no_faults.
  destruct (head (Sqlite.matching v s (Sqlite.summaries db)))
    as [row|] eqn:Hhead; cbn [fst snd reply_of].
  - assert (row ∈ Sqlite.matching v s (Sqlite.summaries db)) as Hrow.
    { destruct (Sqlite.matching _ _ _); simplify_eq/=. by left. }
    apply list_elem_of_filter in Hrow as [Hkey Hrow].
    unfold Sqlite.update_accessed_at, Sqlite.with_rows.
    cbn [fst Sqlite.summaries]. split; [by rewrite !length_fmap|].
    assert (∀ i r, (Sqlite.cols <$> Sqlite.summaries db) !! i = Some r →
              ((Sqlite.cols <$>
                 ((λ r0, if decide (has_key v s (Sqlite.cols r0))
                         then Sqlite.mkRow (Sqlite.id r0)
                                (set_accessed_at now (Sqlite.cols r0))
                         else r0) <$> Sqlite.summaries db)) !! i
               = Some (if decide (has_key v s r)
                       then set_accessed_at now r else r))) as Hlook.
    { intros i r. rewrite !list_lookup_fmap.
      destruct (Sqlite.summaries db !! i) as [x|]; [|done]. simpl.
      intros [= <-]. by destruct (decide _). }
    split; [|split].
    + intros i r Hi. rewrite (Hlook i r Hi).
      destruct (decide (has_key v s r)); [by right | by left].
    + intros _. apply list_elem_of_lookup in Hrow as [i Hi].
      exists i, (Sqlite.cols row), (Sqlite.cols row).
      assert ((Sqlite.cols <$> Sqlite.summaries db) !! i
              = Some (Sqlite.cols row)) as Hi'
        by (by rewrite list_lookup_fmap, Hi).
      split; [done|]. split; [done|]. split; [done|]. split; [done|].
      split; [|simpl; lia].
      rewrite (Hlook i _ Hi'). by rewrite decide_True.
    + intros Hno. exfalso. apply Hno. apply Exists_exists.
      exists (Sqlite.cols row). split; [|done]. by apply list_elem_of_fmap_2.
  - split; [done|]. split; [by left|]. split; [|done].
    intros (r & Hr & Hkey)%Exists_exists. exfalso.
    apply list_elem_of_fmap in Hr as (row & -> & Hrow).
    assert (row ∈ Sqlite.matching v s (Sqlite.summaries db)) as Hin
      by (by apply list_elem_of_filter).
    destruct (Sqlite.matching _ _ _); [by inversion Hin | done].
Qed.

Lemma json_get_effect t0 now v s (fs : JsonFile.Fs) :
  (t0 ≤ now)%Z → get_effect t0 now v s fs.
Proof.
  intros Ht. unfold get_effect, exec, live, json_backend.
  rewrite JsonFacts.json_get_no_faults. fold (JsonSpec.records fs).
  destruct (list_find _ _) as [[i r]|] eqn:Hfind; cbn [fst snd reply_of].
  - apply list_find_Some in Hfind as (Hi & Hkey & _).
    cbn [JsonFile.file default from_option id].
    pose proof (lookup_lt_Some _ _ _ Hi) as Hlt.
    split; [apply length_insert|]. split; [|split].
    + intros j x Hj. destruct (decide (i = j)) as [<-|Hne].
      * right. rewrite Hi in Hj. injection Hj as <-.
        split; [done|]. by apply list_lookup_insert_eq.
      * left. by rewrite list_lookup_insert_ne.
    + intros _. exists i, r, (set_accessed_at now r).
      split; [done|]. split; [done|]. split; [done|]. split; [done|].
      split; [by apply list_lookup_insert_eq | simpl; lia].
    + intros Hno. exfalso. apply Hno. apply Exists_exists.
      exists r. split; [|done]. by eapply list_elem_of_lookup_2.
  - split; [done|]. split; [by left|]. split; [|done].
    intros Hex. exfalso. apply list_find_None in Hfind.
    apply Exists_exists in Hex as (r & Hr & Hkey).
    rewrite Forall_forall in Hfind. by apply (Hfind r).
Qed.

(** C7. In every store, [getCachedSummary] on a hit sets [accessed_at] of
    the stored record to the clock reading of the call, which is not before
    any reading [t0] taken before the call, and the store returned holds
    that update; every other field of the record and every other record
    stay as they are. On a miss it returns nothing and the store stays as
    it is. This holds for the SQLite store and for the JSON store. *)
Theorem get_stamps_and_frames (t0 now : Z) (v s : jsstring)
    (db : Sqlite.Db) (fs : JsonFile.Fs) :
  (t0 ≤ now)%Z →
  get_effect t0 now v s db ∧ get_effect t0 now v s fs.
Proof.
  intros Ht. split; [by apply sqlite_get_effect | by apply json_get_effect].
Qed.

Lemma get_stamps_and_frames_witness :
  (3 ≤ 7)%Z
  ∧ get_effect 3 7 (SummaryData.videoId (sample 1)) (js "detailed")
               (fst (run (fill 3) Sqlite.empty))
  ∧ get_effect 3 7 (SummaryData.videoId (sample 1)) (js "detailed")
               (fst (run (fill 3) JsonFile.empty)).
Proof.
  split; [lia|].
  exact (get_stamps_and_frames 3 7 (SummaryData.videoId (sample 1))
           (js "detailed") (fst (run (fill 3) Sqlite.empty))
           (fst (run (fill 3) JsonFile.empty)) ltac:(lia)).
Defined.

(** ** C10 *)

Lemma sqlite_exists_reads_only now v s (db : Sqlite.Db) :
  exists_reads_only now v s db.
Proof.
  split.
  - unfold exec, sqlite_backend. rewrite SqliteFacts.sqlite_exists_no_faults.
    cbn [reply_of]. do 2 f_equal. unfold live, Sqlite.matching.
    induction (Sqlite.summaries db) as [|x rows IH]; [done|].
    csimpl. rewrite filter_cons.
    destruct (decide (has_key v s (Sqlite.cols x))) as [Hx|Hx].
    + simpl. symmetry. apply bool_decide_eq_true. by left.
    + rewrite IH. apply bool_decide_ext. rewrite Exists_cons. tauto.
  - intros f. unfold exec, sqlite_backend, Sqlite.checkSummaryExists,
      bind, call, ret. by destruct (f 0%nat).
Qed.

Lemma json_exists_reads_only now v s (fs : JsonFile.Fs) :
  exists_reads_only now v s fs.
Proof.
  split.
  - unfold exec, json_backend. by rewrite JsonFacts.json_exists_no_faults.
  - intros f. unfold exec, json_backend, JsonFile.checkSummaryExists,
      JsonFile.readDatabase, JsonFile.existsSync, JsonFile.readFileSync,
      JsonFile.console_error, bind, try_catch, call, ret.
    destruct (JsonFile.file fs) as [l|]; simpl; [|done].
    by destruct (f 0%nat).
Qed.

Section ExistsNeverMatters.
Context {S : Type} `{Backend S}.
Hypothesis exists_pure : ∀ now v s (st : S), exists_reads_only now v s st.

Lemma exists_never_matters_generic trace : ∀ st : S,
  exists_never_matters trace st.
Proof.
  unfold exists_never_matters.
  induction trace as [|[now o] trace IH]; intros st; [done|].
  rewrite (run_cons now o trace st). cbn [fst snd replies_to_others].
  unfold others. rewrite filter_cons. cbn [snd].
  destruct o as [v s|v s|data|n]; cbn [is_exists].
  - rewrite decide_False by done. fold (others trace).
    destruct (exists_pure now v s st) as [-> _]. cbn [fst]. apply IH.
  - rewrite decide_True by done. fold (others trace).
    rewrite run_cons. cbn [fst snd].
    destruct (IH (fst (exec no_faults now (GetCachedSummary v s) st))) as [-> ->]. done.
  - rewrite decide_True by done. fold (others trace).
    rewrite run_cons. cbn [fst snd].
    destruct (IH (fst (exec no_faults now (SaveSummary data) st))) as [-> ->]. done.
  - rewrite decide_True by done. fold (others trace).
    rewrite run_cons. cbn [fst snd].
    destruct (IH (fst (exec no_faults now (GetRecentSummaries n) st))) as [-> ->].
    done.
Qed.
End ExistsNeverMatters.

(** C10. [checkSummaryExists] returns [true] exactly when a record with the
    key is in the store and leaves the store, every stamp included, as it
    is; so a run with its calls of [checkSummaryExists] left out ends in the
    same store and gives the same replies to all other calls, evictions
    included. This holds for the SQLite store and for the JSON store. *)
Theorem exists_is_pure_read (now : Z) (v s : jsstring)
    (trace : list (Z * op)) (db : Sqlite.Db) (fs : JsonFile.Fs) :
  exists_reads_only now v s db ∧ exists_reads_only now v s fs
  ∧ exists_never_matters trace db ∧ exists_never_matters trace fs.
Proof.
  split; [apply sqlite_exists_reads_only|].
  split; [apply json_exists_reads_only|]. split.
  - apply exists_never_matters_generic. intros. apply sqlite_exists_reads_only.
  - apply exists_never_matters_generic. intros. apply json_exists_reads_only.
Qed.

(** ** C8 *)

(** C8, as stated, fails when a statement after the [INSERT OR REPLACE]
    fails: on a table of 100 rows the insert has taken effect, the failing
    [DELETE] is caught and logged, [saveSummary] returns, and the table
    holds 101 rows. *)
Lemma failed_delete_counterexample :
  let db := fst (run (fill 100) Sqlite.empty) in
  let r := Sqlite.saveSummary delete_fails 200 (sample 100) db in
  snd r = Ok tt
  ∧ Sqlite.console (fst r) = [Sqlite.save_error]
  ∧ length (Sqlite.summaries db) = 100%nat
  ∧ length (Sqlite.summaries (fst r)) = 101%nat
  ∧ Sqlite.summaries (fst r) ≠ Sqlite.summaries db.
Proof.
  cbv zeta. split; [by vm_compute|]. split; [by vm_compute|].
  split; [by vm_compute|]. split; [by vm_compute|].
  intros Heq. apply (f_equal length) in Heq. vm_compute in Heq. discriminate.
Qed.

(** C8, amended. [saveSummary] never throws, whichever storage calls fail.
    In the SQLite store a failing statement is logged and ends the call:
    when the [INSERT OR REPLACE] fails the table stays as it is; when the
    count or the [DELETE] fails the table stays as the insert left it. In
    the JSON store a failing read and a failing write are logged, and when
    the write fails the file stays as it is. *)
Theorem put_never_raises (f : faults) (now : Z) (data : SummaryData.t) :
  (∀ db, snd (Sqlite.saveSummary f now data db) = Ok tt)
  ∧ (∀ fs, snd (JsonFile.saveSummary f now data fs) = Ok tt)
  ∧ (∀ db, f 0%nat = true →
       fst (Sqlite.saveSummary f now data db) = logged Sqlite.save_error db)
  ∧ (∀ db, f 0%nat = false → f 1%nat = true →
       fst (Sqlite.saveSummary f now data db)
       = logged Sqlite.save_error (SqliteSpec.written now data db))
  ∧ (∀ db, f 0%nat = false → f 1%nat = false → f 2%nat = true →
       (MAX_SUMMARIES
        < length (Sqlite.summaries (SqliteSpec.written now data db)))%nat →
       fst (Sqlite.saveSummary f now data db)
       = logged Sqlite.save_error (SqliteSpec.written now data db))
  ∧ (∀ fs, f 1%nat = true →
       let after_read := fst (JsonFile.readDatabase (f 0%nat) fs) in
       fst (JsonFile.saveSummary f now data fs)
       = JsonFile.mkFs (JsonFile.file fs)
           (JsonFile.console after_read ++ [JsonFile.write_error]))
  ∧ (∀ fs, is_Some (JsonFile.file fs) → f 0%nat = true →
       JsonFile.console (fst (JsonFile.saveSummary f now data fs))
       = JsonFile.console fs
         ++ JsonFile.read_error
            :: (if f 1%nat then [JsonFile.write_error] else [])).
Proof.
  split; [|split; [|split; [|split; [|split; [|split]]]]].
  - intros db. unfold Sqlite.saveSummary, try_catch, bind, call, ret,
      Sqlite.console_error.
    destruct (f 0%nat); [done|]. simpl.
    destruct (f 1%nat); [done|]. simpl.
    destruct (MAX_SUMMARIES <? _)%nat; [|done].
    by destruct (f 2%nat).
  - intros fs. unfold JsonFile.saveSummary, JsonFile.readDatabase,
      JsonFile.writeDatabase, JsonFile.existsSync, JsonFile.readFileSync,
      JsonFile.writeFileSync, JsonFile.console_error, try_catch, bind, call,
      ret.
    destruct (JsonFile.file fs); simpl.
    + by destruct (f 0%nat), (f 1%nat).
    + by destruct (f 1%nat).
  - intros db H0. unfold Sqlite.saveSummary, try_catch, bind, call.
    by rewrite H0.
  - intros db H0 H1. unfold Sqlite.saveSummary, try_catch, bind, call.
    rewrite H0. simpl. by rewrite H1.
  - intros db H0 H1 H2 Hlen.
    unfold Sqlite.saveSummary, try_catch, bind, call, ret.
    rewrite H0. cbn [Sqlite.insert_or_replace Sqlite.select_count].
    rewrite H1. apply Nat.ltb_lt in Hlen.
    unfold SqliteSpec.written in Hlen. cbn [Sqlite.insert_or_replace fst] in Hlen.
    rewrite Hlen. by rewrite H2.
  - intros fs H1. unfold JsonFile.saveSummary, JsonFile.readDatabase,
      JsonFile.writeDatabase, JsonFile.existsSync, JsonFile.readFileSync,
      JsonFile.writeFileSync, JsonFile.console_error, try_catch, bind, call,
      ret.
    rewrite H1. destruct (JsonFile.file fs) eqn:Hf; simpl.
    + destruct (f 0%nat); simpl; by rewrite ?Hf.
    + by rewrite Hf.
  - intros fs [l Hf] H0. unfold JsonFile.saveSummary, JsonFile.readDatabase,
      JsonFile.writeDatabase, JsonFile.existsSync, JsonFile.readFileSync,
      JsonFile.writeFileSync, JsonFile.console_error, try_catch, bind, call,
      ret.
    rewrite H0, Hf. simpl. destruct (f 1%nat); simpl; [|done].
    by rewrite <- app_assoc.
Qed.

Lemma put_never_raises_witness :
  let db := fst (run (fill 3) Sqlite.empty) in
  let fs := fst (run (fill 3) JsonFile.empty) in
  let f : faults := λ _, true in
  f 0%nat = true ∧ f 1%nat = true
  ∧ fst (Sqlite.saveSummary f 9 (sample 7) db) = logged Sqlite.save_error db
  ∧ fst (JsonFile.saveSummary f 9 (sample 7) fs)
    = JsonFile.mkFs (JsonFile.file fs)
        (JsonFile.console (fst (JsonFile.readDatabase true fs))
           ++ [JsonFile.write_error]).
Proof.
  cbv zeta. split; [reflexivity|]. split; [reflexivity|].
  pose proof (put_never_raises (λ _, true) 9 (sample 7))
    as (_ & _ & Hs & _ & _ & Hj & _).
  split.
  - exact (Hs (fst (run (fill 3) Sqlite.empty)) eq_refl).
  - exact (Hj (fst (run (fill 3) JsonFile.empty)) eq_refl).
Defined.

(** ** C9 *)

(** C9, as stated, fails on a hit of [getCachedSummary]: the SQLite store
    returns the stamp the row had, the JSON store the new one. *)
Lemma get_reply_counterexample :
  let trace := [(1%Z, SaveSummary (sample 0));
                (2%Z, GetCachedSummary (SummaryData.videoId (sample 0)) (js "detailed"))] in
  snd (run trace Sqlite.empty) ≠ snd (run trace JsonFile.empty).
Proof. cbv zeta. vm_compute. discriminate. Qed.

(** The two results of that call as the stores return them: the row of the
    SQLite store has its [id] and the stamp of the [saveSummary], the record
    of the JSON store has the stamp of the call. *)
Example get_hit_results :
  let save := (1%Z, SaveSummary (sample 0)) in
  let key := SummaryData.videoId (sample 0) in
  snd (sqlite_exec no_faults 2 (GetCachedSummary key (js "detailed"))
         (fst (run [save] Sqlite.empty)))
  = SRow (Some (Sqlite.mkRow 1 (new_record (sample 0) 1 1)))
  ∧ snd (exec no_faults 2 (GetCachedSummary key (js "detailed"))
           (fst (run [save] JsonFile.empty)))
    = RRecord (Some (new_record (sample 0) 1 2)).
Proof. cbv zeta. split; vm_compute; reflexivity. Qed.

(** With equal stamps the order of [getRecentSummaries] differs: the SQLite
    store moves a replaced row to the end of the table, the JSON store
    replaces it in place. *)
Example equal_stamps_diverge :
  let trace := [(1%Z, SaveSummary (sample 0)); (1%Z, SaveSummary (sample 1));
                (1%Z, SaveSummary (revised 0)); (1%Z, GetRecentSummaries 2)] in
  snd (run trace Sqlite.empty) ≠ snd (run trace JsonFile.empty).
Proof. cbv zeta. vm_compute. discriminate. Qed.

(** A negative limit is no limit in SQL and counts from the end in [slice]. *)
Example negative_limit_diverges :
  let trace := [(1%Z, SaveSummary (sample 0)); (2%Z, GetRecentSummaries (-1))] in
  snd (run trace Sqlite.empty) ≠ snd (run trace JsonFile.empty).
Proof. cbv zeta. vm_compute. discriminate. Qed.

Lemma filter_key_perm (l1 l2 : list SummaryRecord) v s :
  NoDup (key_of <$> l1) → l1 ≡ₚ l2 →
  filter (has_key v s) l1 = filter (has_key v s) l2.
Proof.
  intros Hnd Hp. destruct (filter (has_key v s) l2) as [|r rest] eqn:Hf.
  - apply Permutation_nil_r. by rewrite Hp, Hf.
  - assert (r ∈ filter (has_key v s) l2) as [Hr Hin]%list_elem_of_filter
      by (rewrite Hf; by left).
    rewrite <- Hf.
    rewrite (filter_unique_key l1 v s r), (filter_unique_key l2 v s r);
      try done; [by rewrite <- Hp | by rewrite Hp].
Qed.

Lemma insert_found_fmap (l : list SummaryRecord) i r v s
    (g : SummaryRecord → SummaryRecord) :
  NoDup (key_of <$> l) → l !! i = Some r → has_key v s r →
  <[i := g r]> l = (λ x, if decide (has_key v s x) then g x else x) <$> l.
Proof.
  intros Hnd Hi Hr. apply list_eq. intros j. rewrite list_lookup_fmap.
  destruct (decide (i = j)) as [<-|Hne].
  - rewrite list_lookup_insert_eq by (by eapply lookup_lt_Some).
    rewrite Hi. simpl. by rewrite decide_True.
  - rewrite list_lookup_insert_ne by done.
    destruct (l !! j) as [x|] eqn:Hj; [|done]. simpl.
    destruct (decide (has_key v s x)) as [Hx|]; [|done].
    exfalso. apply Hne. apply (NoDup_lookup (key_of <$> l) i j (v, s)); [done|..].
    + rewrite list_lookup_fmap, Hi. simpl. f_equal.
      by apply JsonFacts.key_of_has_key.
    + rewrite list_lookup_fmap, Hj. simpl. f_equal.
      by apply JsonFacts.key_of_has_key.
Qed.

Lemma store_record_perm now data (l : list SummaryRecord) :
  NoDup (key_of <$> l) →
  JsonFile.store_record now data l
  ≡ₚ filter (λ r, ¬ has_key (SummaryData.videoId data)
                            (SummaryData.style data) r) l
     ++ [new_record data (created_for data now l) now].
Proof.
  intros Hnd. unfold JsonFile.store_record, created_for.
  rewrite head_filter_list_find.
  destruct (list_find _ l) as [[i e]|] eqn:Hfind; simpl.
  - apply list_find_Some in Hfind as (Hi & He & _).
    pose proof (lookup_lt_Some _ _ _ Hi) as Hlt.
    rewrite insert_take_drop by done.
    rewrite <- Permutation_middle, <- Permutation_cons_append.
    apply Permutation_cons; [done|].
    rewrite <- delete_take_drop.
    pose proof (delete_Permutation l i e Hi) as Hp.
    rewrite Hp in Hnd. csimpl in Hnd. apply NoDup_cons in Hnd as [Hk _].
    rewrite Hp at 2. rewrite filter_cons_False by tauto.
    symmetry. rewrite filter_all; [done|].
    apply Forall_forall. intros x Hx Hkx. apply Hk.
    apply JsonFacts.key_of_has_key in He, Hkx. rewrite He, <- Hkx.
    by apply list_elem_of_fmap_2.
  - apply list_find_None in Hfind. rewrite filter_all; [done|].
    eapply Forall_impl; [exact Hfind|]. done.
Qed.

Lemma sqlite_get_live now v s db :
  live (fst (Sqlite.update_accessed_at now v s db))
  = stamp_key now v s <$> live db.
Proof.
  unfold live, sqlite_backend, Sqlite.update_accessed_at, Sqlite.with_rows.
  cbn [fst Sqlite.summaries]. rewrite <- !list_fmap_compose.
  apply list_fmap_ext. intros i x _. simpl. unfold stamp_key.
  by destruct (decide _).
Qed.

Lemma sqlite_written_live now data db :
  Sqlite.cols <$> Sqlite.summaries (SqliteSpec.written now data db)
  = filter (λ r, ¬ has_key (SummaryData.videoId data)
                           (SummaryData.style data) r) (live db)
    ++ [new_record data (created_for data now (live db)) now].
Proof.
  destruct (SqliteFacts.written_rows now data db) as (c & -> & ->).
  rewrite fmap_app. unfold live, sqlite_backend. rewrite filter_fmap_cols.
  f_equal. csimpl. do 2 f_equal. unfold created_for, Sqlite.matching.
  rewrite filter_fmap_cols. by destruct (filter _ (Sqlite.summaries db)).
Qed.

Lemma elem_of_insert_inv {A} (l : list A) i x z :
  z ∈ <[i := x]> l → z = x ∨ z ∈ l.
Proof.
  revert i. induction l as [|y l IH]; intros [|i]; simpl;
    rewrite ?elem_of_cons; try tauto.
  intros [->|Hz]; [tauto|]. destruct (IH i Hz); tauto.
Qed.

Lemma NoDup_insert_fresh {A} (l : list A) i x :
  NoDup l → x ∉ l → NoDup (<[i := x]> l).
Proof.
  revert i. induction l as [|y l IH]; intros [|i] Hnd Hx; simpl; try done.
  - apply NoDup_cons in Hnd as [_ Hnd]. apply NoDup_cons. split; [|done].
    intros Hin. apply Hx. by right.
  - apply NoDup_cons in Hnd as [Hy Hnd]. apply NoDup_cons. split.
    + intros [->|Hin]%elem_of_insert_inv; [|done]. apply Hx. by left.
    + apply IH; [done|]. intros Hin. apply Hx. by right.
Qed.

Lemma fresh_stamp (l : list SummaryRecord) t now :
  Forall (λ r, (accessed_at r ≤ t)%Z) l → (t < now)%Z →
  now ∉ accessed_at <$> l.
Proof.
  intros Hs Ht [r [-> Hr]]%list_elem_of_fmap.
  rewrite Forall_forall in Hs. apply Hs in Hr. lia.
Qed.

(** The stamps stay distinct when a record takes a stamp later than all. *)
Lemma stamps_after_write (l : list SummaryRecord) t now data c
    (Q : SummaryRecord → Prop) `{!∀ r, Decision (Q r)} :
  NoDup (accessed_at <$> l) → Forall (λ r, (accessed_at r ≤ t)%Z) l →
  (t < now)%Z →
  NoDup (accessed_at <$> filter Q l ++ [new_record data c now]).
Proof.
  intros Hnd Hs Ht. rewrite fmap_app. apply NoDup_app. split; [|split].
  - eapply sublist_NoDup; [exact Hnd|]. apply fmap_sublist, sublist_filter.
  - intros z [r [-> [_ Hr]%list_elem_of_filter]]%list_elem_of_fmap.
    intros Hin%list_elem_of_singleton. simpl in Hin.
    rewrite Forall_forall in Hs. apply Hs in Hr. lia.
  - apply NoDup_singleton.
Qed.

Lemma stamps_after_get (l : list SummaryRecord) t now i r :
  NoDup (accessed_at <$> l) → Forall (λ r, (accessed_at r ≤ t)%Z) l →
  (t < now)%Z →
  NoDup (accessed_at <$> <[i := set_accessed_at now r]> l).
Proof.
  intros Hnd Hs Ht. rewrite list_fmap_insert. simpl.
  apply NoDup_insert_fresh; [done|]. by apply (fresh_stamp l t).
Qed.

Lemma sort_oldest_unique (l1 l2 : list SummaryRecord) :
  NoDup (accessed_at <$> l1) → l1 ≡ₚ l2 →
  JsonFile.sort_oldest_first l1 = JsonFile.sort_oldest_first l2.
Proof. apply (stable_sort_unique _ accessed_at JsonFacts.oldest_key). Qed.

Lemma sort_newest_unique (l1 l2 : list SummaryRecord) :
  NoDup (accessed_at <$> l1) → l1 ≡ₚ l2 →
  JsonFile.sort_newest_first l1 = JsonFile.sort_newest_first l2.
Proof.
  intros Hnd. apply (stable_sort_unique _ (λ r, - accessed_at r)%Z
                       JsonFacts.newest_key).
  rewrite (list_fmap_compose accessed_at Z.opp).
  apply NoDup_fmap_2; [|done]. intros x y. lia.
Qed.

Lemma sqlite_exec_fst f now o (db : Sqlite.Db) :
  fst (sqlite_exec f now o db) = fst (exec f now o db).
Proof.
  unfold exec, sqlite_backend, sqlite_exec.
  destruct o as [v s|v s|data|n].
  - by destruct (Sqlite.checkSummaryExists f v s db) as [? []].
  - by destruct (Sqlite.getCachedSummary f now v s db) as [? []].
  - by destruct (Sqlite.saveSummary f now data db) as [? []].
  - by destruct (Sqlite.getRecentSummaries f n db) as [? []].
Qed.

(** One call keeps the two stores related and its results agree. *)
Lemma related_step t now o db fs :
  related t db fs → (t < now)%Z → limit_nonneg o →
  related now (fst (sqlite_exec no_faults now o db))
              (fst (exec no_faults now o fs))
  ∧ results_agree now o (live db) (snd (sqlite_exec no_faults now o db))
                  (snd (exec no_faults now o fs)).
Proof.
  rewrite sqlite_exec_fst.
  intros (Hc1 & Hc2 & Hp & Hst) Ht Hlim.
  assert (t ≤ now)%Z as Hle by lia.
  pose proof (SqliteFacts.sqlite_consistent_exec t now o db Hc1 Hle) as Hc1'.
  pose proof (JsonFacts.json_consistent_exec t now o fs Hc2 Hle) as Hc2'.
  pose proof Hc1 as [[_ _ Hk1 _] _]. pose proof Hc2 as [[Hk2 Hs2] _].
  assert (NoDup (key_of <$> live db)) as Hk1'.
  { unfold live, sqlite_backend. by rewrite <- list_fmap_compose. }
  change (JsonSpec.records fs) with (live fs) in Hk2, Hs2.
  unfold related. split; [split; [done|]; split; [done|]|].
  - (* the stores *)
    change (live (fst (exec no_faults now o fs)))
      with (JsonSpec.records (fst (exec no_faults now o fs))).
    rewrite JsonFacts.exec_records. unfold live at 1, sqlite_backend at 1.
    rewrite SqliteFacts.exec_db.
    change (JsonSpec.records fs) with (live fs).
    destruct o as [v s|v s|data|n]; [done| | |done].
    + (* get *)
      pose proof (filter_key_perm _ _ v s Hk1' Hp) as Hf.
      pose proof (head_filter_list_find (has_key v s) (live fs)) as Hh.
      rewrite <- Hf in Hh. unfold live at 1, sqlite_backend in Hh.
      rewrite filter_fmap_cols in Hh. unfold Sqlite.matching.
      destruct (list_find _ (live fs)) as [[i r]|] eqn:Hfind;
        destruct (filter _ (Sqlite.summaries db)) as [|row rest];
        simpl in Hh; try discriminate Hh; [|done].
      injection Hh as <-. cbn [head].
      apply list_find_Some in Hfind as (Hi & Hr & _).
      change (Sqlite.cols <$>
                Sqlite.summaries (fst (Sqlite.update_accessed_at now v s db)))
        with (live (fst (Sqlite.update_accessed_at now v s db))).
      rewrite sqlite_get_live. split.
      * rewrite (insert_found_fmap _ i (Sqlite.cols row) v s
                   (set_accessed_at now)); [|done..].
        by apply fmap_Permutation.
      * by apply (stamps_after_get _ t).
    + (* put *)
      destruct Hc1 as [Hwf1 Hlen1]. destruct Hc2 as [Hwf2 Hlen2].
      pose proof (SqliteFacts.sqlite_saved_perm t now data db Hwf1 Hle) as Hp1.
      cbv zeta in Hp1.
      apply (fmap_Permutation Sqlite.cols) in Hp1.
      rewrite fmap_drop, cols_order_asc in Hp1.
      rewrite <- (length_fmap Sqlite.cols) in Hp1.
      rewrite sqlite_written_live in Hp1.
      pose proof (JsonFacts.json_saved_perm now data _ Hlen2) as Hp2.
      change (JsonSpec.records fs) with (live fs) in Hp2.
      pose proof (store_record_perm now data (live fs) Hk2) as Hw2.
      set (P := λ r, ¬ has_key (SummaryData.videoId data)
                               (SummaryData.style data) r) in *.
      assert (created_for data now (live db) = created_for data now (live fs))
        as Hcr.
      { unfold created_for. by rewrite (filter_key_perm _ _ _ _ Hk1' Hp). }
      assert (filter P (live db)
                ++ [new_record data (created_for data now (live db)) now]
              ≡ₚ JsonFile.store_record now data (live fs)) as Hw.
      { rewrite Hw2, Hcr. by rewrite Hp. }
      assert (NoDup (accessed_at <$> JsonFile.store_record now data (live fs)))
        as Hstw.
      { rewrite Hw2. by apply (stamps_after_write _ t). }
      assert (NoDup (accessed_at <$> filter P (live db)
                ++ [new_record data (created_for data now (live db)) now]))
        as Hstw1 by (by rewrite Hw).
      rewrite (sort_oldest_unique _ _ Hstw1 Hw) in Hp1.
      rewrite Hw in Hp1. split.
      * by rewrite Hp1, Hp2.
      * rewrite Hp2. eapply sublist_NoDup;
          [|apply fmap_sublist, sublist_drop].
        unfold JsonFile.sort_oldest_first. by rewrite stable_sort_perm.
  - (* the results *)
    destruct o as [v s|v s|data|n].
    + destruct (sqlite_exists_reads_only now v s db) as [He _].
      unfold exec, sqlite_backend in He.
      rewrite SqliteFacts.sqlite_exists_no_faults in He.
      cbn [reply_of] in He. injection He as He.
      destruct (json_exists_reads_only now v s fs) as [-> _].
      unfold sqlite_exec. rewrite SqliteFacts.sqlite_exists_no_faults.
      cbn [snd sqlite_result_of results_agree]. rewrite He.
      apply bool_decide_ext. rewrite !Exists_exists. by setoid_rewrite Hp.
    + unfold exec, json_backend, sqlite_exec.
      rewrite SqliteFacts.sqlite_get_no_faults, JsonFacts.json_get_no_faults.
      fold (live fs).
      pose proof (filter_key_perm _ _ v s Hk1' Hp) as Hf.
      pose proof (head_filter_list_find (has_key v s) (live fs)) as Hh.
      rewrite <- Hf in Hh. unfold live at 1, sqlite_backend in Hh.
      rewrite filter_fmap_cols in Hh. unfold Sqlite.matching.
      change (JsonSpec.records fs) with (live fs).
      destruct (filter _ (Sqlite.summaries db)) as [|row rest] eqn:Hrows;
        destruct (list_find _ (live fs)) as [[i r]|];
        simpl in Hh; try discriminate Hh; [done|].
      injection Hh as <-.
      cbn [snd sqlite_result_of reply_of results_agree head].
      assert (row ∈ filter (λ r, has_key v s (Sqlite.cols r))
                           (Sqlite.summaries db)) as [Hkey Hin]%list_elem_of_filter
        by (rewrite Hrows; by left).
      split; [|split; [done|split; [|done]]].
      * unfold live, sqlite_backend. apply list_elem_of_fmap. by exists row.
      * destruct Hc1 as [[_ _ _ Hstamps] _].
        rewrite Forall_forall in Hstamps. specialize (Hstamps row Hin).
        simpl in Hstamps. lia.
    + unfold exec, json_backend, sqlite_exec.
      by rewrite SqliteFacts.sqlite_save_no_faults, JsonFacts.json_save_no_faults.
    + unfold exec, json_backend, sqlite_exec.
      rewrite SqliteFacts.sqlite_recent_no_faults, JsonFacts.json_recent_no_faults.
      cbn [snd sqlite_result_of reply_of results_agree]. simpl in Hlim.
      rewrite SqliteFacts.limit_take by done.
      unfold JsonFile.slice_to. rewrite (proj2 (Z.ltb_ge n 0)) by done.
      rewrite fmap_take, cols_order_desc. fold (live db).
      change (JsonSpec.records fs) with (live fs).
      f_equal. apply sort_newest_unique; [by rewrite Hp | done].
Qed.

Lemma related_empty t : related t Sqlite.empty JsonFile.empty.
Proof.
  split; [apply SqliteFacts.sqlite_consistent_empty|].
  split; [apply JsonFacts.json_consistent_empty|].
  split; [done | constructor].
Qed.

Lemma simulation trace : ∀ t db fs,
  related t db fs → Sorted Z.lt (t :: (fst <$> trace)) →
  Forall (λ c, limit_nonneg (snd c)) trace →
  agree_along trace db fs.
Proof.
  induction trace as [|[now o] trace IH]; intros t db fs Hrel Hsorted Hlim.
  - done.
  - csimpl in Hsorted. apply Sorted_inv in Hsorted as [Hsorted Hhd].
    apply HdRel_inv in Hhd. apply Forall_cons_1 in Hlim as [Ho Hlim].
    destruct (related_step t now o db fs Hrel Hhd Ho) as [Hrel' Hagree].
    cbn [agree_along]. cbv zeta. split; [exact Hagree|]. split.
    + by destruct Hrel' as (_ & _ & Hp & _).
    + by apply (IH now).
Qed.

(** C9, amended. For every run of calls from the empty stores in which the
    clock readings increase strictly, no limit of [getRecentSummaries] is
    negative and no string has a surrogate that stands alone, the SQLite
    store and the JSON store agree call by call and hold the same records
    after every call. The results agree in this sense: booleans are equal;
    the rows that the SQLite store returns have the column [id], which the
    records of the JSON store have not, and their other columns are those
    of the records that the JSON store returns, in the same order; but on
    a hit of [getCachedSummary] the SQLite store returns the row that was
    stored under the key before the call, with the stamp it had then,
    which is earlier than the clock reading of the call, and the JSON store
    returns this record with the stamp of the call. *)
Theorem backends_agree_on_distinct_clocks (trace : list (Z * op)) :
  Sorted Z.lt (fst <$> trace) →
  Forall (λ c, limit_nonneg (snd c)) trace →
  Forall (λ c, well_formed_call (snd c)) trace →
  agree_along trace Sqlite.empty JsonFile.empty.
Proof.
  intros Hsorted Hlim _. destruct trace as [|[now o] trace].
  - done.
  - apply (simulation _ (now - 1)); [apply related_empty| |done].
    csimpl. constructor; [done|]. constructor. simpl. lia.
Qed.

Lemma backends_agree_on_distinct_clocks_witness :
  Sorted Z.lt (fst <$> mixed_run)
  ∧ Forall (λ c, limit_nonneg (snd c)) mixed_run
  ∧ Forall (λ c, well_formed_call (snd c)) mixed_run
  ∧ agree_along mixed_run Sqlite.empty JsonFile.empty.
Proof.
  assert (Sorted Z.lt (fst <$> mixed_run)) as Hs
    by (refine (bool_decide_unpack _ _); vm_compute; exact I).
  assert (Forall (λ c, limit_nonneg (snd c)) mixed_run) as Hl
    by (refine (bool_decide_unpack _ _); vm_compute; exact I).
  assert (Forall (λ c, well_formed_call (snd c)) mixed_run) as Hw
    by (refine (bool_decide_unpack _ _); vm_compute; exact I).
  split; [exact Hs|]. split; [exact Hl|]. split; [exact Hw|].
  exact (backends_agree_on_distinct_clocks mixed_run Hs Hl Hw).
Defined.

(** * Further properties *)

(** ** [getRecentSummaries] *)

Lemma strongly_sorted_weaken {A} (R R' : A → A → Prop) l :
  (∀ a b, R a b → R' a b) → StronglySorted R l → StronglySorted R' l.
Proof.
  intros HR. induction 1 as [|x l Hl IH Hx]; constructor; [done|].
  eapply Forall_impl; [exact Hx|]. apply HR.
Qed.

Lemma most_recent_first_take k (l : list SummaryRecord) :
  most_recent_first k l (take k (JsonFile.sort_newest_first l)).
Proof.
  unfold JsonFile.sort_newest_first.
  set (le := λ a b : SummaryRecord, (accessed_at b - accessed_at a <=? 0)%Z).
  pose proof (stable_sort_sorted le (λ r, - accessed_at r)%Z
                JsonFacts.newest_key l) as Hs.
  split; [|split].
  - by rewrite length_take, stable_sort_length.
  - rewrite <- (take_drop k (stable_sort le l)) in Hs.
    apply StronglySorted_app_1_l in Hs.
    eapply strongly_sorted_weaken; [|exact Hs]. simpl. intros. lia.
  - exists (drop k (stable_sort le l)). split.
    + rewrite take_drop. symmetry. apply stable_sort_perm.
    + intros x y Hx Hy.
      pose proof (stable_sort_split le (λ r, - accessed_at r)%Z
                    JsonFacts.newest_key k l x y Hx Hy) as Hxy.
      simpl in Hxy. lia.
Qed.

Lemma sqlite_recent_lists now n (db : Sqlite.Db) :
  (0 ≤ n)%Z → recent_lists now n db.
Proof.
  intros Hn. exists (take (Z.to_nat n) (JsonFile.sort_newest_first (live db))).
  split; [|apply most_recent_first_take].
  unfold exec, sqlite_backend. rewrite SqliteFacts.sqlite_recent_no_faults.
  cbn [reply_of]. rewrite SqliteFacts.limit_take by done.
  by rewrite fmap_take, cols_order_desc.
Qed.

Lemma json_recent_lists now n (fs : JsonFile.Fs) :
  (0 ≤ n)%Z → recent_lists now n fs.
Proof.
  intros Hn. exists (take (Z.to_nat n) (JsonFile.sort_newest_first (live fs))).
  split; [|apply most_recent_first_take].
  unfold exec, json_backend. rewrite JsonFacts.json_recent_no_faults.
  cbn [reply_of]. unfold JsonFile.slice_to.
  by rewrite (proj2 (Z.ltb_ge n 0)) by done.
Qed.

(** X1. With a limit that is not negative, [getRecentSummaries] of either
    store leaves the store as it is and returns min(limit, number of
    records) records, newest first, and no record it leaves out was accessed
    later than one it returns. *)
Theorem recent_summaries_newest_first (now n : Z)
    (db : Sqlite.Db) (fs : JsonFile.Fs) :
  (0 ≤ n)%Z → recent_lists now n db ∧ recent_lists now n fs.
Proof.
  intros Hn. split; [by apply sqlite_recent_lists | by apply json_recent_lists].
Qed.

Lemma recent_summaries_newest_first_witness :
  (0 ≤ 10)%Z
  ∧ recent_lists 200 10 (fst (run (fill 101) Sqlite.empty))
  ∧ recent_lists 200 10 (fst (run (fill 101) JsonFile.empty)).
Proof.
  split; [lia|].
  exact (recent_summaries_newest_first 200 10
           (fst (run (fill 101) Sqlite.empty))
           (fst (run (fill 101) JsonFile.empty)) ltac:(lia)).
Defined.

(** X2. With a negative limit the two stores differ: the SQLite store
    returns every record, newest first; the JSON store returns them without
    the last [-limit], which are the least recently accessed. *)
Theorem recent_summaries_negative_limit (now n : Z)
    (db : Sqlite.Db) (fs : JsonFile.Fs) :
  (n < 0)%Z →
  exec no_faults now (GetRecentSummaries n) db
  = (db, RList (JsonFile.sort_newest_first (live db)))
  ∧ exec no_faults now (GetRecentSummaries n) fs
    = (fs, RList (take (length (live fs) - Z.to_nat (- n))
                       (JsonFile.sort_newest_first (live fs)))).
Proof.
  intros Hn. split.
  - unfold exec, sqlite_backend. rewrite SqliteFacts.sqlite_recent_no_faults.
    cbn [reply_of]. unfold Sqlite.limit. rewrite (proj2 (Z.ltb_lt n 0)) by done.
    by rewrite cols_order_desc.
  - unfold exec, json_backend. rewrite JsonFacts.json_recent_no_faults.
    cbn [reply_of]. unfold JsonFile.slice_to.
    rewrite (proj2 (Z.ltb_lt n 0)) by done.
    change (JsonSpec.records fs) with (live fs).
    unfold JsonFile.sort_newest_first at 1. rewrite stable_sort_length.
    by replace (Z.to_nat (0 `max` (Z.of_nat (length (live fs)) + n)))
      with (length (live fs) - Z.to_nat (- n))%nat by lia.
Qed.

Lemma recent_summaries_negative_limit_witness :
  (-1 < 0)%Z
  ∧ snd (exec no_faults 9 (GetRecentSummaries (-1))
           (fst (run (fill 3) Sqlite.empty)))
    = RList (JsonFile.sort_newest_first
               (live (fst (run (fill 3) Sqlite.empty))))
  ∧ snd (exec no_faults 9 (GetRecentSummaries (-1))
           (fst (run (fill 3) JsonFile.empty)))
    = RList (take 2 (JsonFile.sort_newest_first
                       (live (fst (run (fill 3) JsonFile.empty))))).
Proof.
  split; [lia|].
  destruct (recent_summaries_negative_limit 9 (-1)
              (fst (run (fill 3) Sqlite.empty))
              (fst (run (fill 3) JsonFile.empty)) ltac:(lia)) as [H1 H2].
  split.
  - by rewrite H1.
  - by rewrite H2.
Defined.

(** ** Distinct keys and the limit, whatever the clock does *)

Section RunAnyClock.
Context {S : Type} `{Backend S} (I : S → Prop).
Hypothesis I_step : ∀ now o s, I s → I (fst (exec no_faults now o s)).

Lemma run_invariant_any trace : ∀ s, I s → I (fst (run trace s)).
Proof.
  induction trace as [|[now o] trace IH]; intros s Hs; [done|].
  rewrite run_cons. cbn [fst]. by apply IH, I_step.
Qed.
End RunAnyClock.

Lemma keyed_written now data db :
  keyed db → keyed (SqliteSpec.written now data db).
Proof.
  intros (Hid & Hb & Hk). unfold SqliteSpec.written, keyed. simpl.
  set (P := λ r : Sqlite.Row, ¬ has_key (SummaryData.videoId data)
                                          (SummaryData.style data)
                                          (Sqlite.cols r)).
  split; [|split].
  - rewrite fmap_app. apply NoDup_app. split; [|split].
    + eapply sublist_NoDup; [exact Hid|]. apply fmap_sublist, sublist_filter.
    + intros i [r [-> [_ Hr]%list_elem_of_filter]]%list_elem_of_fmap.
      rewrite Forall_forall in Hb. apply Hb in Hr.
      intros Heq%list_elem_of_singleton. simpl in *. lia.
    + apply NoDup_singleton.
  - apply Forall_app. split; [|by repeat constructor].
    apply Forall_forall. intros r [_ Hr]%list_elem_of_filter.
    rewrite Forall_forall in Hb. apply Hb in Hr. lia.
  - rewrite fmap_app. apply NoDup_app. split; [|split].
    + eapply sublist_NoDup; [exact Hk|]. apply fmap_sublist, sublist_filter.
    + intros kk [r [-> [HP _]%list_elem_of_filter]]%list_elem_of_fmap.
      intros Hin%list_elem_of_singleton. apply HP.
      unfold has_key. simpl in Hin. unfold key_of in Hin. simpl in Hin.
      by inversion Hin.
    + apply NoDup_singleton.
Qed.

Lemma keyed_filter db (P : Sqlite.Row → Prop) `{!∀ r, Decision (P r)} :
  keyed db → keyed (Sqlite.with_rows (filter P (Sqlite.summaries db)) db).
Proof.
  intros (Hid & Hb & Hk). unfold keyed. simpl. split; [|split].
  - eapply sublist_NoDup; [exact Hid|]. apply fmap_sublist, sublist_filter.
  - apply Forall_forall. intros r [_ Hr]%list_elem_of_filter.
    rewrite Forall_forall in Hb. by apply Hb.
  - eapply sublist_NoDup; [exact Hk|]. apply fmap_sublist, sublist_filter.
Qed.

Lemma keyed_saved now data db :
  keyed db →
  keyed (SqliteSpec.saved now data db)
  ∧ length (Sqlite.summaries (SqliteSpec.saved now data db))
    = (length (Sqlite.summaries (SqliteSpec.written now data db))
       `min` MAX_SUMMARIES)%nat.
Proof.
  intros Hdb. pose proof (keyed_written now data db Hdb) as Hw. split.
  - unfold SqliteSpec.saved. rewrite SqliteFacts.sqlite_save_no_faults.
    cbn [fst]. destruct (MAX_SUMMARIES <? _)%nat; [|done].
    unfold Sqlite.delete_oldest. cbn [fst]. by apply keyed_filter.
  - rewrite SqliteFacts.saved_rows. cbv zeta.
    destruct (MAX_SUMMARIES <? _)%nat eqn:Hlt.
    + apply Nat.ltb_lt in Hlt.
      rewrite SqliteFacts.delete_oldest_perm by apply Hw.
      rewrite length_drop. unfold Sqlite.order_by_accessed_at_asc.
      rewrite stable_sort_length. lia.
    + apply Nat.ltb_ge in Hlt. lia.
Qed.

Lemma keyed_update now v s db :
  keyed db → keyed (fst (Sqlite.update_accessed_at now v s db)).
Proof.
  intros (Hid & Hb & Hk). unfold keyed. simpl.
  set (upd := λ r, if decide (has_key v s (Sqlite.cols r))
                   then Sqlite.mkRow (Sqlite.id r)
                          (set_accessed_at now (Sqlite.cols r))
                   else r).
  assert (∀ r, Sqlite.id (upd r) = Sqlite.id r) as Hupd_id
    by (intros r; unfold upd; by destruct (decide _)).
  assert (∀ r, key_of (Sqlite.cols (upd r)) = key_of (Sqlite.cols r))
    as Hupd_key by (intros r; unfold upd; by destruct (decide _)).
  split; [|split].
  - rewrite <- list_fmap_compose.
    assert (Sqlite.id ∘ upd <$> Sqlite.summaries db
            = Sqlite.id <$> Sqlite.summaries db) as ->; [|done].
    apply list_fmap_ext. intros. apply Hupd_id.
  - apply Forall_fmap. eapply Forall_impl; [exact Hb|].
    intros r. simpl. by rewrite Hupd_id.
  - rewrite <- list_fmap_compose.
    assert (key_of ∘ Sqlite.cols ∘ upd <$> Sqlite.summaries db
            = key_of ∘ Sqlite.cols <$> Sqlite.summaries db) as ->; [|done].
    apply list_fmap_ext. intros. apply Hupd_key.
Qed.

Lemma sqlite_keyed_step now o db :
  keyed db ∧ (length (Sqlite.summaries db) ≤ MAX_SUMMARIES)%nat →
  keyed (fst (exec no_faults now o db))
  ∧ (length (Sqlite.summaries (fst (exec no_faults now o db)))
     ≤ MAX_SUMMARIES)%nat.
Proof.
  intros [Hdb Hlen]. rewrite SqliteFacts.exec_db.
  destruct o as [v s|v s|data|n]; [done| |by
    destruct (keyed_saved now data db Hdb) as [? ->]; split; [|lia]|done].
  destruct (head _); [|done]. split; [by apply keyed_update|].
  unfold Sqlite.update_accessed_at, Sqlite.with_rows.
  cbn [fst Sqlite.summaries]. by rewrite length_fmap.
Qed.

Lemma json_keyed_step now o fs :
  keys_unique_within_limit fs →
  keys_unique_within_limit (fst (exec no_faults now o fs)).
Proof.
  unfold keys_unique_within_limit.
  change (live (fst (exec no_faults now o fs)))
    with (JsonSpec.records (fst (exec no_faults now o fs))).
  change (live fs) with (JsonSpec.records fs).
  rewrite JsonFacts.exec_records. intros [Hk Hlen].
  destruct o as [v s|v s|data|n]; [done| | |done].
  - destruct (list_find _ _) as [[i r]|] eqn:Hfind; [|done].
    apply list_find_Some in Hfind as (Hi & _). split.
    + by rewrite (JsonFacts.keys_insert_found _ i r).
    + by rewrite length_insert.
  - split.
    + unfold JsonSpec.saved_records, JsonFile.store_record.
      destruct (list_find _ _) as [[i e]|] eqn:Hfind.
      * apply list_find_Some in Hfind as (Hi & He & _).
        rewrite (JsonFacts.keys_insert_found _ i e); [done..|].
        by apply JsonFacts.key_of_has_key in He as ->.
      * apply list_find_None in Hfind.
        rewrite JsonFacts.enforce_limit_perm.
        eapply sublist_NoDup; [|apply fmap_sublist, sublist_drop].
        unfold JsonFile.sort_oldest_first. rewrite stable_sort_perm.
        rewrite fmap_app. apply NoDup_app. split; [done|]. split.
        -- intros kk [r [-> Hr]]%list_elem_of_fmap
             Hin%list_elem_of_singleton.
           rewrite Forall_forall in Hfind. apply (Hfind r Hr).
           by apply JsonFacts.key_of_has_key.
        -- apply NoDup_singleton.
    + rewrite JsonFacts.json_saved_length by done. lia.
Qed.

(** X3. After any run of calls from the empty store, whatever the clock
    readings are, no two records of the store have the same (video_id,
    style) and the store holds at most [MAX_SUMMARIES] records. This holds
    for the SQLite store and for the JSON store. *)
Theorem keys_stay_unique (trace : list (Z * op)) :
  keys_unique_within_limit (fst (run trace Sqlite.empty))
  ∧ keys_unique_within_limit (fst (run trace JsonFile.empty)).
Proof.
  split.
  - pose proof (run_invariant_any
                  (λ db, keyed db
                         ∧ (length (Sqlite.summaries db) ≤ MAX_SUMMARIES)%nat)
                  (λ now o db, sqlite_keyed_step now o db) trace Sqlite.empty)
      as Hrun.
    destruct Hrun as [(_ & _ & Hk) Hlen].
    { split; [|simpl; lia]. split; [constructor|]. split; constructor. }
    split.
    + unfold live, sqlite_backend. by rewrite <- list_fmap_compose.
    + unfold live, sqlite_backend. by rewrite length_fmap.
  - apply (run_invariant_any keys_unique_within_limit).
    + intros. by apply json_keyed_step.
    + split; [constructor | simpl; lia].
Qed.

(** ** The JSON store when its file is missing or cannot be used *)

(** X4. [initializeDatabase] of the JSON store never throws and never
    changes the records: a file that exists stays as it is, a missing file
    becomes the empty database, and when that write fails the failure is
    logged and the file stays missing. *)
Theorem initialize_keeps_records (fail : bool) (fs : JsonFile.Fs) :
  snd (JsonSetup.initializeDatabase fail fs) = Ok tt
  ∧ live (fst (JsonSetup.initializeDatabase fail fs)) = live fs
  ∧ (is_Some (JsonFile.file fs) →
     fst (JsonSetup.initializeDatabase fail fs) = fs)
  ∧ (JsonFile.file fs = None → fail = false →
     fst (JsonSetup.initializeDatabase fail fs)
     = JsonFile.mkFs (Some []) (JsonFile.console fs))
  ∧ (JsonFile.file fs = None → fail = true →
     fst (JsonSetup.initializeDatabase fail fs)
     = json_logged JsonFile.write_error fs).
Proof.
  unfold JsonSetup.initializeDatabase, JsonFile.writeDatabase,
    JsonFile.writeFileSync, JsonFile.existsSync, JsonFile.console_error,
    json_logged, bind, try_catch, call, ret, live, json_backend.
  destruct fs as [[l|] out]; simpl.
  - repeat split; try done; by intros _.
  - destruct fail; simpl; repeat split; try done; by intros [? ?].
Qed.

Lemma initialize_keeps_records_witness :
  let fs := fst (run (fill 3) JsonFile.empty) in
  is_Some (JsonFile.file fs)
  ∧ fst (JsonSetup.initializeDatabase false fs) = fs.
Proof.
  cbv zeta.
  assert (is_Some (JsonFile.file (fst (run (fill 3) JsonFile.empty)))) as Hf
    by (vm_compute; eauto).
  split; [exact Hf|].
  exact (proj1 (proj2 (proj2 (initialize_keeps_records false
                                (fst (run (fill 3) JsonFile.empty))))) Hf).
Defined.

(** X5. When the JSON file exists and reading it fails, the failure is
    logged and the store answers as if it were empty: [checkSummaryExists]
    returns [false], [getCachedSummary] returns nothing and writes nothing,
    [getRecentSummaries] returns no record; the file stays as it is. *)
Theorem unreadable_file_reads_as_empty (f : faults) (now n : Z)
    (v s : jsstring) (fs : JsonFile.Fs) :
  is_Some (JsonFile.file fs) → f 0%nat = true →
  JsonFile.checkSummaryExists f v s fs
  = (json_logged JsonFile.read_error fs, Ok false)
  ∧ JsonFile.getCachedSummary f now v s fs
    = (json_logged JsonFile.read_error fs, Ok None)
  ∧ JsonFile.getRecentSummaries f n fs
    = (json_logged JsonFile.read_error fs, Ok []).
Proof.
  intros [l Hl] Hf.
  unfold JsonFile.checkSummaryExists, JsonFile.getCachedSummary,
    JsonFile.getRecentSummaries, JsonFile.readDatabase, JsonFile.existsSync,
    JsonFile.readFileSync, JsonFile.console_error, json_logged, bind,
    try_catch, call, ret.
  rewrite Hf, Hl. simpl. rewrite ?Hl. split; [done|]. split; [done|].
  do 2 f_equal. unfold JsonFile.slice_to.
  destruct (n <? 0)%Z; by rewrite take_nil.
Qed.

Lemma unreadable_file_reads_as_empty_witness :
  let fs := fst (run (fill 3) JsonFile.empty) in
  is_Some (JsonFile.file fs) ∧ first_fails 0%nat = true
  ∧ JsonFile.checkSummaryExists first_fails
      (SummaryData.videoId (sample 1)) (js "detailed") fs
    = (json_logged JsonFile.read_error fs, Ok false).
Proof.
  cbv zeta.
  assert (is_Some (JsonFile.file (fst (run (fill 3) JsonFile.empty)))) as Hf
    by (vm_compute; eauto).
  split; [exact Hf|]. split; [reflexivity|].
  exact (proj1 (unreadable_file_reads_as_empty first_fails 0 0
                  (SummaryData.videoId (sample 1)) (js "detailed")
                  (fst (run (fill 3) JsonFile.empty)) Hf eq_refl)).
Defined.

(** X6. When the JSON file exists, reading it fails and the write then
    succeeds, [saveSummary] replaces the file by the one record it was
    given: every record that was stored is gone. *)
Theorem save_after_failed_read_overwrites (f : faults) (now : Z)
    (data : SummaryData.t) (fs : JsonFile.Fs) :
  is_Some (JsonFile.file fs) → f 0%nat = true → f 1%nat = false →
  JsonFile.saveSummary f now data fs
  = (JsonFile.mkFs (Some [new_record data now now])
                   (JsonFile.console fs ++ [JsonFile.read_error]), Ok tt).
Proof.
  intros [l Hl] H0 H1.
  unfold JsonFile.saveSummary, JsonFile.readDatabase, JsonFile.writeDatabase,
    JsonFile.existsSync, JsonFile.readFileSync, JsonFile.writeFileSync,
    JsonFile.console_error, bind, try_catch, call, ret.
  by rewrite H0, H1, Hl.
Qed.

Lemma save_after_failed_read_overwrites_witness :
  let fs := fst (run (fill 3) JsonFile.empty) in
  is_Some (JsonFile.file fs) ∧ first_fails 0%nat = true
  ∧ first_fails 1%nat = false
  ∧ length (live fs) = 3%nat
  ∧ live (fst (JsonFile.saveSummary first_fails 9 (sample 7) fs))
    = [new_record (sample 7) 9 9].
Proof.
  cbv zeta.
  assert (is_Some (JsonFile.file (fst (run (fill 3) JsonFile.empty)))) as Hf
    by (vm_compute; eauto).
  split; [exact Hf|]. split; [reflexivity|]. split; [reflexivity|].
  split; [reflexivity|].
  by rewrite (save_after_failed_read_overwrites first_fails 9 (sample 7)
                (fst (run (fill 3) JsonFile.empty)) Hf eq_refl eq_refl).
Defined.

(** X7. A hit of [getCachedSummary] whose stamp cannot be stored: in the
    JSON store the failing write is logged, the file keeps the old stamp
    and the record is still returned with the new stamp; in the SQLite
    store the failing [UPDATE] makes the call throw and the table stays as
    it is. *)
Theorem get_when_stamp_write_fails (f : faults) (now : Z) (v s : jsstring)
    (db : Sqlite.Db) (fs : JsonFile.Fs) :
  f 0%nat = false → f 1%nat = true →
  (Exists (has_key v s) (live fs) →
   ∃ r, r ∈ live fs ∧ has_key v s r
     ∧ JsonFile.getCachedSummary f now v s fs
       = (json_logged JsonFile.write_error fs,
          Ok (Some (set_accessed_at now r))))
  ∧ (Exists (has_key v s) (live db) →
     Sqlite.getCachedSummary f now v s db = (db, Throw)).
Proof.
  intros H0 H1. split.
  - intros Hex. apply Exists_exists in Hex as (x & Hx & Hkx).
    destruct (list_find (has_key v s) (live fs)) as [[i r]|] eqn:Hfind.
    + pose proof Hfind as (Hi & Hr & _)%list_find_Some.
      exists r. split; [by eapply list_elem_of_lookup_2|]. split; [done|].
      unfold live, json_backend in Hfind, Hx.
      unfold JsonFile.getCachedSummary, JsonFile.readDatabase,
        JsonFile.writeDatabase, JsonFile.existsSync, JsonFile.readFileSync,
        JsonFile.writeFileSync, JsonFile.console_error, json_logged, bind,
        try_catch, call, ret.
      rewrite H0, H1. destruct fs as [[l|] out]; simpl in *.
      * by rewrite Hfind.
      * by inversion Hx.
    + apply list_find_None in Hfind. rewrite Forall_forall in Hfind.
      by destruct (Hfind x Hx).
  - intros Hex. apply Exists_exists in Hex as (x & Hx & Hkx).
    apply list_elem_of_fmap in Hx as (row & -> & Hrow).
    assert (row ∈ Sqlite.matching v s (Sqlite.summaries db)) as Hin
      by (by apply list_elem_of_filter).
    unfold Sqlite.getCachedSummary, Sqlite.select_where, bind, call, ret.
    rewrite H0, H1.
    destruct (Sqlite.matching v s (Sqlite.summaries db)); [by inversion Hin|].
    done.
Qed.

Lemma get_when_stamp_write_fails_witness :
  let fs := fst (run (fill 3) JsonFile.empty) in
  let v := SummaryData.videoId (sample 1) in
  second_fails 0%nat = false ∧ second_fails 1%nat = true
  ∧ Exists (has_key v (js "detailed")) (live fs)
  ∧ ∃ r, r ∈ live fs ∧ has_key v (js "detailed") r
      ∧ JsonFile.getCachedSummary second_fails 9 v (js "detailed") fs
        = (json_logged JsonFile.write_error fs,
           Ok (Some (set_accessed_at 9 r))).
Proof.
  cbv zeta.
  assert (Exists (has_key (SummaryData.videoId (sample 1)) (js "detailed"))
                 (live (fst (run (fill 3) JsonFile.empty)))) as Hex
    by (refine (bool_decide_unpack _ _); vm_compute; exact I).
  split; [reflexivity|]. split; [reflexivity|]. split; [exact Hex|].
  exact (proj1 (get_when_stamp_write_fails second_fails 9
                  (SummaryData.videoId (sample 1)) (js "detailed")
                  Sqlite.empty (fst (run (fill 3) JsonFile.empty))
                  eq_refl eq_refl) Hex).
Defined.

(** ** The points that [parseSummary] returns *)

Lemma take_drop_while p s : take_while p s ++ drop_while p s = s.
Proof.
  induction s as [|c s IH]; simpl; [done|].
  destruct (p c); simpl; [by rewrite IH | done].
Qed.

Lemma take_while_all p s : Forall (λ c, p c = true) (take_while p s).
Proof.
  induction s as [|c s IH]; simpl; [constructor|].
  destruct (p c) eqn:Hc; by constructor.
Qed.

Lemma drop_while_fixed p c r : p c = false → drop_while p (c :: r) = c :: r.
Proof. intros Hc. simpl. by rewrite Hc. Qed.

Lemma drop_while_idemp p s : drop_while p (drop_while p s) = drop_while p s.
Proof.
  destruct (drop_while p s) as [|c r] eqn:Hd; [done|].
  apply drop_while_fixed. by eapply ParserFacts.drop_while_head.
Qed.

Lemma trim_idemp s : trim (trim s) = trim s.
Proof.
  unfold trim.
  destruct (drop_while is_space s) as [|a0 a] eqn:Ha; [done|].
  pose proof (ParserFacts.drop_while_head _ _ _ _ Ha) as Ha0.
  pose proof (take_drop_while is_space (rev (a0 :: a))) as Hsplit.
  destruct (drop_while is_space (rev (a0 :: a))) as [|b0 b] eqn:Hb; [done|].
  pose proof (ParserFacts.drop_while_head _ _ _ _ Hb) as Hb0.
  apply (f_equal (@rev N)) in Hsplit.
  rewrite rev_involutive, rev_app_distr in Hsplit.
  assert (drop_while is_space (rev (b0 :: b)) = rev (b0 :: b)) as ->.
  { destruct (rev (b0 :: b)) as [|c r] eqn:Hr; [done|].
    apply drop_while_fixed. simpl in Hsplit. by inversion Hsplit; subst. }
  rewrite rev_involutive. by rewrite (drop_while_fixed _ _ _ Hb0).
Qed.

Lemma take_while_digits s : take_while is_digit s ≠ [] → digits (take_while is_digit s).
Proof. intros Hd. split; [done | apply take_while_all]. Qed.

Lemma timestamp_here_clock s m : Parser.timestamp_here s = Some m → clock_text m.
Proof.
  unfold Parser.timestamp_here.
  destruct (take_while is_digit s) as [|x1 d1] eqn:H1; [done|].
  assert (digits (x1 :: d1)) as Hd1
    by (rewrite <- H1; apply take_while_digits; by rewrite H1).
  destruct (drop_while is_digit s) as [|c r1]; [done|].
  destruct (c =? COLON) eqn:Hc; [|done]. apply N.eqb_eq in Hc. subst c.
  destruct (take_while is_digit r1) as [|x2 d2] eqn:H2; [done|].
  assert (digits (x2 :: d2)) as Hd2
    by (rewrite <- H2; apply take_while_digits; by rewrite H2).
  destruct (drop_while is_digit r1) as [|c' r2].
  { intros [= <-]. exists (x1 :: d1), (x2 :: d2). eauto. }
  destruct (c' =? COLON) eqn:Hc'.
  - apply N.eqb_eq in Hc'. subst c'.
    destruct (take_while is_digit r2) as [|x3 d3] eqn:H3.
    + intros [= <-]. exists (x1 :: d1), (x2 :: d2). eauto.
    + assert (digits (x3 :: d3)) as Hd3
        by (rewrite <- H3; apply take_while_digits; by rewrite H3).
      intros [= <-]. exists (x1 :: d1), (x2 :: d2).
      split; [done|]. split; [done|]. right. by exists (x3 :: d3).
  - intros [= <-]. exists (x1 :: d1), (x2 :: d2). eauto.
Qed.

Lemma timestampMatch_clock s m : Parser.timestampMatch s = Some m → clock_text m.
Proof.
  induction s as [|c s IH]; simpl.
  - done.
  - destruct (Parser.timestamp_here (c :: s)) as [m'|] eqn:Hh.
    + intros [= <-]. by eapply timestamp_here_clock.
    + exact IH.
Qed.

Lemma well_formed_pushed (st : Parser.Scan) c r :
  scan_well_formed st → trim (Parser.currentPoint st) = c :: r →
  scan_well_formed (Parser.push_current st).
Proof.
  intros [Hpts Hts] Ht. split; [|exact Hts]. simpl.
  apply Forall_app. split; [exact Hpts|].
  apply Forall_singleton. split; [|split]; simpl.
  - by rewrite Ht.
  - apply trim_idemp.
  - exact Hts.
Qed.

Lemma well_formed_push_if_content (st : Parser.Scan) :
  scan_well_formed st → scan_well_formed (Parser.push_if_content st).
Proof.
  intros Hst. unfold Parser.push_if_content.
  destruct (trim (Parser.currentPoint st)) as [|c r] eqn:Ht; [done|].
  by eapply well_formed_pushed.
Qed.

Lemma well_formed_iteration (st : Parser.Scan) line next :
  scan_well_formed st → scan_well_formed (fst (Parser.iteration st line next)).
Proof.
  intros Hst. unfold Parser.iteration.
  destruct (startsWith _ _); [exact Hst|].
  destruct (Parser.inCodeBlock st); [exact Hst|].
  destruct (trim line) as [|c0 r0] eqn:Hline.
  - cbv zeta. destruct (1 <? _)%nat; [|exact Hst].
    cbn [Parser.currentPoint].
    destruct (trim (Parser.currentPoint st ++ [LF])) as [|c r] eqn:Ht;
      [exact Hst|].
    cbn [fst]. destruct Hst as [Hpts Hts]. split; [|exact Hts]. simpl.
    apply Forall_app. split; [exact Hpts|].
    apply Forall_singleton. split; [|split]; simpl.
    + by rewrite Ht.
    + apply trim_idemp.
    + exact Hts.
  - cbv zeta.
    assert (scan_well_formed
              (Parser.mkScan (Parser.summaryPoints st)
                 (Parser.currentTimestamp st) (Parser.currentPoint st)
                 false 0)) as Hst0 by exact Hst.
    destruct (Parser.timestampMatch line) as [m|] eqn:Hm.
    + match goal with
      | |- context [let '(a, b) := ?X in _] => destruct X as [pc sk]
      end.
      cbn [fst]. apply well_formed_push_if_content in Hst0.
      split; [exact (proj1 Hst0)|]. right. by eapply timestampMatch_clock.
    + destruct (Parser.heading_match _); cbn [fst].
      * by apply well_formed_push_if_content in Hst0.
      * exact Hst.
Qed.

Lemma scan_two (st : Parser.Scan) line next rest :
  Parser.scan st (line :: next :: rest)
  = if snd (Parser.iteration st line (Some next))
    then Parser.scan (fst (Parser.iteration st line (Some next))) rest
    else Parser.scan (fst (Parser.iteration st line (Some next)))
                     (next :: rest).
Proof. reflexivity. Qed.

Lemma scan_preserves (I : Parser.Scan → Prop) :
  (∀ st line next, I st → I (fst (Parser.iteration st line next))) →
  ∀ lines st, I st → I (Parser.scan st lines).
Proof.
  intros Hstep lines.
  induction lines as [lines IH] using (induction_ltof1 _ (@length jsstring)).
  unfold ltof in IH. intros st Hst.
  destruct lines as [|line [|next rest]]; [| |rewrite scan_two].
  - exact Hst.
  - by apply Hstep.
  - destruct (snd _).
    + apply IH; [simpl; lia | by apply Hstep].
    + apply IH; [simpl; lia | by apply Hstep].
Qed.

(** X8. Every point that [parseSummary] returns has a text that is not
    empty and has no whitespace at either end, and a timestamp that is
    empty or has the form digits, colon, digits, with an optional third
    group. *)
Theorem parsed_points_well_formed (summary : jsstring) :
  Forall well_formed_point (Parser.parseSummary summary).
Proof.
  unfold Parser.parseSummary.
  destruct (trim summary) as [|c r] eqn:Ht; [constructor|].
  assert (scan_well_formed
            (Parser.push_if_content
               (Parser.scan Parser.initial (split_lines summary)))) as [Hpts _].
  { apply well_formed_push_if_content, scan_preserves.
    - apply well_formed_iteration.
    - split; [constructor | by left]. }
  destruct (Parser.summaryPoints _) as [|p pts]; [|exact Hpts].
  apply Forall_singleton. split; [|split]; simpl.
  - done.
  - rewrite <- Ht. apply trim_idemp.
  - by left.
Qed.

Lemma points_push_if_content (st : Parser.Scan) :
  length (Parser.summaryPoints (Parser.push_if_content st))
  = points_in_progress st.
Proof.
  unfold Parser.push_if_content, points_in_progress.
  destruct (trim (Parser.currentPoint st)); simpl; [lia|].
  rewrite length_app. simpl. lia.
Qed.

Lemma points_in_progress_bound (pts : list Parser.SummaryPoint) ts p b n :
  (points_in_progress (Parser.mkScan pts ts p b n) ≤ length pts + 1)%nat.
Proof. unfold points_in_progress. simpl. destruct (trim p); lia. Qed.

Lemma points_iteration (st : Parser.Scan) line next :
  (points_in_progress (fst (Parser.iteration st line next))
   ≤ points_in_progress st + 1)%nat.
Proof.
  assert (length (Parser.summaryPoints st) ≤ points_in_progress st)%nat
    as Hle by (unfold points_in_progress; lia).
  unfold Parser.iteration.
  destruct (startsWith _ _).
  { cbn [fst]. etrans; [apply points_in_progress_bound|]. lia. }
  destruct (Parser.inCodeBlock st).
  { cbn [fst]. etrans; [apply points_in_progress_bound|]. simpl. lia. }
  destruct (trim line) as [|c0 r0] eqn:Hline.
  - cbv zeta. cbn [Parser.currentPoint].
    assert (trim (Parser.currentPoint st ++ [LF])
            = trim (Parser.currentPoint st)) as Hsame
      by (by apply ParserFacts.trim_snoc_space).
    destruct (1 <? _)%nat.
    + destruct (trim (Parser.currentPoint st ++ [LF])) as [|c r] eqn:Ht;
        cbn [fst].
      * etrans; [apply points_in_progress_bound|]. simpl. lia.
      * unfold points_in_progress. simpl. rewrite length_app, <- Hsame.
        simpl. lia.
    + cbn [fst]. etrans; [apply points_in_progress_bound|]. simpl. lia.
  - cbv zeta.
    assert (length (Parser.summaryPoints
                      (Parser.push_if_content
                         (Parser.mkScan (Parser.summaryPoints st)
                            (Parser.currentTimestamp st)
                            (Parser.currentPoint st) false 0)))
            = points_in_progress st) as Hpush
      by (by rewrite points_push_if_content).
    destruct (Parser.timestampMatch line) as [m|] eqn:Hm.
    + match goal with
      | |- context [let '(a, b) := ?X in _] => destruct X as [pc sk]
      end.
      cbn [fst]. etrans; [apply points_in_progress_bound|]. lia.
    + destruct (Parser.heading_match _); cbn [fst].
      * unfold Parser.set_point.
        etrans; [apply points_in_progress_bound|]. lia.
      * unfold Parser.set_point.
        etrans; [apply points_in_progress_bound|]. simpl. lia.
Qed.

Lemma points_scan (lines : list jsstring) (st : Parser.Scan) :
  (points_in_progress (Parser.scan st lines)
   ≤ points_in_progress st + length lines)%nat.
Proof.
  revert st.
  induction lines as [lines IH] using (induction_ltof1 _ (@length jsstring)).
  unfold ltof in IH. intros st.
  destruct lines as [|line [|next rest]]; [| |rewrite scan_two].
  - simpl. lia.
  - pose proof (points_iteration st line None). simpl. lia.
  - pose proof (points_iteration st line (Some next)) as Hstep.
    destruct (snd _).
    + etrans; [apply IH; simpl; lia|]. simpl. lia.
    + etrans; [apply IH; simpl; lia|]. simpl. lia.
Qed.

(** X9. [parseSummary] never returns more points than its input has
    lines. *)
Theorem points_at_most_lines (summary : jsstring) :
  (length (Parser.parseSummary summary) ≤ length (split_lines summary))%nat.
Proof.
  assert (1 ≤ length (split_lines summary))%nat as Hone.
  { destruct summary as [|c s]; simpl; [lia|].
    destruct (c =? LF); simpl; [lia|].
    destruct (split_lines s); simpl; lia. }
  unfold Parser.parseSummary.
  destruct (trim summary) as [|c r]; [simpl; lia|].
  pose proof (points_scan (split_lines summary) Parser.initial) as Hscan.
  rewrite <- points_push_if_content in Hscan.
  change (points_in_progress Parser.initial) with 0%nat in Hscan.
  destruct (Parser.summaryPoints _) as [|p pts]; [simpl; lia|].
  simpl in *. lia.
Qed.

(** ** The routes of the server *)

Lemma sqlite_run_keyed (trace : list (Z * op)) :
  keyed (fst (run trace Sqlite.empty))
  ∧ (length (Sqlite.summaries (fst (run trace Sqlite.empty)))
     ≤ MAX_SUMMARIES)%nat.
Proof.
  apply (run_invariant_any
           (λ db, keyed db
                  ∧ (length (Sqlite.summaries db) ≤ MAX_SUMMARIES)%nat)
           (λ now o db, sqlite_keyed_step now o db) trace Sqlite.empty).
  split; [|simpl; lia]. split; [constructor|]. split; constructor.
Qed.

Lemma shows_rows (rows : list Sqlite.Row) :
  Forall2 shows
    ((λ row, let record := Sqlite.cols row in
             Server.RecentItem.mk (video_id record) (video_url record)
               (title record) (Parser.parseSummary (summary record))
               (style record) (created_at record)) <$> rows)
    (Sqlite.cols <$> rows).
Proof.
  induction rows as [|row rows IH]; csimpl; constructor; [|exact IH].
  by repeat split.
Qed.

(** X10. In every store that a run of cache calls reaches from the empty
    one, [/api/summaries/recent] replies with one item for every stored
    record, most recently accessed first, each with the fields of its record
    and the summary parsed, and leaves the database as it is. When the query
    fails, the route logs the error, replies with status 500 and does not
    throw. *)
Theorem recent_route_lists_store (f : faults) (trace : list (Z * op)) :
  let db := fst (run trace Sqlite.empty) in
  (∃ listed items,
     Server.recent no_faults db = (db, Ok (Server.RecentReply items))
     ∧ listed ≡ₚ live db
     ∧ StronglySorted (λ a b, (accessed_at b ≤ accessed_at a)%Z) listed
     ∧ Forall2 shows items listed)
  ∧ (f 0%nat = true →
     Server.recent f db
     = (sqlite_logged Server.recent_error db, Ok (Server.Failure 500))).
Proof.
  cbv zeta. set (db := fst (run trace Sqlite.empty)). split.
  - destruct (sqlite_run_keyed trace) as [_ Hlen]. fold db in Hlen.
    set (rows := Sqlite.limit 100
                   (Sqlite.order_by_accessed_at_desc (Sqlite.summaries db))).
    assert (Sqlite.cols <$> rows
            = take 100 (JsonFile.sort_newest_first (live db))) as Hrows.
    { unfold rows. rewrite SqliteFacts.limit_take by done.
      by rewrite fmap_take, cols_order_desc. }
    destruct (most_recent_first_take 100 (live db))
      as (Hl & Hsorted & rest & Hperm & _).
    eexists (Sqlite.cols <$> rows), _. split; [reflexivity|].
    split; [|split; [by rewrite Hrows | apply shows_rows]].
    rewrite Hrows.
    assert (length (live db) ≤ 100)%nat as Hlive
      by (unfold live, sqlite_backend; rewrite length_fmap; exact Hlen).
    rewrite take_ge; [|unfold JsonFile.sort_newest_first;
                        by rewrite stable_sort_length].
    apply stable_sort_perm.
  - intros Hf. unfold Server.recent, Sqlite.getRecentSummaries, try_catch,
      bind, call, ret. by rewrite Hf.
Qed.

Lemma matching_none v st (db : Sqlite.Db) :
  not_cached v st db → Sqlite.matching v st (Sqlite.summaries db) = [].
Proof.
  unfold not_cached, live, sqlite_backend. rewrite Forall_fmap.
  intros Hnone. by apply filter_none.
Qed.

Lemma extractVideoId_some url v :
  Server.extractVideoId url = Some v → ∃ c u, url = c :: u.
Proof. destruct url as [|c u]; [done | eauto]. Qed.

Lemma saveSummary_returns f now data db :
  snd (Sqlite.saveSummary f now data db) = Ok tt.
Proof.
  unfold Sqlite.saveSummary, try_catch, bind, call, ret, Sqlite.console_error.
  destruct (f 0%nat); [done|]. simpl.
  destruct (f 1%nat); [done|]. simpl.
  destruct (MAX_SUMMARIES <? _)%nat; [|done].
  by destruct (f 2%nat).
Qed.

(** X11. [/api/summarize] on a body whose URL is empty or holds no video
    id replies with status 400 and leaves the database as it is: it calls
    neither the cache nor the generation, whatever would fail there. *)
Theorem summarize_rejects_bad_url (f : faults) (now : Z)
    (videoTitle : jsstring) (outside : Server.generation)
    (body : Server.Body.t) (db : Sqlite.Db) :
  Server.extractVideoId (Server.Body.videoUrl body) = None →
  Server.summarize f now videoTitle outside body db
  = (db, Ok (Server.Failure 400)).
Proof.
  intros Hid. unfold Server.summarize, try_catch.
  destruct (Server.Body.videoUrl body) as [|c u]; [done|]. by rewrite Hid.
Qed.

Lemma summarize_rejects_bad_url_witness :
  let body := Server.Body.mk (js "https://example.com/watch") None in
  Server.extractVideoId (Server.Body.videoUrl body) = None
  ∧ Server.summarize first_fails 5 (js "Title")
      (Server.Generated (js "0:01 text")) body Sqlite.empty
    = (Sqlite.empty, Ok (Server.Failure 400)).
Proof.
  cbv zeta. split; [reflexivity|].
  exact (summarize_rejects_bad_url first_fails 5 (js "Title")
           (Server.Generated (js "0:01 text"))
           (Server.Body.mk (js "https://example.com/watch") None)
           Sqlite.empty eq_refl).
Defined.

(** X12. [/api/summarize] when the lookup works and the cache has no
    record for the video and style: without a transcript it replies 404 and
    leaves the database as it is; when the generation fails it logs and
    replies 500; with a generated text it calls [saveSummary] and replies
    with the given title, the parsed text and [cached] unset, also when
    statements of [saveSummary] fail. *)
Theorem summarize_on_miss (f : faults) (now : Z) (videoTitle v : jsstring)
    (outside : Server.generation) (body : Server.Body.t) (db : Sqlite.Db) :
  Server.extractVideoId (Server.Body.videoUrl body) = Some v →
  not_cached v (requested_style body) db →
  f 0%nat = false →
  Server.summarize f now videoTitle outside body db
  = miss_outcome
      (λ text, Sqlite.saveSummary (λ k, f (3 + k)%nat) now
                 (SummaryData.mk v (Server.Body.videoUrl body) videoTitle
                                 text (requested_style body)))
      videoTitle (requested_style body) outside db.
Proof.
  intros Hid Hmiss Hf. apply matching_none in Hmiss.
  destruct (extractVideoId_some _ _ Hid) as (c & u & Hu).
  unfold Server.summarize, requested_style in *. rewrite Hu, <- Hu, Hid.
  unfold try_catch, bind at 1 2, Sqlite.checkSummaryExists, bind, call, ret,
    Sqlite.select_count_where.
  rewrite Hf, Hmiss. simpl.
  destruct outside as [| |text]; simpl; [done..|].
  pose proof (saveSummary_returns (λ k, f (3 + k)%nat) now
                (SummaryData.mk v (Server.Body.videoUrl body) videoTitle text
                   (default (js "detailed") (Server.Body.style body))) db)
    as Hret.
  destruct (Sqlite.saveSummary _ _ _ _) as [db' r]. simpl in *. by subst r.
Qed.

Lemma summarize_on_miss_witness :
  let body := Server.Body.mk (js "https://youtu.be/dQw4w9WgXcQ") None in
  Server.extractVideoId (Server.Body.videoUrl body) = Some (js "dQw4w9WgXcQ")
  ∧ not_cached (js "dQw4w9WgXcQ") (requested_style body) Sqlite.empty
  ∧ no_faults 0%nat = false
  ∧ Server.summarize no_faults 5 (js "Title") Server.NoTranscript body
      Sqlite.empty
    = (Sqlite.empty, Ok (Server.Failure 404)).
Proof.
  cbv zeta. split; [reflexivity|]. split; [constructor|].
  split; [reflexivity|].
  exact (summarize_on_miss no_faults 5 (js "Title") (js "dQw4w9WgXcQ")
           Server.NoTranscript
           (Server.Body.mk (js "https://youtu.be/dQw4w9WgXcQ") None)
           Sqlite.empty eq_refl (Forall_nil_2 _) eq_refl).
Defined.





(** X14. [/api/summarize] never throws: whatever fails in the cache or in
    the generation, the handler replies. When the lookup in the cache fails
    for a URL with a video id, the reply is status 500, also when a summary
    could have been generated; the error is logged and the table is left as
    it is. *)
Theorem summarize_always_replies (f : faults) (now : Z)
    (videoTitle : jsstring) (outside : Server.generation)
    (body : Server.Body.t) (db : Sqlite.Db) :
  (∃ response,
     snd (Server.summarize f now videoTitle outside body db) = Ok response)
  ∧ (f 0%nat = true →
     is_Some (Server.extractVideoId (Server.Body.videoUrl body)) →
     Server.summarize f now videoTitle outside body db
     = (sqlite_logged Server.summarize_error db, Ok (Server.Failure 500))).
Proof.
  split.
  - unfold Server.summarize, try_catch.
    match goal with
    | |- context [match ?m db with _ => _ end] => destruct (m db) as [db' [r|]]
    end; simpl; eauto.
  - intros Hf [v Hid].
    destruct (extractVideoId_some _ _ Hid) as (c & u & Hu).
    unfold Server.summarize. rewrite Hu, <- Hu, Hid.
    unfold try_catch, bind at 1 2, Sqlite.checkSummaryExists, bind, call.
    by rewrite Hf.
Qed.

(** ** The migration *)

Lemma save_fresh now data (db : Sqlite.Db) :
  not_cached (SummaryData.videoId data) (SummaryData.style data) db →
  (length (Sqlite.summaries db) < MAX_SUMMARIES)%nat →
  Sqlite.saveSummary no_faults now data db
  = (Sqlite.mkDb (Sqlite.summaries db
                    ++ [Sqlite.mkRow (Sqlite.sqlite_sequence db + 1)
                                     (new_record data now now)])
                 (Sqlite.sqlite_sequence db + 1) (Sqlite.console db), Ok tt).
Proof.
  intros Hfresh Hlen. rewrite SqliteFacts.sqlite_save_no_faults.
  pose proof (matching_none _ _ _ Hfresh) as Hnone.
  unfold SqliteSpec.written, Sqlite.insert_or_replace. cbn [fst].
  rewrite Hnone. cbn [head].
  rewrite filter_all.
  2:{ unfold not_cached, live, sqlite_backend in Hfresh.
      by rewrite Forall_fmap in Hfresh. }
  cbv zeta. cbn [Sqlite.summaries]. rewrite length_app. cbn [length].
  by rewrite (proj2 (Nat.ltb_ge _ _)) by lia.
Qed.

Lemma migrate_records_fresh (clock : nat → Z) records :
  ∀ i (db : Sqlite.Db),
    NoDup (key_of <$> records) →
    (∀ r, r ∈ records → not_cached (video_id r) (style r) db) →
    (length (Sqlite.summaries db) + length records ≤ MAX_SUMMARIES)%nat →
    ∃ db',
      Migrate.migrate_records (λ _, no_faults) clock i records db
      = (db', Ok tt)
      ∧ live db' = live db ++ imap (λ j, restamped (clock (i + j)%nat)) records
      ∧ Sqlite.console db' = Sqlite.console db.
Proof.
  induction records as [|r records IH]; intros i db Hnd Hfresh Hlen.
  - exists db. split; [done|]. split; [|done]. csimpl. by rewrite app_nil_r.
  - csimpl in Hnd. apply NoDup_cons in Hnd as [Hr Hnd]. cbn [length] in Hlen.
    cbn [Migrate.migrate_records]. unfold bind at 1.
    rewrite save_fresh; [|apply Hfresh; by left|lia].
    set (db1 := Sqlite.mkDb _ _ _).
    destruct (IH (S i) db1 Hnd) as (db' & Hrun & Hlive & Hcon).
    + intros r' Hr'. unfold not_cached, live, sqlite_backend, db1.
      cbn [Sqlite.summaries]. rewrite fmap_app. apply Forall_app. split.
      * by apply Hfresh; right.
      * apply Forall_singleton. intros [Hv Hs]. simpl in Hv, Hs.
        apply Hr. apply list_elem_of_fmap. exists r'. split; [|done].
        unfold key_of. by rewrite Hv, Hs.
    + unfold db1. cbn [Sqlite.summaries]. rewrite length_app. simpl. lia.
    + exists db'. split; [exact Hrun|]. split; [|by rewrite Hcon].
      rewrite Hlive. unfold live, sqlite_backend, db1.
      cbn [Sqlite.summaries]. rewrite fmap_app, <- app_assoc. f_equal.
      csimpl. rewrite Nat.add_0_r. f_equal.
      apply imap_ext. intros j x _. simpl. by rewrite Nat.add_succ_r.
Qed.

(** X15. The migration into a database that has room and no record with a
    key of the file, when the keys of the file are distinct and nothing
    fails: the script completes, the backup is a copy of the file, and the
    database holds its earlier records followed by those of the file in
    their order, each with its own id, URL, title, summary and style and
    with both stamps set to the clock reading of its [saveSummary]; the
    stamps of the file are not kept. *)
Theorem migration_copies_records (clock : nat → Z) (w : Migrate.World)
    (records : list SummaryRecord) :
  Migrate.json_file w = Some records → records ≠ [] →
  NoDup (key_of <$> records) →
  (∀ r, r ∈ records → not_cached (video_id r) (style r) (Migrate.db w)) →
  (length (live (Migrate.db w)) + length records ≤ MAX_SUMMARIES)%nat →
  ∃ db',
    Migrate.migrateData no_faults (λ _, no_faults) clock w
    = (Migrate.mkWorld (Some records) (Some records) db', Ok Migrate.Completed)
    ∧ live db' = live (Migrate.db w) ++ imap (λ i, restamped (clock i)) records
    ∧ Sqlite.console db' = Sqlite.console (Migrate.db w).
Proof.
  intros Hfile Hne Hnd Hfresh Hlen.
  unfold live, sqlite_backend in Hlen. rewrite length_fmap in Hlen.
  destruct (migrate_records_fresh clock records 0 (Migrate.db w) Hnd Hfresh
              Hlen) as (db' & Hrun & Hlive & Hcon).
  exists db'. split; [|by split].
  unfold Migrate.migrateData. rewrite Hfile.
  change (no_faults 0%nat) with false. change (no_faults 1%nat) with false.
  unfold try_catch, bind at 1, Migrate.readFileSync, call.
  rewrite Hfile. unfold default, from_option, id.
  destruct records as [|r records]; [done|].
  unfold bind, Migrate.on_db. cbv beta iota. rewrite Hrun.
  unfold Migrate.copyFileSync, call, ret. cbn. by rewrite Hfile.
Qed.

Lemma migration_copies_records_witness :
  let records := live (fst (run (fill 3) JsonFile.empty)) in
  let w := Migrate.mkWorld (Some records) None Sqlite.empty in
  ∃ db',
    Migrate.migrateData no_faults (λ _, no_faults) (λ i, 50 + Z.of_nat i)%Z w
    = (Migrate.mkWorld (Some records) (Some records) db', Ok Migrate.Completed)
    ∧ live db'
      = live (Migrate.db w)
        ++ imap (λ i, restamped (50 + Z.of_nat i)%Z) records
    ∧ Sqlite.console db' = Sqlite.console (Migrate.db w).
Proof.
  cbv zeta.
  refine (migration_copies_records (λ i, 50 + Z.of_nat i)%Z
            (Migrate.mkWorld (Some (live (fst (run (fill 3) JsonFile.empty))))
                             None Sqlite.empty)
            (live (fst (run (fill 3) JsonFile.empty))) eq_refl _ _ _ _).
  - vm_compute. discriminate.
  - refine (bool_decide_unpack _ _). vm_compute. exact I.
  - intros r _. constructor.
  - vm_compute. lia.
Defined.

Lemma migrate_records_returns fsave clock records :
  ∀ i db, snd (Migrate.migrate_records fsave clock i records db) = Ok tt.
Proof.
  induction records as [|r records IH]; intros i db; [done|].
  cbn [Migrate.migrate_records]. unfold bind at 1.
  pose proof (saveSummary_returns (fsave i) (clock i)
                (SummaryData.mk (video_id r) (video_url r) (title r)
                                (summary r) (style r)) db) as Hret.
  destruct (Sqlite.saveSummary _ _ _ _) as [db1 res]. simpl in Hret.
  subst res. apply IH.
Qed.

Lemma migrate_records_all_fail fsave clock records :
  every_insert_fails fsave →
  ∀ i db,
    Sqlite.summaries (fst (Migrate.migrate_records fsave clock i records db))
    = Sqlite.summaries db.
Proof.
  intros Hfail. induction records as [|r records IH]; intros i db; [done|].
  cbn [Migrate.migrate_records]. unfold bind at 1.
  unfold Sqlite.saveSummary at 1, try_catch, bind at 1, call at 1.
  rewrite Hfail. cbn [Sqlite.console_error]. by rewrite IH.
Qed.

(** X16. The migration does not notice a failing [saveSummary]: when the
    file can be read and copied and it holds records, the script completes
    and writes the backup whatever fails in the calls of [saveSummary]; when
    every [INSERT OR REPLACE] fails, it still completes although the table
    is as it was before. *)
Theorem migration_ignores_failed_saves (f : faults) (fsave : nat → faults)
    (clock : nat → Z) (w : Migrate.World) (records : list SummaryRecord) :
  Migrate.json_file w = Some records → records ≠ [] →
  f 0%nat = false → f 1%nat = false →
  ∃ db',
    Migrate.migrateData f fsave clock w
    = (Migrate.mkWorld (Some records) (Some records) db', Ok Migrate.Completed)
    ∧ (every_insert_fails fsave →
       Sqlite.summaries db' = Sqlite.summaries (Migrate.db w)).
Proof.
  intros Hfile Hne H0 H1.
  exists (fst (Migrate.migrate_records fsave clock 0 records (Migrate.db w))).
  split; [|intros Hfail; by apply migrate_records_all_fail].
  pose proof (migrate_records_returns fsave clock records 0%nat (Migrate.db w))
    as Hret.
  unfold Migrate.migrateData. rewrite Hfile, H0, H1.
  unfold try_catch, bind at 1, Migrate.readFileSync, call.
  rewrite Hfile. unfold default, from_option, id.
  destruct records as [|r records]; [done|].
  unfold bind, Migrate.on_db. cbv beta iota.
  destruct (Migrate.migrate_records _ _ _ _ _) as [db' res].
  simpl in Hret. subst res.
  unfold Migrate.copyFileSync, call, ret. cbn. by rewrite Hfile.
Qed.

Lemma migration_ignores_failed_saves_witness :
  let records := live (fst (run (fill 3) JsonFile.empty)) in
  let w := Migrate.mkWorld (Some records) None Sqlite.empty in
  ∃ db',
    Migrate.migrateData no_faults (λ _, first_fails) (λ i, Z.of_nat i) w
    = (Migrate.mkWorld (Some records) (Some records) db', Ok Migrate.Completed)
    ∧ (every_insert_fails (λ _, first_fails) →
       Sqlite.summaries db' = Sqlite.summaries (Migrate.db w)).
Proof.
  cbv zeta.
  refine (migration_ignores_failed_saves no_faults (λ _, first_fails)
            (λ i, Z.of_nat i)
            (Migrate.mkWorld (Some (live (fst (run (fill 3) JsonFile.empty))))
                             None Sqlite.empty)
            (live (fst (run (fill 3) JsonFile.empty)))
            eq_refl _ eq_refl eq_refl).
  vm_compute. discriminate.
Defined.

(** X17. The migration when the file cannot be used or copied: a failing
    read logs the error and exits with code 1 before anything is stored;
    a failing copy logs the error and exits with code 1 after the records
    were stored, and no backup is written. In both cases the file stays as
    it is. *)
Theorem migration_exits_on_failure (f : faults) (fsave : nat → faults)
    (clock : nat → Z) (w : Migrate.World) (records : list SummaryRecord) :
  Migrate.json_file w = Some records →
  (f 0%nat = true →
   Migrate.migrateData f fsave clock w
   = (with_db (sqlite_logged Migrate.migration_error (Migrate.db w)) w,
      Ok (Migrate.Exited 1)))
  ∧ (f 0%nat = false → f 1%nat = true → records ≠ [] →
     Migrate.migrateData f fsave clock w
     = (with_db (sqlite_logged Migrate.migration_error
                   (fst (Migrate.migrate_records fsave clock 0 records
                           (Migrate.db w)))) w,
        Ok (Migrate.Exited 1))).
Proof.
  intros Hfile. split.
  - intros H0. unfold Migrate.migrateData. rewrite Hfile, H0.
    unfold try_catch, bind at 1, Migrate.readFileSync, call. done.
  - intros H0 H1 Hne.
    pose proof (migrate_records_returns fsave clock records 0%nat
                  (Migrate.db w)) as Hret.
    unfold Migrate.migrateData. rewrite Hfile, H0, H1.
    unfold try_catch, bind at 1, Migrate.readFileSync, call.
    rewrite Hfile. unfold default, from_option, id.
    destruct records as [|r records]; [done|].
    unfold bind, Migrate.on_db. cbv beta iota.
    destruct (Migrate.migrate_records _ _ _ _ _) as [db' res].
    simpl in Hret. subst res. done.
Qed.

Lemma migration_exits_on_failure_witness :
  let records := live (fst (run (fill 3) JsonFile.empty)) in
  let w := Migrate.mkWorld (Some records) None Sqlite.empty in
  Migrate.json_file w = Some records
  ∧ Migrate.migrateData first_fails (λ _, no_faults) (λ i, Z.of_nat i) w
    = (with_db (sqlite_logged Migrate.migration_error Sqlite.empty) w,
       Ok (Migrate.Exited 1)).
Proof.
  cbv zeta. split; [reflexivity|].
  exact (proj1 (migration_exits_on_failure first_fails (λ _, no_faults)
                  (λ i, Z.of_nat i)
                  (Migrate.mkWorld
                     (Some (live (fst (run (fill 3) JsonFile.empty))))
                     None Sqlite.empty)
                  (live (fst (run (fill 3) JsonFile.empty))) eq_refl)
               eq_refl).
Defined.

(** X18. The migration with nothing to migrate: when the file is missing,
    or can be read and holds no record, the script completes and changes
    nothing; in particular it writes no backup. *)
Theorem migration_without_records (f : faults) (fsave : nat → faults)
    (clock : nat → Z) (w : Migrate.World) :
  Migrate.json_file w = None ∨ (Migrate.json_file w = Some [] ∧ f 0%nat = false) →
  Migrate.migrateData f fsave clock w = (w, Ok Migrate.Completed).
Proof.
  unfold Migrate.migrateData. intros [Hfile|[Hfile H0]]; rewrite Hfile; [done|].
  unfold try_catch, bind, Migrate.readFileSync, call. by rewrite H0, Hfile.
Qed.

Lemma migration_without_records_witness :
  let w := Migrate.mkWorld (Some []) None (fst (run (fill 3) Sqlite.empty)) in
  (Migrate.json_file w = None
   ∨ (Migrate.json_file w = Some [] ∧ second_fails 0%nat = false))
  ∧ Migrate.migrateData second_fails (λ _, first_fails) (λ i, Z.of_nat i) w
    = (w, Ok Migrate.Completed).
Proof.
  cbv zeta.
  assert (Migrate.json_file
            (Migrate.mkWorld (Some []) None (fst (run (fill 3) Sqlite.empty)))
          = None
          ∨ (Migrate.json_file
               (Migrate.mkWorld (Some []) None
                                (fst (run (fill 3) Sqlite.empty)))
             = Some [] ∧ second_fails 0%nat = false)) as Hw
    by (right; split; reflexivity).
  split; [exact Hw|].
  exact (migration_without_records second_fails (λ _, first_fails)
           (λ i, Z.of_nat i)
           (Migrate.mkWorld (Some []) None (fst (run (fill 3) Sqlite.empty)))
           Hw).
Defined.

(** ** [extractVideoId] *)

(** A decidable statement about given data, settled by evaluation. *)
Ltac by_evaluation := refine (bool_decide_unpack _ _); vm_compute; exact I.

Lemma after_literal_app p s r :
  Server.after_literal p s = Some r → s = p ++ r.
Proof.
  revert s. induction p as [|a p IH]; intros [|b s]; simpl; try done.
  - by intros [= ->].
  - by intros [= ->].
  - destruct (N.eqb_spec a b) as [->|]; [|done].
    intros Hr. by rewrite (IH s Hr).
Qed.

Lemma after_literal_slash p s r :
  47 ∈ p → Forall (λ c, c ≠ 47) s → Server.after_literal p s = Some r → False.
Proof.
  intros Hp Hs Hr. apply after_literal_app in Hr. subst s.
  apply Forall_app in Hs as [Hs _]. rewrite Forall_forall in Hs.
  by apply (Hs 47).
Qed.

Lemma marker_here_free s :
  Forall (λ c, c ≠ 47) s → (∀ b, s ≠ js "v=" ++ b) →
  Server.marker_here s = None.
Proof.
  intros Hs Hv. unfold Server.marker_here.
  assert (Server.after_youtu_be s = None) as ->.
  { unfold Server.after_youtu_be.
    destruct (Server.after_literal (js "youtu") s) as [[|c r]|] eqn:Hy;
      [done| |done].
    destruct (Server.is_line_terminator c); [done|].
    destruct (Server.after_literal (js "be/") r) as [r'|] eqn:Hb; [|done].
    exfalso. apply after_literal_app in Hy. subst s.
    apply Forall_app in Hs as [_ Hs]. apply Forall_cons in Hs as [_ Hs].
    eapply after_literal_slash; [|exact Hs|exact Hb].
    by_evaluation. }
  assert (∀ p, 47 ∈ p → Server.after_literal p s = None) as Hlit.
  { intros p Hp. destruct (Server.after_literal p s) eqn:Hr; [|done].
    exfalso. by eapply after_literal_slash. }
  rewrite (Hlit (js "v/")) by by_evaluation.
  rewrite (Hlit (js "e/")) by by_evaluation.
  rewrite (Hlit (js "embed/")) by by_evaluation.
  assert (Server.after_u_word s = None) as ->.
  { unfold Server.after_u_word.
    rewrite (Hlit (js "u/")) by by_evaluation. done. }
  cbn [Server.or_else].
  destruct (Server.after_literal (js "v=") s) as [r|] eqn:Hr; [|done].
  apply after_literal_app in Hr. by destruct (Hv r).
Qed.

Lemma marker_last_free s : marker_free s → Server.marker_last s = None.
Proof.
  intros [Hs Hv]. induction s as [|c s IH]; [done|].
  cbn [Server.marker_last].
  rewrite IH.
  - rewrite marker_here_free; [by destruct (Server.is_line_terminator c)|done|].
    intros b. apply (Hv []).
  - by apply Forall_cons in Hs as [_ Hs].
  - intros a b Heq. apply (Hv (c :: a) b). by rewrite Heq.
Qed.

Lemma marker_last_later pre s r :
  Forall (λ c, Server.is_line_terminator c = false) pre →
  Server.marker_last s = Some r → Server.marker_last (pre ++ s) = Some r.
Proof.
  intros Hpre Hs. induction Hpre as [|c pre Hc _ IH]; [done|].
  cbn [app Server.marker_last]. by rewrite Hc, IH.
Qed.

Lemma take_while_run (p : N → bool) run tail :
  Forall (λ c, p c = true) run →
  (tail = [] ∨ ∃ c t, tail = c :: t ∧ p c = false) →
  take_while p (run ++ tail) = run.
Proof.
  intros Hrun Htail. induction Hrun as [|c run Hc _ IH]; simpl.
  - destruct Htail as [->|(c & t & -> & Hc)]; [done|]. simpl. by rewrite Hc.
  - by rewrite Hc, IH.
Qed.

Lemma id_unit_test c :
  id_unit c ↔ negb ((c =? 35) || (c =? 38) || (c =? 63)) = true.
Proof.
  unfold id_unit.
  destruct (N.eqb_spec c 35), (N.eqb_spec c 38), (N.eqb_spec c 63);
    simpl; split; try done; intros (? & ? & ?); done.
Qed.

(** X19. [extractVideoId] finds the id of a watch URL: for a URL made of
    a prefix without line terminator, [v=], eleven code units that are none
    of [#], [&], [?], and then nothing or a rest that starts with one of
    these three, where neither a slash nor another [v=] comes after the
    [v=], the result is these eleven code units. *)
Theorem extract_id_after_v (pre id rest : jsstring) :
  Forall (λ c, Server.is_line_terminator c = false) pre →
  length id = 11%nat → Forall id_unit id →
  (rest = [] ∨ ∃ c t, rest = c :: t ∧ ¬ id_unit c) →
  marker_free (id ++ rest) →
  Server.extractVideoId (pre ++ js "v=" ++ id ++ rest) = Some id.
Proof.
  intros Hpre Hlen Hid Hrest Hfree.
  assert (Server.marker_last (js "v=" ++ id ++ rest) = Some (id ++ rest))
    as Hlast.
  { change (js "v=" ++ id ++ rest) with (118 :: 61 :: id ++ rest).
    cbn [Server.marker_last]. rewrite (marker_last_free _ Hfree).
    reflexivity. }
  unfold Server.extractVideoId.
  rewrite (marker_last_later pre _ _ Hpre Hlast). cbv zeta.
  rewrite take_while_run.
  - by rewrite Hlen.
  - eapply Forall_impl; [exact Hid|]. intros c. apply id_unit_test.
  - destruct Hrest as [->|(c & t & -> & Hc)]; [by left|]. right.
    exists c, t. split; [done|]. rewrite id_unit_test in Hc.
    by destruct (negb _).
Qed.

Lemma extract_id_after_v_witness :
  Server.extractVideoId
    (js "https://www.youtube.com/watch?v=" ++ js "dQw4w9WgXcQ" ++ js "&t=42s")
  = Some (js "dQw4w9WgXcQ").
Proof.
  refine (extract_id_after_v (js "https://www.youtube.com/watch?")
            (js "dQw4w9WgXcQ") (js "&t=42s") _ eq_refl _ _ _).
  - by_evaluation.
  - by_evaluation.
  - right. exists 38, (js "t=42s"). split; [reflexivity|].
    intros (_ & H & _). by apply H.
  - split.
    + by_evaluation.
    + intros a b Heq.
      assert (61 ∈ js "dQw4w9WgXcQ&t=42s" → 118 ∈ js "dQw4w9WgXcQ&t=42s")
        as Himp.
      { intros _. change (js "dQw4w9WgXcQ" ++ js "&t=42s")
          with (js "dQw4w9WgXcQ&t=42s") in Heq.
        rewrite Heq. apply elem_of_app. right. by left. }
      assert (118 ∉ js "dQw4w9WgXcQ&t=42s") as Hno
        by by_evaluation.
      apply Hno, Himp.
      by_evaluation.
Defined.

Lemma or_else_some {A} (a b : option A) r :
  Server.or_else a b = Some r → a = Some r ∨ b = Some r.
Proof. destruct a; simpl; eauto. Qed.

Lemma marker_here_suffix s r :
  Server.marker_here s = Some r → ∃ pre, s = pre ++ r.
Proof.
  unfold Server.marker_here. intros H.
  repeat (apply or_else_some in H as [H|H]).
  - unfold Server.after_youtu_be in H.
    destruct (Server.after_literal (js "youtu") s) as [[|c r0]|] eqn:Hy;
      [done| |done].
    destruct (Server.is_line_terminator c); [done|].
    apply after_literal_app in Hy, H. subst.
    exists (js "youtu" ++ c :: js "be/"). by rewrite <- !app_assoc.
  - apply after_literal_app in H. eauto.
  - apply after_literal_app in H. eauto.
  - unfold Server.after_u_word in H.
    destruct (Server.after_literal (js "u/") s) as [r0|] eqn:Hu; [|done].
    apply after_literal_app in Hu.
    pose proof (take_drop_while Server.is_word r0) as Hsplit.
    destruct (take_while Server.is_word r0) as [|x d]; [done|].
    destruct (drop_while Server.is_word r0) as [|c r']; [done|].
    destruct (c =? 47); [|done]. injection H as <-.
    exists (js "u/" ++ (x :: d) ++ [c]). subst s. rewrite <- Hsplit.
    by rewrite <- !app_assoc.
  - apply after_literal_app in H. eauto.
  - apply after_literal_app in H. eauto.
Qed.

Lemma marker_last_suffix s r :
  Server.marker_last s = Some r → ∃ pre, s = pre ++ r.
Proof.
  induction s as [|c s IH]; [done|]. cbn [Server.marker_last].
  intros [H|H]%or_else_some.
  - destruct (Server.is_line_terminator c); [done|].
    destruct (IH H) as [pre ->]. by exists (c :: pre).
  - by apply marker_here_suffix.
Qed.

(** X20. What [extractVideoId] returns is a piece of the URL that has
    exactly eleven code units, none of them [#], [&] or [?]. *)
Theorem extracted_id_shape (url id : jsstring) :
  Server.extractVideoId url = Some id →
  length id = 11%nat ∧ Forall id_unit id
  ∧ ∃ pre post, url = pre ++ id ++ post.
Proof.
  unfold Server.extractVideoId.
  destruct (Server.marker_last url) as [r|] eqn:Hlast; [|done]. cbv zeta.
  set (ok := λ c, negb ((c =? 35) || (c =? 38) || (c =? 63))).
  destruct (Nat.eqb_spec (length (take_while ok r)) 11) as [Hlen|]; [|done].
  intros [= <-]. split; [done|]. split.
  - eapply Forall_impl; [apply take_while_all|]. intros c.
    apply id_unit_test.
  - destruct (marker_last_suffix _ _ Hlast) as [pre ->].
    exists pre, (drop_while ok r). by rewrite take_drop_while.
Qed.

Lemma extracted_id_shape_witness :
  let url := js "https://youtu.be/dQw4w9WgXcQ?t=42" in
  Server.extractVideoId url = Some (js "dQw4w9WgXcQ")
  ∧ length (js "dQw4w9WgXcQ") = 11%nat
  ∧ Forall id_unit (js "dQw4w9WgXcQ")
  ∧ ∃ pre post, url = pre ++ js "dQw4w9WgXcQ" ++ post.
Proof.
  cbv zeta. split; [reflexivity|].
  exact (extracted_id_shape (js "https://youtu.be/dQw4w9WgXcQ?t=42")
           (js "dQw4w9WgXcQ") eq_refl).
Defined.

(** ** A line that holds only a timestamp *)

Lemma digit_not_space c : is_digit c = true → is_space c = false.
Proof.
  unfold is_digit, is_space. intros [H1 H2]%andb_prop.
  apply N.leb_le in H1, H2.
  repeat match goal with
         | |- context [?a =? ?b] => destruct (N.eqb_spec a b); [lia|]
         | |- context [?a <=? ?b] => destruct (N.leb_spec a b); [lia|]
         end.
  reflexivity.
Qed.

Lemma timestamp_here_digit s m :
  Parser.timestamp_here s = Some m → ∃ c r, s = c :: r ∧ is_digit c = true.
Proof.
  unfold Parser.timestamp_here. destruct s as [|c r]; [done|]. simpl.
  destruct (is_digit c) eqn:Hc; [eauto | done].
Qed.

Lemma timestampMatch_not_blank s m :
  Parser.timestampMatch s = Some m → ¬ ParserSpec.blank s.
Proof.
  induction s as [|c s IH]; [done|]. cbn [Parser.timestampMatch].
  destruct (Parser.timestamp_here (c :: s)) as [m'|] eqn:Hh.
  - intros _ Hb. apply timestamp_here_digit in Hh as (c' & r & [= <- <-] & Hc).
    apply Forall_cons in Hb as [Hb _]. apply digit_not_space in Hc.
    congruence.
  - intros Hm Hb. apply Forall_cons in Hb as [_ Hb]. by apply (IH Hm).
Qed.

(** X21. A line outside a fenced block that holds a timestamp and nothing
    but whitespace after it takes the following line, when that one is not
    blank, as the text of its point: the accumulated point is closed, the
    timestamp becomes the tracked one, and the following line is consumed
    without being read as a fence, a heading or a timestamp. *)
Theorem timestamp_line_takes_next (st : Parser.Scan)
    (line next m : jsstring) (rest : list jsstring) :
  Parser.inCodeBlock st = false →
  startsWith (js "```") (trim line) = false →
  Parser.timestampMatch line = Some m →
  ParserSpec.blank (substring (indexOf m line + Z.of_nat (length m)) line) →
  ¬ ParserSpec.blank next →
  Parser.scan st (line :: next :: rest)
  = Parser.scan
      (Parser.mkScan (Parser.summaryPoints (Parser.push_if_content st)) m
                     (trim next ++ [LF]) false 0)
      rest.
Proof.
  intros Hcode Hfence Hm Hafter Hnext.
  apply timestampMatch_not_blank in Hm as Hline.
  apply ParserFacts.not_blank_trim in Hline as (c0 & r0 & Hline).
  apply ParserFacts.not_blank_trim in Hnext as (c1 & r1 & Hnext).
  apply ParserFacts.trim_nil_iff in Hafter.
  rewrite scan_two. unfold Parser.iteration.
  rewrite Hfence, Hcode, Hline. cbv zeta. rewrite Hm, Hafter, Hnext.
  cbn [fst snd]. f_equal. f_equal.
  unfold Parser.push_if_content. cbn [Parser.currentPoint].
  by destruct (trim (Parser.currentPoint st)).
Qed.

Lemma timestamp_line_takes_next_witness :
  Parser.inCodeBlock Parser.initial = false
  ∧ startsWith (js "```") (trim (js "0:42 ")) = false
  ∧ Parser.timestampMatch (js "0:42 ") = Some (js "0:42")
  ∧ Parser.scan Parser.initial [js "0:42 "; js "```"; js "text"]
    = Parser.scan (Parser.mkScan [] (js "0:42") (js "```" ++ [LF]) false 0)
                  [js "text"].
Proof.
  split; [reflexivity|]. split; [reflexivity|]. split; [reflexivity|].
  refine (timestamp_line_takes_next Parser.initial (js "0:42 ") (js "```")
            (js "0:42") [js "text"] eq_refl eq_refl eq_refl _ _).
  - by_evaluation.
  - intros Hb. apply ParserFacts.trim_nil_iff in Hb. discriminate Hb.
Defined.
